(** * Related-notes semantic search: vector store, indexing pipeline,
      embedding client and similarity ranking

    A shallow embedding of [semantic_search.ts] (class
    [SemanticSearchService]) and [ollama_client.ts] (class [OllamaClient]),
    followed by the properties of the specification that concern them.

    Conventions of the embedding:
    - a JavaScript [number] is an IEEE-754 binary64 value, modelled by
      [spec_float] with precision 53 and maximal exponent 1024;
    - a JavaScript string is a [string]; [===] on strings is [String.eqb];
    - [this.vectors] is a [list NoteVector] in array order;
    - asynchronous methods are run to completion, one after the other: the
      state of the service, of the vault adapter (the "disk"), of the console
      and of the embedding provider is threaded explicitly. *)

From Stdlib Require Import ZArith Zpower Lia Bool String Ascii.
From Stdlib Require Import Floats.SpecFloat Sorting.Sorted.
From Stdlib Require Strings.Byte.
From stdpp Require Import base list strings gmap.

Open Scope Z_scope.

(* ================================================================== *)
(** * JavaScript values used by the code *)
(* ================================================================== *)

(** ** Numbers *)

Definition number := spec_float.

Definition prec64 : Z := 53.
Definition emax64 : Z := 1024.

Definition num_zero : number := S754_zero false.
Definition num_nan : number := S754_nan.

Definition num_add : number -> number -> number := SFadd prec64 emax64.
Definition num_sub : number -> number -> number := SFsub prec64 emax64.
Definition num_mul : number -> number -> number := SFmul prec64 emax64.
Definition num_div : number -> number -> number := SFdiv prec64 emax64.
Definition num_sqrt : number -> number := SFsqrt prec64 emax64.

(** [a === b] on numbers: [NaN] differs from everything, [+0 === -0]. *)
Definition num_strict_eq (a b : number) : bool := SFeqb a b.

(** [x > 0] and [x < 0]; both are false for [NaN] and for the zeros. *)
Definition num_is_pos (x : number) : bool := SFltb num_zero x.
Definition num_is_neg (x : number) : bool := SFltb x num_zero.

Definition is_nan (x : number) : bool :=
  match x with S754_nan => true | _ => false end.

(** A number that is a valid binary64 value. *)
Definition valid64 (x : number) : bool := valid_binary prec64 emax64 x.

(** The number denoted by an integer literal. *)
Definition num_of_Z (z : Z) : number := binary_normalize prec64 emax64 z 0 false.

(** ** Arrays *)

(** [arr.findIndex(p)]: the first index whose element satisfies [p], or -1. *)
Fixpoint findIndex {A} (p : A -> bool) (l : list A) : Z :=
  match l with
  | [] => -1
  | x :: l' => if p x then 0 else
                 let i := findIndex p l' in
                 if i <? 0 then -1 else i + 1
  end.

(** [arr.find(p)]: the first element that satisfies [p], or [undefined]. *)
Fixpoint array_find {A} (p : A -> bool) (l : list A) : option A :=
  match l with
  | [] => None
  | x :: l' => if p x then Some x else array_find p l'
  end.

(** [arr[i]]: [undefined] outside of the array, in particular at -1. *)
Definition array_get {A} (l : list A) (i : Z) : option A :=
  if i <? 0 then None else l !! Z.to_nat i.

(** [arr[i] = x] for an index inside the array.  (Outside of it JavaScript
    would extend the array; every index the code assigns at comes from
    [findIndex] on the same array, see [findIndex_lt_length].) *)
Definition array_set {A} (l : list A) (i : Z) (x : A) : list A :=
  <[Z.to_nat i := x]> l.

(** [arr.slice(0, k)] for any integer [k]: a negative [k] counts from the
    end of the array. *)
Definition slice0 {A} (k : Z) (l : list A) : list A :=
  if k <? 0 then take (Z.to_nat (Z.of_nat (length l) + k)) l
  else take (Z.to_nat k) l.

(** ** Strings *)

(** [s.includes(t)] *)
Definition includes (s t : string) : bool :=
  match String.index 0 t s with Some _ => true | None => false end.

(** [s.length] *)
Definition str_length (s : string) : Z := Z.of_nat (String.length s).

(* ================================================================== *)
(** * Data model ([semantic_search.ts]) *)
(* ================================================================== *)

(** [interface NoteVector] *)
Record NoteVector := mkNoteVector {
  path : string;
  embedding : list number;
  mtime : number
}.

(** The part of Obsidian's [TFile] the service reads: [file.path],
    [file.basename], [file.stat.mtime], and what [vault.read(file)] gives
    ([None] when reading throws). *)
Record TFile := mkTFile {
  file_path : string;
  file_basename : string;
  file_mtime : number;
  file_content : option string
}.

(** [v => v.path === p] *)
Definition has_path (p : string) (v : NoteVector) : bool := String.eqb (path v) p.

(* ================================================================== *)
(** * The in-memory store *)
(* ================================================================== *)

(** The tail of [indexNote] (after the embedding arrived): writes the new
    record at [existingIndex] when that is an index, and otherwise looks the
    path up a second time before it appends. *)
Definition storeEmbedding (existingIndex : Z) (p : string) (e : list number)
    (m : number) (vectors : list NoteVector) : list NoteVector :=
  let record := mkNoteVector p e m in
  if 0 <=? existingIndex then array_set vectors existingIndex record
  else
    let doubleCheckIndex := findIndex (has_path p) vectors in
    if 0 <=? doubleCheckIndex then array_set vectors doubleCheckIndex record
    else vectors ++ [record].

(** Insert-or-update by path: [storeEmbedding] at the index that
    [indexNote] computes on the same array. *)
Definition upsert (p : string) (e : list number) (m : number)
    (vectors : list NoteVector) : list NoteVector :=
  storeEmbedding (findIndex (has_path p) vectors) p e m vectors.

(** A sequence of upserts, applied left to right. *)
Definition upsert_all (ops : list (string * list number * number))
    (vectors : list NoteVector) : list NoteVector :=
  foldl (fun vs '(p, e, m) => upsert p e m vs) vectors ops.

(** The pruning step of [indexAll]:
    [this.vectors.filter(v => currentFilePaths.has(v.path))], together with
    [prunedCount]. *)
Definition prune (currentFilePaths : gset string) (vectors : list NoteVector)
    : list NoteVector * Z :=
  let initialVectorCount := Z.of_nat (length vectors) in
  let vectors' := filter (fun v => path v ∈ currentFilePaths) vectors in
  (vectors', initialVectorCount - Z.of_nat (length vectors')).


(* ================================================================== *)
(** * Text helpers (regular expressions of the code, written out) *)
(* ================================================================== *)

Definition code (c : ascii) : N := N_of_ascii c.

(** The class [[\x00-\x08\x0B\x0C\x0E-\x1F\x7F]]. *)
Definition is_control (c : ascii) : bool :=
  let n := code c in
  ((n <=? 8) || (n =? 11) || (n =? 12) || ((14 <=? n) && (n <=? 31)) || (n =? 127))%N.

(** The class [\s], restricted to code units below 256. *)
Definition is_space (c : ascii) : bool :=
  let n := code c in
  (((9 <=? n) && (n <=? 13)) || (n =? 32) || (n =? 160))%N.

(** [OllamaClient.sanitizeText]: [text.replace(/[\x00-\x08\x0B\x0C\x0E-\x1F\x7F]/g, '')] *)
Fixpoint sanitizeText (text : string) : string :=
  match text with
  | EmptyString => EmptyString
  | String c s => if is_control c then sanitizeText s else String c (sanitizeText s)
  end.

(** Position of the first [>] of a string. *)
Fixpoint find_gt (s : string) : option nat :=
  match s with
  | EmptyString => None
  | String c s' => if Ascii.eqb c ">" then Some 0%nat else S <$> find_gt s'
  end.

(** [s.replace(/<[^>]+>/g, ' ')].  [skip] counts the characters of the
    current match that are still to be dropped. *)
Fixpoint stripTags_from (skip : nat) (s : string) : string :=
  match s with
  | EmptyString => EmptyString
  | String c s' =>
      match skip with
      | S k => stripTags_from k s'
      | O =>
          if Ascii.eqb c "<" then
            match find_gt s' with
            | Some (S j) => String " " (stripTags_from (S (S j)) s')
            | _ => String c (stripTags_from 0 s')
            end
          else String c (stripTags_from 0 s')
      end
  end.

Definition stripTags (s : string) : string := stripTags_from 0 s.

(** [s.replace(/\s+/g, ' ')]; [inRun] tells that the previous character was
    white space. *)
Fixpoint collapseSpaces_from (inRun : bool) (s : string) : string :=
  match s with
  | EmptyString => EmptyString
  | String c s' =>
      if is_space c then
        if inRun then collapseSpaces_from true s'
        else String " " (collapseSpaces_from true s')
      else String c (collapseSpaces_from false s')
  end.

Definition collapseSpaces (s : string) : string := collapseSpaces_from false s.

Fixpoint trimStart (s : string) : string :=
  match s with
  | String c s' => if is_space c then trimStart s' else s
  | EmptyString => EmptyString
  end.

Fixpoint trimEnd (s : string) : string :=
  match s with
  | EmptyString => EmptyString
  | String c s' =>
      match trimEnd s' with
      | EmptyString => if is_space c then EmptyString else String c EmptyString
      | t => String c t
      end
  end.

(** [s.trim()] *)
Definition trim (s : string) : string := trimEnd (trimStart s).

(** [s.substring(0, n)] *)
Definition substring0 (n : Z) (s : string) : string :=
  String.substring 0 (Z.to_nat n) s.

(** [s.replace(/pat/g, rep)] for a literal, non-empty [pat]. *)
Fixpoint replaceAll_from (skip : nat) (pat rep s : string) : string :=
  match s with
  | EmptyString => EmptyString
  | String c s' =>
      match skip with
      | S k => replaceAll_from k pat rep s'
      | O =>
          if String.prefix pat s
          then rep ++ replaceAll_from (String.length pat - 1) pat rep s'
          else String c (replaceAll_from 0 pat rep s')
      end
  end.

Definition replaceAll (pat rep s : string) : string := replaceAll_from 0 pat rep s.

(** [s.replace(/open[\s\S]*?```/g, '')]: every block that starts with
    [open] and runs to the next closing fence is removed. *)
Fixpoint removeFenced_from (skip : nat) (open s : string) : string :=
  match s with
  | EmptyString => EmptyString
  | String c s' =>
      match skip with
      | S k => removeFenced_from k open s'
      | O =>
          if String.prefix open s then
            match String.index (String.length open) "```" s with
            | Some k => removeFenced_from (k + 2) open s'
            | None => String c (removeFenced_from 0 open s')
            end
          else String c (removeFenced_from 0 open s')
      end
  end.

Definition removeFenced (open s : string) : string := removeFenced_from 0 open s.

(** [s.replace(/pat[\s\S]*$/, '')]: everything from the first [pat] on. *)
Definition removeFrom (pat s : string) : string :=
  match String.index 0 pat s with
  | Some k => String.substring 0 k s
  | None => s
  end.

(** [SemanticSearchService.preprocessContent] *)
Definition preprocessContent (content : string) : string :=
  let clean := removeFenced "```dataview" content in
  let clean := removeFenced "```dataviewjs" clean in
  let clean := removeFenced "```excalidraw" clean in
  let clean := removeFrom "## Excalidraw Data" clean in
  let clean := stripTags clean in
  let clean := replaceAll "&amp;" "&" clean in
  let clean := replaceAll "&lt;" "<" clean in
  let clean := replaceAll "&gt;" ">" clean in
  let clean := replaceAll "&quot;" (String (ascii_of_nat 34) EmptyString) clean in
  let clean := replaceAll "&apos;" "'" clean in
  let clean := replaceAll "&nbsp;" " " clean in
  trim (collapseSpaces clean).

(* ================================================================== *)
(** * The embedding provider client ([ollama_client.ts]) *)
(* ================================================================== *)

(** What [response.json] holds, as far as the client looks at it. *)
Inductive Json :=
  | JsonThrows              (* not JSON, or [null]: reading [.embedding] throws *)
  | JsonNoEmbedding         (* an object whose [embedding] is missing or falsy *)
  | JsonEmbeddingNotArray   (* [embedding] is truthy and not an array *)
  | JsonEmbedding (e : list number). (* [embedding] is an array, empty or not *)

Record Response := mkResponse {
  status : Z;
  text : string;
  json : Json
}.

(** The outcome of [requestUrl({..., throw: false})]: the call throws when
    the transport fails and returns the response otherwise, whatever its
    status. *)
Inductive Outcome :=
  | Throws (message : string)
  | Returns (response : Response).

(** The embedding service: what the request number [n] (counted from 0 over
    everything posted so far), with the given prompt, results in. *)
Definition Provider := nat -> string -> Outcome.

(** The traffic with the service: the prompts posted so far, in order, and
    the delays slept through. *)
Record Net := mkNet {
  sent : list string;
  delays : list Z
}.

Definition net0 : Net := mkNet [] [].

Inductive Error :=
  | ConnectFailed (attempts : Z) (message : string)
      (* Failed to connect to Ollama after N attempts: ... *)
  | ApiError (status : Z) (errorText : string)
      (* Ollama API error: status - text *)
  | InvalidResponse        (* Invalid embedding response from Ollama *)
  | BodyError              (* the exception raised by reading the body *)
  | RetriesExhausted       (* Failed to generate embedding after all retries *)
  | ReadError              (* vault.read or adapter.read failed *)
  | RangeError             (* a DataView or typed-array access out of bounds *)
  | InvalidFormat          (* Invalid binary vector file format *)
  | ParseError             (* JSON.parse failed *)
  | Cancelled.             (* Indexing cancelled *)

Inductive Result (A : Type) :=
  | Ok (a : A)
  | Err (e : Error).
Arguments Ok {A} a.
Arguments Err {A} e.

(** [await requestUrl({... prompt ...})] *)
Definition requestUrl (provider : Provider) (prompt : string) (n : Net)
    : Outcome * Net :=
  (provider (length (sent n)) prompt, mkNet (sent n ++ [prompt]) (delays n)).

(** [await new Promise(resolve => setTimeout(resolve, delay))] *)
Definition sleep (delay : Z) (n : Net) : Net :=
  mkNet (sent n) (delays n ++ [delay]).

(** The test both fallback modes apply to their response:
    [r.status === 200], then [data.embedding && Array.isArray(data.embedding)].
    Any exception is caught by the mode's own [try]. *)
Definition fallback_embedding (o : Outcome) : option (list number) :=
  match o with
  | Returns r =>
      if status r =? 200 then
        match json r with
        | JsonEmbedding e => Some e
        | _ => None
        end
      else None
  | Throws _ => None
  end.

Definition maxLength : Z := 32000.
Definition safeLength : Z := 2000.

Definition truncatedText (sanitizedText : string) : string :=
  if maxLength <? str_length sanitizedText
  then substring0 maxLength sanitizedText else sanitizedText.

Definition safeText (sanitizedText : string) : string :=
  substring0 safeLength (trim (collapseSpaces (stripTags sanitizedText))).

Definition titlePrompt (title : string) : string := "Note title: " ++ title.

(** [if (title)]: a title was passed and is not the empty string. *)
Definition title_given (title : option string) : option string :=
  match title with
  | Some EmptyString => None
  | t => t
  end.

(** Safe Mode, then Title Only Mode, then the final [throw] of the
    non-200 branch. *)
Definition fallbackChain (provider : Provider) (sanitizedText : string)
    (title : option string) (response : Response) (n : Net)
    : Result (list number) * Net :=
  let (safeResponse, n) := requestUrl provider (safeText sanitizedText) n in
  match fallback_embedding safeResponse with
  | Some e => (Ok e, n)
  | None =>
      match title_given title with
      | Some t =>
          let (titleResponse, n) := requestUrl provider (titlePrompt t) n in
          match fallback_embedding titleResponse with
          | Some e => (Ok e, n)
          | None => (Err (ApiError (status response) (text response)), n)
          end
      | None => (Err (ApiError (status response) (text response)), n)
      end
  end.

(** The body of the [for (attempt = 0; attempt <= retries; attempt++)]
    loop; [fuel] is the number of iterations left, [S retries - attempt]. *)
Fixpoint attemptLoop (provider : Provider) (sanitizedText : string)
    (title : option string) (retries : nat) (fuel : nat) (attempt : nat)
    (n : Net) : Result (list number) * Net :=
  match fuel with
  | O => (Err RetriesExhausted, n)
  | S fuel' =>
      let (outcome, n) := requestUrl provider (truncatedText sanitizedText) n in
      match outcome with
      | Throws message =>
          if (attempt <? retries)%nat then
            let delay := 2 ^ Z.of_nat attempt * 1000 in
            attemptLoop provider sanitizedText title retries fuel' (S attempt)
              (sleep delay n)
          else (Err (ConnectFailed (Z.of_nat retries + 1) message), n)
      | Returns response =>
          if negb (status response =? 200) then
            let errorText := text response in
            let isContextLength :=
              includes errorText "context length"
              || includes errorText "context_length" in
            if includes errorText "EOF" || includes errorText "connection"
               || isContextLength then
              if (attempt <? retries)%nat && negb isContextLength then
                let delay := 2 ^ Z.of_nat attempt * 1000 in
                attemptLoop provider sanitizedText title retries fuel' (S attempt)
                  (sleep delay n)
              else fallbackChain provider sanitizedText title response n
            else (Err (ApiError (status response) errorText), n)
          else
            match json response with
            | JsonThrows => (Err BodyError, n)
            | JsonNoEmbedding | JsonEmbeddingNotArray => (Err InvalidResponse, n)
            | JsonEmbedding e => (Ok e, n)
            end
      end
  end.

(** [OllamaClient.generateEmbedding(text, title?, retries = 3)] *)
Definition generateEmbedding_with (provider : Provider) (retries : nat)
    (text0 : string) (title : option string) (n : Net)
    : Result (list number) * Net :=
  attemptLoop provider (sanitizeText text0) title retries (S retries) 0 n.

Definition generateEmbedding (provider : Provider) (text0 : string)
    (title : option string) (n : Net) : Result (list number) * Net :=
  generateEmbedding_with provider 3 text0 title n.

(* ================================================================== *)
(** * Bytes, integers and floats in an [ArrayBuffer] *)
(* ================================================================== *)

Definition byte_of_Z (z : Z) : Byte.byte :=
  default Byte.x00 (Byte.of_N (Z.to_N (z mod 256))).

Definition Z_of_byte (b : Byte.byte) : Z := Z.of_N (Byte.to_N b).

(** The [n] low bytes of an integer, least significant first: the integer
    is taken modulo [256 ^ n]. *)
Fixpoint le_bytes (n : nat) (z : Z) : list Byte.byte :=
  match n with
  | O => []
  | S n' => byte_of_Z z :: le_bytes n' (z / 256)
  end.

(** The integer a little-endian byte sequence denotes. *)
Fixpoint le_value (bs : list Byte.byte) : Z :=
  match bs with
  | [] => 0
  | b :: bs' => Z_of_byte b + 256 * le_value bs'
  end.

(** ** IEEE-754 interchange formats

    [mw] is the width of the mantissa field and [ew] that of the exponent
    field: 52 and 11 for binary64, 23 and 8 for binary32. *)

Definition fmt_emin (mw ew : Z) : Z := 3 - 2 ^ (ew - 1) - (mw + 1).

Definition join_bits (mw ew : Z) (s : bool) (E M : Z) : Z :=
  (if s then 2 ^ (mw + ew) else 0) + E * 2 ^ mw + M.

Definition bits_of_float (mw ew : Z) (x : spec_float) : Z :=
  match x with
  | S754_zero s => join_bits mw ew s 0 0
  | S754_infinity s => join_bits mw ew s (2 ^ ew - 1) 0
  | S754_nan => join_bits mw ew false (2 ^ ew - 1) (2 ^ (mw - 1))
  | S754_finite s m e =>
      if Z.pos m <? 2 ^ mw then join_bits mw ew s 0 (Z.pos m)
      else join_bits mw ew s (e - fmt_emin mw ew + 1) (Z.pos m - 2 ^ mw)
  end.

Definition float_of_bits (mw ew : Z) (bits : Z) : spec_float :=
  let M := bits mod 2 ^ mw in
  let E := (bits / 2 ^ mw) mod 2 ^ ew in
  let s := Z.odd (bits / 2 ^ (mw + ew)) in
  if E =? 0 then
    match M with
    | Z.pos m => S754_finite s m (fmt_emin mw ew)
    | _ => S754_zero s
    end
  else if E =? 2 ^ ew - 1 then
    if M =? 0 then S754_infinity s else S754_nan
  else
    match M + 2 ^ mw with
    | Z.pos m => S754_finite s m (E + fmt_emin mw ew - 1)
    | _ => S754_nan
    end.

(** Rounding of a number to the nearest binary32 value, ties to even. *)
Definition round32 (x : number) : spec_float :=
  match x with
  | S754_finite s m e => binary_normalize 24 128 (cond_Zopp s (Z.pos m)) e s
  | _ => x
  end.

(** A binary32 value as the number it is. *)
Definition widen32 (x : spec_float) : number :=
  match x with
  | S754_finite s m e => binary_normalize prec64 emax64 (cond_Zopp s (Z.pos m)) e s
  | _ => x
  end.

(** ** [DataView] accessors (all little-endian); [None] is a [RangeError] *)

Definition viewBytes (buffer : list Byte.byte) (offset len : Z) : option (list Byte.byte) :=
  if (0 <=? offset) && (0 <=? len) && (offset + len <=? Z.of_nat (length buffer))
  then Some (take (Z.to_nat len) (drop (Z.to_nat offset) buffer))
  else None.

Definition viewWrite (buffer : list Byte.byte) (offset : Z) (bs : list Byte.byte)
    : option (list Byte.byte) :=
  if (0 <=? offset) && (offset + Z.of_nat (length bs) <=? Z.of_nat (length buffer))
  then Some (take (Z.to_nat offset) buffer ++ bs
             ++ drop (Z.to_nat offset + length bs) buffer)
  else None.

Definition getUint8 (buffer : list Byte.byte) (offset : Z) : option Z :=
  le_value <$> viewBytes buffer offset 1.

Definition getUint32 (buffer : list Byte.byte) (offset : Z) : option Z :=
  le_value <$> viewBytes buffer offset 4.

Definition getFloat64 (buffer : list Byte.byte) (offset : Z) : option number :=
  (fun bs => float_of_bits 52 11 (le_value bs)) <$> viewBytes buffer offset 8.

Definition getFloat32 (buffer : list Byte.byte) (offset : Z) : option number :=
  (fun bs => widen32 (float_of_bits 23 8 (le_value bs))) <$> viewBytes buffer offset 4.

Definition setUint8 (buffer : list Byte.byte) (offset : Z) (v : Z) :=
  viewWrite buffer offset (le_bytes 1 v).

Definition setUint32 (buffer : list Byte.byte) (offset : Z) (v : Z) :=
  viewWrite buffer offset (le_bytes 4 v).

Definition setFloat64 (buffer : list Byte.byte) (offset : Z) (x : number) :=
  viewWrite buffer offset (le_bytes 8 (bits_of_float 52 11 x)).

Definition setFloat32 (buffer : list Byte.byte) (offset : Z) (x : number) :=
  viewWrite buffer offset (le_bytes 4 (bits_of_float 23 8 (round32 x))).

(** [Math.fround]: what a number becomes when it is stored in a
    [Float32Array] cell, or written with [setFloat32], and read back. *)
Definition fround (x : number) : number :=
  widen32 (float_of_bits 23 8 (le_value (le_bytes 4 (bits_of_float 23 8 (round32 x))))).

(** A number that a 32-bit float holds exactly. *)
Definition is_float32 (x : number) : bool :=
  match x, fround x with
  | S754_nan, S754_nan => true
  | S754_zero a, S754_zero b => Bool.eqb a b
  | S754_infinity a, S754_infinity b => Bool.eqb a b
  | S754_finite a m e, S754_finite b m' e' =>
      Bool.eqb a b && Pos.eqb m m' && Z.eqb e e'
  | _, _ => false
  end.

(* ================================================================== *)
(** * The service and its surroundings *)
(* ================================================================== *)

Inductive Format := FormatJson | FormatBinary.

(** The legacy file, identified with the value its text denotes:
    [JSON.parse] gives the array back, or fails on a corrupt file.
    [JsonVectors vs] is a file whose text parses to the array [vs]. *)
Inductive JsonDoc :=
  | JsonVectors (vs : list NoteVector)
  | JsonCorrupt.

(** The two files of the vault adapter the service works with:
    [vectors.bin] and [vectors.json], each present or not. *)
Record Disk := mkDisk {
  binaryFile : option (list Byte.byte);
  jsonFile : option JsonDoc
}.

Inductive LogEntry :=
  | LogLoaded (f : Format) (count : Z)       (* Loaded N vectors from ... *)
  | ErrLoadFailed (f : Format) (e : Error)   (* Failed to load ... vectors *)
  | LogSaved (f : Format) (count : Z)        (* Saved N vectors to ... *)
  | LogRemovedLegacy                         (* Removed legacy vectors.json file *)
  | ErrSaveFailed (e : Error)                (* Failed to save vectors *)
  | LogIndexCleared                          (* Index cleared *)
  | LogCancelledByUser                       (* Indexing cancelled by user *)
  | LogAlreadyInProgress                     (* Indexing already in progress *)
  | LogIndexing (p : string)                 (* Indexing <path>... *)
  | ErrIndexNoteFailed (p : string) (e : Error) (* Failed to index <path> *)
  | LogSnippet (snippet : string)            (* Failed note content snippet *)
  | LogSkipping (p : string)                 (* Skipping <path>: Up to date *)
  | LogPruned (count : Z)                    (* Pruned N deleted notes from index. *)
  | LogComplete (succeeded failed pruned : Z) (* Indexing complete: ... *)
  | LogFailedFiles (paths : list string)     (* Failed files: ... *)
  | LogCancelled                             (* Indexing cancelled. *)
  | LogSavingPartial                         (* Saving partial progress... *)
  | ErrIndexingFailed (e : Error).           (* Indexing failed *)

(** The fields of [SemanticSearchService], with the adapter's files, the
    traffic of the client, the console and the calls of
    [onIndexingProgress].  [console] holds the lines the service itself
    writes; the lines the client writes while it handles a request
    ([ollama_client.ts]) are not recorded. *)
Record Service := mkService {
  vectors : list NoteVector;
  format : Format;
  debugMode : bool;
  isIndexing : bool;
  currentProgress : Z;
  totalFiles : Z;
  abortController : bool;      (* [this.abortController] is not null *)
  signalAborted : bool;        (* [signal.aborted] of the running session *)
  disk : Disk;
  net : Net;
  console : list LogEntry;
  progress : list (Z * Z)
}.

Definition set_vectors (vs : list NoteVector) (s : Service) : Service :=
  mkService vs (format s) (debugMode s) (isIndexing s) (currentProgress s)
    (totalFiles s) (abortController s) (signalAborted s) (disk s) (net s)
    (console s) (progress s).

Definition set_disk (d : Disk) (s : Service) : Service :=
  mkService (vectors s) (format s) (debugMode s) (isIndexing s)
    (currentProgress s) (totalFiles s) (abortController s) (signalAborted s)
    d (net s) (console s) (progress s).

Definition set_net (n : Net) (s : Service) : Service :=
  mkService (vectors s) (format s) (debugMode s) (isIndexing s)
    (currentProgress s) (totalFiles s) (abortController s) (signalAborted s)
    (disk s) n (console s) (progress s).

Definition log (e : LogEntry) (s : Service) : Service :=
  mkService (vectors s) (format s) (debugMode s) (isIndexing s)
    (currentProgress s) (totalFiles s) (abortController s) (signalAborted s)
    (disk s) (net s) (console s ++ [e]) (progress s).

(** [if (this.debugMode) console.log(...)] *)
Definition debug (e : LogEntry) (s : Service) : Service :=
  if debugMode s then log e s else s.

Definition set_session (running controller aborted : bool) (s : Service) : Service :=
  mkService (vectors s) (format s) (debugMode s) running (currentProgress s)
    (totalFiles s) controller aborted (disk s) (net s) (console s) (progress s).

Definition set_totalFiles (n : Z) (s : Service) : Service :=
  mkService (vectors s) (format s) (debugMode s) (isIndexing s)
    (currentProgress s) n (abortController s) (signalAborted s) (disk s)
    (net s) (console s) (progress s).

(** [this.currentProgress = processedCount] followed by the call of
    [onIndexingProgress(processedCount, files.length)]. *)
Definition report_progress (processed total : Z) (s : Service) : Service :=
  mkService (vectors s) (format s) (debugMode s) (isIndexing s) processed
    (totalFiles s) (abortController s) (signalAborted s) (disk s) (net s)
    (console s) (progress s ++ [(processed, total)]).

Definition len {A} (l : list A) : Z := Z.of_nat (length l).

Section Service.

(** [new TextEncoder().encode] and [new TextDecoder().decode], the UTF-8
    codec of the host. *)
Variable utf8_encode : string -> list Byte.byte.
Variable utf8_decode : list Byte.byte -> string.

(* ------------------------------------------------------------------ *)
(** ** Binary format: writing *)

(** [for (let i = 0; i < dimension; i++) { view.setFloat32(offset,
    v.embedding[i], true); offset += 4; }]: [fuel] is [dimension - i]; a
    missing component is [undefined], written as [NaN]. *)
Fixpoint writeEmbedding (fuel : nat) (i : Z) (e : list number)
    (buffer : list Byte.byte) (offset : Z) : option (list Byte.byte * Z) :=
  match fuel with
  | O => Some (buffer, offset)
  | S fuel' =>
      buffer ← setFloat32 buffer offset (default num_nan (array_get e i));
      writeEmbedding fuel' (i + 1) e buffer (offset + 4)
  end.

(** One iteration of the body loop of [saveVectorsBinary]. *)
Definition writeRecord (dimension : Z) (v : NoteVector) (pathBytes : list Byte.byte)
    (buffer : list Byte.byte) (offset : Z) : option (list Byte.byte * Z) :=
  buffer ← setUint32 buffer offset (len pathBytes);
  let offset := offset + 4 in
  buffer ← viewWrite buffer offset pathBytes;
  let offset := offset + len pathBytes in
  buffer ← setFloat64 buffer offset (mtime v);
  let offset := offset + 8 in
  writeEmbedding (Z.to_nat dimension) 0 (embedding v) buffer offset.

Fixpoint writeRecords (dimension : Z) (vectorData : list (NoteVector * list Byte.byte))
    (buffer : list Byte.byte) (offset : Z) : option (list Byte.byte * Z) :=
  match vectorData with
  | [] => Some (buffer, offset)
  | (v, pathBytes) :: rest =>
      '(buffer, offset) ← writeRecord dimension v pathBytes buffer offset;
      writeRecords dimension rest buffer offset
  end.

(** The size computed by the first pass of [saveVectorsBinary]. *)
Definition bufferSize (dimension : Z) (vectorData : list (NoteVector * list Byte.byte)) : Z :=
  foldl (fun size '(_, pathBytes) => size + (4 + len pathBytes + 8 + dimension * 4))
        (4 + 4 + 4) vectorData.

(** The buffer [saveVectorsBinary] hands to [writeBinary], for a store
    whose first record is [first]; [None] if some write is out of bounds. *)
Definition binaryImage (first : NoteVector) (vs : list NoteVector)
    : option (list Byte.byte) :=
  let dimension := len (embedding first) in
  let vectorData := (fun v => (v, utf8_encode (path v))) <$> vs in
  let size := bufferSize dimension vectorData in
  let buffer := replicate (Z.to_nat size) Byte.x00 in
  buffer ← setUint8 buffer 0 86;   (* 'V' *)
  buffer ← setUint8 buffer 1 69;   (* 'E' *)
  buffer ← setUint8 buffer 2 67;   (* 'C' *)
  buffer ← setUint8 buffer 3 49;   (* '1' *)
  buffer ← setUint32 buffer 4 (len vs);
  buffer ← setUint32 buffer 8 dimension;
  fst <$> writeRecords dimension vectorData buffer 12.

(** [saveVectorsBinary] *)
Definition saveVectorsBinary (s : Service) : Result unit * Service :=
  match vectors s with
  | [] => (Ok tt, s)
  | first :: _ =>
      match binaryImage first (vectors s) with
      | None => (Err RangeError, s)
      | Some buffer =>
          let s := set_disk (mkDisk (Some buffer) (jsonFile (disk s))) s in
          let s := log (LogSaved FormatBinary (len (vectors s))) s in
          match jsonFile (disk s) with
          | Some _ => (Ok tt, log LogRemovedLegacy
                                (set_disk (mkDisk (binaryFile (disk s)) None) s))
          | None => (Ok tt, s)
          end
      end
  end.

(** [saveVectorsJson].  The text [JSON.stringify] writes parses back to
    the array itself when every number in it is finite and not [-0]; it
    writes [-0] as [0], and [NaN] and the infinities as [null].  The file of
    a store with such numbers is not the [JsonVectors] given here: reading
    it back is outside of this model. *)
Definition saveVectorsJson (s : Service) : Result unit * Service :=
  let s := set_disk (mkDisk (binaryFile (disk s)) (Some (JsonVectors (vectors s)))) s in
  (Ok tt, log (LogSaved FormatJson (len (vectors s))) s).

(** [saveVectors]: the error of the format's writer is logged and thrown
    again. *)
Definition saveVectors (s : Service) : Result unit * Service :=
  let (r, s) := match format s with
                | FormatBinary => saveVectorsBinary s
                | FormatJson => saveVectorsJson s
                end in
  match r with
  | Ok _ => (r, s)
  | Err e => (r, log (ErrSaveFailed e) s)
  end.

(* ------------------------------------------------------------------ *)
(** ** Binary format: reading *)

(** [String.fromCharCode(...)] of byte values. *)
Definition fromCharCode (cs : list Z) : string :=
  string_of_list_ascii ((fun c => ascii_of_N (Z.to_N c)) <$> cs).

(** The inner loop: [dimension] floats into a [Float32Array]. *)
Fixpoint readEmbedding (fuel : nat) (buffer : list Byte.byte) (offset : Z)
    : option (list number * Z) :=
  match fuel with
  | O => Some ([], offset)
  | S fuel' =>
      x ← getFloat32 buffer offset;
      '(xs, offset) ← readEmbedding fuel' buffer (offset + 4);
      Some (fround x :: xs, offset)
  end.

(** The loop [for (let i = 0; i < numVectors; i++)], pushing onto
    [this.vectors]; [fuel] is [numVectors - i]. *)
Fixpoint readRecords (fuel : nat) (dimension : Z) (buffer : list Byte.byte)
    (offset : Z) (vs : list NoteVector) : option (list NoteVector * Z) :=
  match fuel with
  | O => Some (vs, offset)
  | S fuel' =>
      pathLen ← getUint32 buffer offset;
      let offset := offset + 4 in
      pathBytes ← viewBytes buffer offset pathLen;
      let p := utf8_decode pathBytes in
      let offset := offset + pathLen in
      m ← getFloat64 buffer offset;
      let offset := offset + 8 in
      '(e, offset) ← readEmbedding (Z.to_nat dimension) buffer offset;
      readRecords fuel' dimension buffer offset (vs ++ [mkNoteVector p e m])
  end.

Definition range_checked {A} (o : option A) : Result A :=
  match o with
  | Some a => Ok a
  | None => Err RangeError
  end.

(** The body of the [try] of [loadVectorsBinary], from the buffer on: the
    array after the pushes, or the exception. *)
Definition parseBinary (buffer : list Byte.byte) (vs : list NoteVector)
    : Result (list NoteVector) :=
  match getUint8 buffer 0, getUint8 buffer 1, getUint8 buffer 2, getUint8 buffer 3 with
  | Some c0, Some c1, Some c2, Some c3 =>
      let magic := fromCharCode [c0; c1; c2; c3] in
      if negb (String.eqb magic "VEC1") then Err InvalidFormat
      else
        range_checked (
          numVectors ← getUint32 buffer 4;
          dimension ← getUint32 buffer 8;
          fst <$> readRecords (Z.to_nat numVectors) dimension buffer 12 vs)
  | _, _, _, _ => Err RangeError
  end.

(** [loadVectorsBinary] *)
Definition loadVectorsBinary (s : Service) : Service :=
  let r := match binaryFile (disk s) with
           | Some buffer => parseBinary buffer (vectors s)
           | None => Err ReadError
           end in
  match r with
  | Ok vs => log (LogLoaded FormatBinary (len vs)) (set_vectors vs s)
  | Err e => set_vectors [] (log (ErrLoadFailed FormatBinary e) s)
  end.

(** [loadVectorsJson] *)
Definition loadVectorsJson (s : Service) : Service :=
  match jsonFile (disk s) with
  | Some (JsonVectors vs) => log (LogLoaded FormatJson (len vs)) (set_vectors vs s)
  | Some JsonCorrupt => set_vectors [] (log (ErrLoadFailed FormatJson ParseError) s)
  | None => set_vectors [] (log (ErrLoadFailed FormatJson ReadError) s)
  end.

(** [loadVectors] *)
Definition loadVectors (s : Service) : Service :=
  let s := set_vectors [] s in
  match format s with
  | FormatBinary =>
      match binaryFile (disk s), jsonFile (disk s) with
      | Some _, _ => loadVectorsBinary s
      | None, Some _ => loadVectorsJson s
      | None, None => s
      end
  | FormatJson =>
      match jsonFile (disk s) with
      | Some _ => loadVectorsJson s
      | None => s
      end
  end.

(** [clearIndex] *)
Definition clearIndex (s : Service) : Service :=
  log LogIndexCleared (set_disk (mkDisk None None) (set_vectors [] s)).

(* ------------------------------------------------------------------ *)
(** ** Indexing *)

(** [indexNote(file)] *)
Definition indexNote (provider : Provider) (file : TFile) (s : Service)
    : Result unit * Service :=
  let existingIndex := findIndex (has_path (file_path file)) (vectors s) in
  let existingVector := array_get (vectors s) existingIndex in
  if match existingVector with
     | Some v => num_strict_eq (mtime v) (file_mtime file)
     | None => false
     end
  then (Ok tt, s)
  else
    match file_content file with
    | None => (Err ReadError, s)
    | Some content =>
        let cleanedContent := preprocessContent content in
        let (r, n) := generateEmbedding provider cleanedContent
                        (Some (file_basename file)) (net s) in
        let s := set_net n s in
        match r with
        | Err e => (Err e, s)
        | Ok e =>
            (Ok tt, set_vectors (storeEmbedding existingIndex (file_path file) e
                                   (file_mtime file) (vectors s)) s)
        end
    end.

(** [cancelIndexing()] *)
Definition cancelIndexing (s : Service) : Service :=
  if abortController s then log LogCancelledByUser (set_session false false true s)
  else s.

(** The local variables of [indexAll]. *)
Record Locals := mkLocals {
  changed : bool;
  successCount : Z;
  errorCount : Z;
  failedFiles : list string;
  processedCount : Z
}.

(** One iteration of [for (const file of files)].  [pressStop k] tells
    whether the user has pressed Stop, that is whether [cancelIndexing()]
    has run, between the previous check of the signal and the check of
    iteration [k]. *)
Definition indexAll_iteration (provider : Provider) (pressStop : Z -> bool)
    (total : Z) (file : TFile) (st : Service * Locals)
    : Result unit * (Service * Locals) :=
  let '(s, l) := st in
  let l := mkLocals (changed l) (successCount l) (errorCount l) (failedFiles l)
             (processedCount l + 1) in
  let s := report_progress (processedCount l) total s in
  let s := if pressStop (processedCount l) then cancelIndexing s else s in
  if signalAborted s then (Err Cancelled, (s, l))
  else
    let existing := array_find (has_path (file_path file)) (vectors s) in
    if match existing with
       | None => true
       | Some v => negb (num_strict_eq (mtime v) (file_mtime file))
       end
    then
      let s := log (LogIndexing (file_path file)) s in
      (* try *)
      let (r, s) := indexNote provider file s in
      let '(r, s, l) :=
        match r with
        | Ok _ =>
            let l := mkLocals true (successCount l + 1) (errorCount l)
                       (failedFiles l) (processedCount l) in
            if successCount l mod 10 =? 0
            then let (r, s) := saveVectors s in (r, s, l)
            else (Ok tt, s, l)
        | Err e => (Err e, s, l)
        end in
      match r with
      | Ok _ => (Ok tt, (s, l))
      | Err e =>
          (* catch (error) *)
          let s := log (ErrIndexNoteFailed (file_path file) e) s in
          match file_content file with
          | None => (Err ReadError, (s, l))
          | Some content =>
              let s := log (LogSnippet (substring0 100 content)) s in
              (Ok tt, (s, mkLocals (changed l) (successCount l) (errorCount l + 1)
                            (failedFiles l ++ [file_path file]) (processedCount l)))
          end
      end
    else (Ok tt, (debug (LogSkipping (file_path file)) s, l)).

Fixpoint indexAll_loop (provider : Provider) (pressStop : Z -> bool) (total : Z)
    (files : list TFile) (st : Service * Locals)
    : Result unit * (Service * Locals) :=
  match files with
  | [] => (Ok tt, st)
  | file :: rest =>
      let (r, st) := indexAll_iteration provider pressStop total file st in
      match r with
      | Ok _ => indexAll_loop provider pressStop total rest st
      | Err e => (Err e, st)
      end
  end.

(** The rest of the [try] block, after the loop: the final save, the
    pruning and its save. *)
Definition indexAll_finish (files : list TFile) (st : Service * Locals)
    : Result unit * (Service * Locals) :=
  let '(s, l) := st in
  let (r, s) := if 0 <? successCount l then saveVectors s else (Ok tt, s) in
  match r with
  | Err e => (Err e, (s, l))
  | Ok _ =>
      let currentFilePaths : gset string := list_to_set (file_path <$> files) in
      let (vs, prunedCount) := prune currentFilePaths (vectors s) in
      let s := set_vectors vs s in
      let (r, s) := if 0 <? prunedCount
                    then saveVectors (log (LogPruned prunedCount) s)
                    else (Ok tt, s) in
      match r with
      | Err e => (Err e, (s, l))
      | Ok _ =>
          let s := debug (LogComplete (successCount l) (errorCount l) prunedCount) s in
          let s := if (0 <? len (failedFiles l)) && debugMode s
                   then log (LogFailedFiles (failedFiles l)) s else s in
          (Ok tt, (s, l))
      end
  end.

(** [indexAll(files)].  The result is what the promise settles to:
    [Ok tt] when it resolves, [Err e] when it rejects with [e]. *)
Definition indexAll (provider : Provider) (pressStop : Z -> bool)
    (files : list TFile) (s : Service) : Result unit * Service :=
  if isIndexing s then (Ok tt, log LogAlreadyInProgress s)
  else
    let s := set_session true true false s in
    let s := loadVectors s in
    let s := if pressStop 0 then cancelIndexing s else s in
    (* try *)
    let s := set_totalFiles (len files) s in
    let (r, st) := indexAll_loop provider pressStop (len files) files
                     (s, mkLocals false 0 0 [] 0) in
    let (r, st) := match r with
                   | Ok _ => indexAll_finish files st
                   | Err e => (Err e, st)
                   end in
    let '(s, l) := st in
    (* catch (error) *)
    let (r, s) :=
      match r with
      | Ok _ => (Ok tt, s)
      | Err Cancelled =>
          let s := debug LogCancelled s in
          if 0 <? successCount l then saveVectors (debug LogSavingPartial s)
          else (Ok tt, s)
      | Err e => (Ok tt, log (ErrIndexingFailed e) s)
      end in
    (* finally *)
    (r, set_session false false (signalAborted s) s).

End Service.

(* ================================================================== *)
(** * Similarity and ranking *)
(* ================================================================== *)

(** The loop of [cosineSimilarity]: the three sums, over the indices of
    [a]; a missing [b[i]] is [undefined], which is [NaN] in arithmetic. *)
Fixpoint cosine_sums (a b : list number) (acc : number * number * number)
    : number * number * number :=
  match a with
  | [] => acc
  | x :: a' =>
      let y := hd num_nan b in
      let '(dotProduct, normA, normB) := acc in
      cosine_sums a' (tl b)
        (num_add dotProduct (num_mul x y),
         num_add normA (num_mul x x),
         num_add normB (num_mul y y))
  end.

(** [cosineSimilarity(a, b)] *)
Definition cosineSimilarity (a b : list number) : number :=
  let '(dotProduct, normA, normB) := cosine_sums a b (num_zero, num_zero, num_zero) in
  num_div dotProduct (num_mul (num_sqrt normA) (num_sqrt normB)).

(** [Array.prototype.sort(comparator)].  For a comparator that orders the
    elements consistently the language fixes the result: the stable sort,
    which is what this insertion computes (an element goes behind another
    one only when the comparator, called on the two, is positive).  For a
    comparator that is not consistent, here: when a score is [NaN], so that
    the comparator answers [NaN], the language leaves the order to the
    engine; the order computed here is then one rearrangement among others,
    and of the engine's result only that it is a rearrangement is known. *)
Fixpoint sort_insert {A} (comparator : A -> A -> number) (x : A) (sorted : list A)
    : list A :=
  match sorted with
  | [] => [x]
  | y :: rest =>
      if num_is_pos (comparator x y) then y :: sort_insert comparator x rest
      else x :: y :: rest
  end.

Definition array_sort {A} (comparator : A -> A -> number) (l : list A) : list A :=
  foldr (sort_insert comparator) [] l.

(** The objects [{ path, score }] of the ranking. *)
Record Scored := mkScored {
  scored_path : string;
  score : number
}.

(** [(a, b) => b.score - a.score] *)
Definition by_score_desc (a b : Scored) : number := num_sub (score b) (score a).

(** The ranking both queries share:
    [.map(v => ({ path, score })).sort((a, b) => b.score - a.score).slice(0, topK)] *)
Definition topK (query : list number) (candidates : list NoteVector) (k : Z)
    : list Scored :=
  slice0 k
    (array_sort by_score_desc
       ((fun v => mkScored (path v) (cosineSimilarity query (embedding v)))
          <$> candidates)).

(** The last step of both queries: the paths that
    [vault.getAbstractFileByPath] resolves to a [TFile] are kept. *)
Definition resolve_files (vault : string -> option TFile) (scores : list Scored)
    : list (TFile * number) :=
  omap (fun s => (fun f => (f, score s)) <$> vault (scored_path s)) scores.

(** [findRelated(file, topK = 5)] *)
Definition findRelated (vault : string -> option TFile) (file : TFile) (k : Z)
    (vs : list NoteVector) : list (TFile * number) :=
  match array_find (has_path (file_path file)) vs with
  | None => []
  | Some targetVector =>
      resolve_files vault
        (topK (embedding targetVector)
           (filter (fun v => negb (has_path (file_path file) v)) vs) k)
  end.

(** [searchByText(query, topK = 10)].  Of the effects of
    [generateEmbedding] the traffic is threaded; what the client writes to
    the console is not recorded (see [Service]). *)
Definition searchByText (provider : Provider) (vault : string -> option TFile)
    (query : string) (k : Z) (s : Service)
    : Result (list (TFile * number)) * Service :=
  let (r, n) := generateEmbedding provider query None (net s) in
  let s := set_net n s in
  match r with
  | Err e => (Err e, s)
  | Ok e => (Ok (resolve_files vault (topK e (vectors s) k)), s)
  end.

(** ** Plain-text codec for examples

    On strings of characters below 128 the UTF-8 codec of the host is the
    identity on character codes. *)
Definition ascii_encode (s : string) : list Byte.byte := list_byte_of_string s.
Definition ascii_decode (bs : list Byte.byte) : string := string_of_list_byte bs.

(** ** Values used in examples *)

Definition num_one : number := num_of_Z 1.
Definition num_two : number := num_of_Z 2.
Definition num_half : number := num_div num_one num_two.
Definition num_tenth : number := num_div num_one (num_of_Z 10).

(** [c.repeat(n)] *)
Definition string_repeat (n : Z) (c : ascii) : string :=
  string_of_list_ascii (replicate (Z.to_nat n) c).

(** A provider that answers the first request with a context-length error
    and every later one with an embedding. *)
Definition contextLengthProvider : Provider :=
  fun n _ =>
    match n with
    | O => Returns (mkResponse 500 "input length exceeds the context length" JsonNoEmbedding)
    | _ => Returns (mkResponse 200 "" (JsonEmbedding [num_one; num_half]))
    end.

(** A provider whose first answer is a 200 response without an embedding
    and which would answer every later request with an embedding. *)
Definition malformedFirstProvider : Provider :=
  fun n _ =>
    match n with
    | O => Returns (mkResponse 200 "" JsonNoEmbedding)
    | _ => Returns (mkResponse 200 "" (JsonEmbedding [num_one; num_half]))
    end.

(** A provider that answers the full text with a context-length error, the
    Safe Mode request with a 200 response without an embedding, and the
    Title Only request with an embedding. *)
Definition malformedSafeProvider : Provider :=
  fun n _ =>
    match n with
    | 0%nat => Returns (mkResponse 500 "context_length_exceeded" JsonNoEmbedding)
    | 1%nat => Returns (mkResponse 200 "" JsonEmbeddingNotArray)
    | _ => Returns (mkResponse 200 "" (JsonEmbedding [num_two]))
    end.

(** A provider that answers every request with the same embedding. *)
Definition constantProvider : Provider :=
  fun _ _ => Returns (mkResponse 200 "" (JsonEmbedding [num_one; num_half])).

(** A service that has just been constructed, on an empty vault folder. *)
Definition newService (f : Format) : Service :=
  mkService [] f false false 0 0 false false (mkDisk None None) net0 [] [].

(** The note number [i]: its path is [i + 1] letters long. *)
Definition note (i : nat) : TFile :=
  mkTFile (string_repeat (Z.of_nat i + 1) "n") "title" (num_of_Z 1700000000000)
          (Some "Some <b>text</b>").

(** The documents of the cancellation scenario. *)
Definition hundredNotes : list TFile := note <$> seq 0 100.

(** The user presses Stop while document 12 is being indexed: the check of
    iteration 13 is the first to see it. *)
Definition stopAfterTwelve : Z -> bool := fun k => k =? 13.

Definition neverStop : Z -> bool := fun _ => false.

(** [+0] or [-0]. *)
Definition is_zero (x : number) : bool :=
  match x with S754_zero _ => true | _ => false end.

(** A zero or [NaN]. *)
Definition zero_or_nan (x : number) : bool :=
  match x with S754_zero _ | S754_nan => true | _ => false end.

(* ================================================================== *)
(** * The binary file format, as the specification lays it out *)
(* ================================================================== *)

(** [magic:4 bytes "VEC1" | recordCount:uint32 | dimension:uint32 |
    recordCount x { pathByteLength:uint32, pathBytes, modifiedAt:float64,
    embedding: dimension x float32 }], all little-endian. *)

Definition magicBytes : list Byte.byte :=
  [byte_of_Z 86; byte_of_Z 69; byte_of_Z 67; byte_of_Z 49].

Definition float32Bytes (x : number) : list Byte.byte :=
  le_bytes 4 (bits_of_float 23 8 (round32 x)).

Definition float64Bytes (x : number) : list Byte.byte :=
  le_bytes 8 (bits_of_float 52 11 x).

(** The components [i], [i + 1], ... of an embedding, [fuel] of them. *)
Fixpoint embeddingBytes (fuel : nat) (i : Z) (e : list number) : list Byte.byte :=
  match fuel with
  | O => []
  | S fuel' =>
      float32Bytes (default num_nan (array_get e i)) ++ embeddingBytes fuel' (i + 1) e
  end.

Definition recordBytes (dimension : Z) (v : NoteVector) (pathBytes : list Byte.byte)
    : list Byte.byte :=
  le_bytes 4 (len pathBytes) ++ pathBytes ++ float64Bytes (mtime v)
  ++ embeddingBytes (Z.to_nat dimension) 0 (embedding v).

Definition recordsBytes (dimension : Z) (vectorData : list (NoteVector * list Byte.byte))
    : list Byte.byte :=
  concat ((fun '(v, pathBytes) => recordBytes dimension v pathBytes) <$> vectorData).

Definition imageBytes (utf8_encode : string -> list Byte.byte) (dimension : Z)
    (vs : list NoteVector) : list Byte.byte :=
  magicBytes ++ le_bytes 4 (len vs) ++ le_bytes 4 dimension
  ++ recordsBytes dimension ((fun v => (v, utf8_encode (path v))) <$> vs).

(** [e[i]], [e[i + 1]], ... as the writer reads them, [fuel] of them:
    [undefined], hence [NaN], beyond the end of [e]. *)
Fixpoint componentsFrom (fuel : nat) (i : Z) (e : list number) : list number :=
  match fuel with
  | O => []
  | S fuel' => default num_nan (array_get e i) :: componentsFrom fuel' (i + 1) e
  end.

(** What the reader makes of the bytes of one record. *)
Definition decoded (utf8_decode : list Byte.byte -> string) (dimension : Z)
    (vp : NoteVector * list Byte.byte) : NoteVector :=
  mkNoteVector (utf8_decode vp.2)
               ((fun x => fround (fround x))
                  <$> componentsFrom (Z.to_nat dimension) 0 (embedding vp.1))
               (float_of_bits 52 11 (le_value (float64Bytes (mtime vp.1)))).

(** What a record becomes on its way through the file: the path through
    the UTF-8 codec, the components through a 32-bit cell, twice. *)
Definition reloaded (utf8_encode : string -> list Byte.byte)
    (utf8_decode : list Byte.byte -> string) (v : NoteVector) : NoteVector :=
  mkNoteVector (utf8_decode (utf8_encode (path v)))
               ((fun x => fround (fround x)) <$> embedding v)
               (mtime v).

(** The sizes the format has 32 bits for: the number of records, the
    dimension, and the length of every encoded path. *)
Definition fits_uint32 (utf8_encode : string -> list Byte.byte) (dimension : Z)
    (vs : list NoteVector) : Prop :=
  len vs < 2 ^ 32 /\ 0 <= dimension < 2 ^ 32
  /\ Forall (fun v => len (utf8_encode (path v)) < 2 ^ 32) vs.

(** A file cut short: a proper prefix of the image of a non-empty store. *)
Definition truncated_image (utf8_encode : string -> list Byte.byte)
    (buffer : list Byte.byte) : Prop :=
  exists first rest extra,
    extra <> []
    /\ fits_uint32 utf8_encode (len (embedding first)) (first :: rest)
    /\ binaryImage utf8_encode first (first :: rest) = Some (buffer ++ extra).

(** A store the binary format can hold faithfully: one dimension for all
    embeddings, every component a 32-bit float, every modification time a
    binary64 value, every path unchanged by the UTF-8 codec, and sizes that
    fit the 32-bit fields. *)
Definition storable (utf8_encode : string -> list Byte.byte)
    (utf8_decode : list Byte.byte -> string) (dimension : Z)
    (vs : list NoteVector) : Prop :=
  fits_uint32 utf8_encode dimension vs
  /\ Forall (fun v => len (embedding v) = dimension
                      /\ forallb is_float32 (embedding v) = true
                      /\ valid64 (mtime v) = true
                      /\ utf8_decode (utf8_encode (path v)) = path v) vs.

(** ** A store, and a vault folder left behind by an earlier session *)

Definition noteA : NoteVector :=
  mkNoteVector "a.md" [num_one; num_half] (num_of_Z 1700000000000).

Definition noteB : NoteVector :=
  mkNoteVector "notes/b.md" [num_half; num_two] (num_of_Z 1700000000001).

(** The service after [noteA] and [noteB] have been saved in binary
    format. *)
Definition savedService : Service :=
  (saveVectors ascii_encode
     (set_vectors [noteA; noteB] (newService FormatBinary))).2.

(** The same vault folder, the in-memory store emptied (every note pruned
    or the index rebuilt from nothing). *)
Definition emptiedService : Service := set_vectors [] savedService.

(** A file that does not start with the magic bytes. *)
Definition foreignFile : list Byte.byte :=
  list_byte_of_string "VEC2 and whatever follows".

(** A vault folder whose [vectors.bin] is [foreignFile]. *)
Definition foreignService : Service :=
  set_disk (mkDisk (Some foreignFile) None)
           (set_vectors [noteA] (newService FormatBinary)).

(* ================================================================== *)
(** * The order of scores *)
(* ================================================================== *)

(** A number other than [NaN]. *)
Definition is_number (x : number) : bool := valid64 x && negb (is_nan x).

(** A bound beyond the key of every finite number. *)
Definition key_infinity : Z := 2 ^ 2100.

(** An integer that orders the numbers as [<] does: a finite value is
    scaled by [2 ^ 1074], the weight of the last bit of the smallest
    numbers; the infinities lie beyond every finite value. *)
Definition float_key (x : number) : Z :=
  match x with
  | S754_zero _ => 0
  | S754_infinity s => cond_Zopp s key_infinity
  | S754_nan => 0
  | S754_finite s m e => cond_Zopp s (Z.pos m * 2 ^ (e + 1074))
  end.

(** A finite number or an infinity of sign [s]: neither a zero nor [NaN]. *)
Definition signed_nonzero (s : bool) (x : number) : Prop :=
  match x with
  | S754_finite s' _ _ | S754_infinity s' => s' = s
  | _ => False
  end.

(** The pairs [{ path, score }] before they are sorted. *)
Definition scoreAll (query : list number) (candidates : list NoteVector) : list Scored :=
  (fun v => mkScored (path v) (cosineSimilarity query (embedding v))) <$> candidates.

(** A ranking with a zero vector among the candidates. *)
Definition zeroNote : NoteVector :=
  mkNoteVector "empty.md" [num_zero; num_zero] (num_of_Z 1700000000002).

Definition exactNote : NoteVector :=
  mkNoteVector "exact.md" [num_one; num_zero] (num_of_Z 1700000000003).

(* ================================================================== *)
(** * Further examples *)
(* ================================================================== *)

(** A record whose first component, one tenth, is not a 32-bit float. *)
Definition noteC : NoteVector :=
  mkNoteVector "c.md" [num_tenth; num_two] (num_of_Z 1700000000004).

(** A vault folder that holds the legacy file only. *)
Definition legacyService : Service :=
  set_disk (mkDisk None (Some (JsonVectors [noteA; noteB])))
           (newService FormatBinary).

(** [savedService] with three more bytes at the end of [vectors.bin]. *)
Definition paddedService : Service :=
  set_disk (mkDisk (option_map (fun b => b ++ [Byte.x01; Byte.x02; Byte.x03])
                      (binaryFile (disk savedService)))
                   None)
           savedService.

(** The pause before the retry that follows attempt number [attempt]:
    [Math.pow(2, attempt) * 1000]. *)
Definition backoff (attempt : nat) : Z := 2 ^ Z.of_nat attempt * 1000.

(** A provider that cannot be reached. *)
Definition unreachableProvider : Provider := fun _ _ => Throws "ECONNREFUSED".

(** A provider that drops every connection. *)
Definition droppingProvider : Provider :=
  fun _ _ => Returns (mkResponse 500 "unexpected EOF" JsonThrows).

(* ================================================================== *)
(** * The side panel ([view.ts]) *)
(* ================================================================== *)

(** The loop of [RelatedNotesView.update] that renders the results: the
    items an entry of the list is made for.  [seenPaths] is the set of the
    same name. *)
Fixpoint renderedItems (seenPaths : gset string) (related : list (TFile * number))
    : list (TFile * number) :=
  match related with
  | [] => []
  | item :: rest =>
      if decide (file_path item.1 ∈ seenPaths) then renderedItems seenPaths rest
      else item :: renderedItems ({[ file_path item.1 ]} ∪ seenPaths) rest
  end.

(** The data flow of [RelatedNotesView.update] for an active file: the
    note is indexed first; an exception there is shown as the error; and
    otherwise the related notes are looked up and rendered. *)
Definition view_update (provider : Provider) (vault : string -> option TFile)
    (activeFile : TFile) (maxRelatedNotes : Z) (s : Service)
    : Result (list (TFile * number)) * Service :=
  let (r, s) := indexNote provider activeFile s in
  match r with
  | Err e => (Err e, s)
  | Ok _ =>
      let related := findRelated vault activeFile maxRelatedNotes (vectors s) in
      (Ok (renderedItems ∅ related), s)
  end.

(** A vault whose files are [files]: [getAbstractFileByPath]. *)
Definition vault_of (files : list TFile) (p : string) : option TFile :=
  array_find (fun f => String.eqb (file_path f) p) files.

(* ================================================================== *)
(** * Normal form of cleaned text *)
(* ================================================================== *)

(** Every white-space character of [s] is a plain space, and no two of
    them are adjacent; [afterSpace] tells that a space precedes [s]. *)
Fixpoint single_spaced (afterSpace : bool) (s : string) : bool :=
  match s with
  | EmptyString => true
  | String c s' =>
      if is_space c then Ascii.eqb c " " && negb afterSpace && single_spaced true s'
      else single_spaced false s'
  end.

(** The same, and [s] does not end with a space. *)
Fixpoint words_from (afterSpace : bool) (s : string) : bool :=
  match s with
  | EmptyString => negb afterSpace
  | String c s' =>
      if is_space c then Ascii.eqb c " " && negb afterSpace && words_from true s'
      else words_from false s'
  end.

(** Words separated by single spaces: empty, or no white space other than
    single spaces between two other characters. *)
Definition normalized (s : string) : bool :=
  match s with
  | EmptyString => true
  | _ => words_from true s
  end.

(* ================================================================== *)
(** * The settings tab ([main.ts]) *)
(* ================================================================== *)

(** The statistics of the settings tab: [totalFiles], [indexedFiles] and
    [missingFiles], from the Markdown files of the vault and the store. *)
Definition indexStats (markdownFiles : list TFile) (vectors : list NoteVector)
    : Z * Z * Z :=
  let totalFiles := len markdownFiles in
  let currentFilePaths : gset string := list_to_set (file_path <$> markdownFiles) in
  let indexedFiles := len (filter (fun v => path v ∈ currentFilePaths) vectors) in
  let missingFiles := totalFiles - indexedFiles in
  (totalFiles, indexedFiles, missingFiles).

(* ================================================================== *)
(** * The conditions of the retry loop *)
(* ================================================================== *)

(** [isContextLength] *)
Definition isContextLength (errorText : string) : bool :=
  includes errorText "context length" || includes errorText "context_length".

(** Attempt number [attempt] is followed by another attempt (the two
    [continue] of the loop): the request threw, or was answered with a
    status other than 200 and a text that names "EOF" or "connection" and no
    context length; and [attempt < retries]. *)
Definition is_retried (retries attempt : nat) (o : Outcome) : bool :=
  match o with
  | Throws _ => (attempt <? retries)%nat
  | Returns response =>
      negb (status response =? 200)
      && (includes (text response) "EOF" || includes (text response) "connection"
          || isContextLength (text response))
      && ((attempt <? retries)%nat && negb (isContextLength (text response)))
  end.

(** The response of attempt number [attempt] starts Safe Mode: its status
    is not 200, its text names "EOF", "connection" or a context length, and
    either this was the last attempt or it is a context-length error. *)
Definition enters_safe_mode (retries attempt : nat) (response : Response) : bool :=
  negb (status response =? 200)
  && (includes (text response) "EOF" || includes (text response) "connection"
      || isContextLength (text response))
  && negb ((attempt <? retries)%nat && negb (isContextLength (text response))).

(** A provider that drops the first connection and answers the second
    request with a 200 response without an embedding. *)
Definition malformedRetryProvider : Provider :=
  fun i _ =>
    match i with
    | O => Returns (mkResponse 500 "unexpected EOF" JsonThrows)
    | _ => Returns (mkResponse 200 "" JsonNoEmbedding)
    end.

(** A provider that drops the first two connections, answers the third
    request with a 200 response whose [embedding] is not an array, and the
    following ones with an embedding. *)
Definition malformedSafeAfterRetriesProvider : Provider :=
  fun i _ =>
    match i with
    | 0%nat | 1%nat => Returns (mkResponse 500 "unexpected EOF" JsonThrows)
    | 2%nat => Returns (mkResponse 200 "" JsonEmbeddingNotArray)
    | _ => Returns (mkResponse 200 "" (JsonEmbedding [num_two]))
    end.

(* ================================================================== *)
(** * A file the reader accepts *)
(* ================================================================== *)

(** The file of [savedService], its record count changed from 2 to 1. *)
Definition patchedFile : list Byte.byte :=
  <[4%nat := Byte.x01]> (imageBytes ascii_encode 2 [noteA; noteB]).

(** A vault folder whose [vectors.bin] is [patchedFile]. *)
Definition patchedService : Service :=
  set_disk (mkDisk (Some patchedFile) None) (newService FormatBinary).

(* ================================================================== *)
(** * Arrays: basic facts *)
(* ================================================================== *)

Lemma findIndex_range {A} (p : A -> bool) (l : list A) :
  findIndex p l = -1 \/ 0 <= findIndex p l < Z.of_nat (length l).
Proof.
  induction l as [|x l IH]; simpl; [by left|].
  destruct (p x); [right; lia|].
  destruct (Z.ltb_spec (findIndex p l) 0); [by left|right; lia].
Qed.

Lemma findIndex_lt_length {A} (p : A -> bool) (l : list A) :
  0 <= findIndex p l -> (Z.to_nat (findIndex p l) < length l)%nat.
Proof. destruct (findIndex_range p l); lia. Qed.

Lemma findIndex_none {A} (p : A -> bool) (l : list A) :
  findIndex p l < 0 <-> Forall (fun x => p x = false) l.
Proof.
  induction l as [|x l IH]; simpl.
  - split; [constructor|lia].
  - destruct (p x) eqn:Hp.
    + split; [lia|]. intros H. apply Forall_cons in H as [H _]. congruence.
    + destruct (Z.ltb_spec (findIndex p l) 0) as [Hlt|Hge].
      * split; [|lia]. intros _. constructor; [done|]. by apply IH.
      * split; [lia|]. intros H. apply Forall_cons in H as [_ H].
        apply IH in H. lia.
Qed.

Lemma findIndex_some {A} (p : A -> bool) (l : list A) :
  0 <= findIndex p l ->
  exists x, l !! Z.to_nat (findIndex p l) = Some x /\ p x = true
            /\ Forall (fun y => p y = false) (take (Z.to_nat (findIndex p l)) l).
Proof.
  induction l as [|x l IH]; simpl; [lia|].
  destruct (p x) eqn:Hp.
  - intros _. exists x. simpl. by repeat split.
  - destruct (Z.ltb_spec (findIndex p l) 0) as [Hlt|Hge]; [lia|].
    intros _. destruct (IH Hge) as (y & Hy & Hpy & Hbefore).
    exists y. replace (Z.to_nat (findIndex p l + 1)) with (S (Z.to_nat (findIndex p l))) by lia.
    simpl. repeat split; [done..|]. by constructor.
Qed.

(* ================================================================== *)
(** * The store: upsert and prune *)
(* ================================================================== *)

Lemma has_path_true p v : has_path p v = true <-> path v = p.
Proof. unfold has_path. apply String.eqb_eq. Qed.

Lemma has_path_false p v : has_path p v = false <-> path v <> p.
Proof. unfold has_path. apply String.eqb_neq. Qed.

Lemma findIndex_has_path_absent p (vs : list NoteVector) :
  findIndex (has_path p) vs < 0 <-> p ∉ path <$> vs.
Proof.
  rewrite findIndex_none, Forall_forall. split.
  - intros H Hin. apply list_elem_of_fmap in Hin as (v & -> & Hv).
    apply H in Hv. by apply has_path_false in Hv.
  - intros H v Hv. apply has_path_false. intros <-. apply H.
    apply list_elem_of_fmap. eauto.
Qed.

(** When the path is present, [upsert] overwrites its first record in
    place: the sequence of paths does not change. *)
Lemma upsert_present p e m (vs : list NoteVector) :
  p ∈ path <$> vs ->
  exists i old, vs !! i = Some old /\ path old = p
    /\ upsert p e m vs = <[i := mkNoteVector p e m]> vs
    /\ path <$> upsert p e m vs = path <$> vs.
Proof.
  intros Hin.
  assert (Hge : 0 <= findIndex (has_path p) vs).
  { destruct (Z.lt_ge_cases (findIndex (has_path p) vs) 0) as [Hlt|]; [|done].
    by apply findIndex_has_path_absent in Hlt. }
  destruct (findIndex_some _ _ Hge) as (old & Hold & Hp & _).
  apply has_path_true in Hp.
  exists (Z.to_nat (findIndex (has_path p) vs)), old.
  assert (Hup : upsert p e m vs
                = <[Z.to_nat (findIndex (has_path p) vs) := mkNoteVector p e m]> vs).
  { unfold upsert, storeEmbedding, array_set.
    destruct (Z.leb_spec 0 (findIndex (has_path p) vs)); [done|lia]. }
  repeat split; [done..|].
  rewrite Hup, list_fmap_insert. simpl. apply list_insert_id.
  by rewrite list_lookup_fmap, Hold; simpl; rewrite Hp.
Qed.

(** When the path is absent, [upsert] appends. *)
Lemma upsert_absent p e m (vs : list NoteVector) :
  p ∉ path <$> vs -> upsert p e m vs = vs ++ [mkNoteVector p e m].
Proof.
  intros Hnin. apply findIndex_has_path_absent in Hnin.
  unfold upsert, storeEmbedding.
  destruct (Z.leb_spec 0 (findIndex (has_path p) vs)); [lia|done].
Qed.

(** The second lookup of [indexNote]: a call that saw no record for the
    path when it started behaves, at the time it stores, like an upsert on
    the array as it is then. *)
Lemma storeEmbedding_double_check p e m (vs : list NoteVector) :
  storeEmbedding (-1) p e m vs = upsert p e m vs.
Proof.
  unfold upsert, storeEmbedding. simpl.
  destruct (Z.leb_spec 0 (findIndex (has_path p) vs)); done.
Qed.

Lemma upsert_paths p e m (vs : list NoteVector) :
  path <$> upsert p e m vs
  = if decide (p ∈ path <$> vs) then path <$> vs else (path <$> vs) ++ [p].
Proof.
  destruct (decide _) as [Hin|Hnin].
  - by destruct (upsert_present p e m vs Hin) as (? & ? & _ & _ & _ & ->).
  - by rewrite (upsert_absent _ _ _ _ Hnin), fmap_app.
Qed.

Lemma upsert_NoDup p e m (vs : list NoteVector) :
  NoDup (path <$> vs) -> NoDup (path <$> upsert p e m vs).
Proof.
  intros Hnd. rewrite upsert_paths. destruct (decide _); [done|].
  apply NoDup_app. repeat split; [done| |apply NoDup_singleton].
  intros x Hx Hx'. apply list_elem_of_singleton in Hx'. by subst.
Qed.

Lemma upsert_elem_of_paths p e m (vs : list NoteVector) q :
  q ∈ path <$> upsert p e m vs <-> q ∈ path <$> vs \/ q = p.
Proof.
  rewrite upsert_paths. destruct (decide _) as [Hin|Hnin].
  - split; [by left|]. intros [?| ->]; done.
  - rewrite elem_of_app, list_elem_of_singleton. done.
Qed.

(** After an upsert the record of the path is the one just written. *)
Lemma upsert_elem_of_new p e m (vs : list NoteVector) :
  mkNoteVector p e m ∈ upsert p e m vs.
Proof.
  destruct (decide (p ∈ path <$> vs)) as [Hin|Hnin].
  - destruct (upsert_present p e m vs Hin) as (i & old & Hi & _ & -> & _).
    apply list_elem_of_lookup. exists i.
    apply list_lookup_insert_eq. by eapply lookup_lt_Some.
  - rewrite (upsert_absent _ _ _ _ Hnin). apply elem_of_app. right.
    by apply list_elem_of_singleton.
Qed.

(** Records of other paths are neither changed nor moved. *)
Lemma upsert_lookup_other p e m (vs : list NoteVector) i r :
  vs !! i = Some r -> path r <> p -> upsert p e m vs !! i = Some r.
Proof.
  intros Hi Hne. destruct (decide (p ∈ path <$> vs)) as [Hin|Hnin].
  - destruct (upsert_present p e m vs Hin) as (j & old & Hj & Hold & -> & _).
    rewrite list_lookup_insert_ne; [done|]. intros <-. congruence.
  - rewrite (upsert_absent _ _ _ _ Hnin). by apply lookup_app_l_Some.
Qed.

Lemma NoDup_fmap_count {A B} `{EqDecision B} (f : A -> B) (l : list A) x :
  NoDup (f <$> l) -> x ∈ l -> length (filter (fun y => f y = f x) l) = 1%nat.
Proof.
  induction l as [|y l IH]; intros Hnd Hin; [by apply elem_of_nil in Hin|].
  rewrite fmap_cons in Hnd. apply NoDup_cons in Hnd as [Hy Hnd].
  rewrite filter_cons. apply elem_of_cons in Hin as [->|Hin].
  - rewrite decide_True by done. simpl. f_equal.
    destruct (filter _ l) as [|z l'] eqn:Hf; [done|exfalso].
    assert (Hz : z ∈ filter (fun y0 => f y0 = f y) l) by (rewrite Hf; left).
    apply list_elem_of_filter in Hz as [Heq Hz]. apply Hy. rewrite <- Heq.
    apply list_elem_of_fmap. eauto.
  - rewrite decide_False; [by apply IH|].
    intros Heq. apply Hy. rewrite Heq. apply list_elem_of_fmap. eauto.
Qed.

Lemma upsert_all_snoc ops p e m (vs : list NoteVector) :
  upsert_all (ops ++ [(p, e, m)]) vs = upsert p e m (upsert_all ops vs).
Proof. unfold upsert_all. by rewrite foldl_app. Qed.

Lemma upsert_all_NoDup ops (vs : list NoteVector) :
  NoDup (path <$> vs) -> NoDup (path <$> upsert_all ops vs).
Proof.
  revert vs. induction ops as [|[[p e] m] ops IH]; intros vs Hnd; [done|].
  simpl. apply IH. by apply upsert_NoDup.
Qed.

Lemma upsert_all_paths ops (vs : list NoteVector) q :
  q ∈ path <$> upsert_all ops vs <-> q ∈ path <$> vs \/ q ∈ ops.*1.*1.
Proof.
  revert vs. induction ops as [|[[p e] m] ops IH]; intros vs; simpl.
  - split; [by left|]. intros [?|H]; [done|]. by apply elem_of_nil in H.
  - change (foldl _ _ ops) with (upsert_all ops (upsert p e m vs)).
    rewrite IH, upsert_elem_of_paths, elem_of_cons. tauto.
Qed.

(** C6.  After any finite sequence of upserts on a store that has one
    record per path (the empty store for one), the store has exactly one
    record for every path in it: the paths are pairwise distinct, they are
    the paths present before together with the paths upserted, and every
    record is the only one of its path.  Each single upsert replaces the
    record of its path in place when there is one and appends otherwise. *)
Theorem upsert_one_record_per_path
    (ops : list (string * list number * number)) (vs : list NoteVector) :
  NoDup (path <$> vs) ->
  NoDup (path <$> upsert_all ops vs)
  /\ (forall q, q ∈ path <$> upsert_all ops vs <-> q ∈ path <$> vs \/ q ∈ ops.*1.*1)
  /\ (forall r, r ∈ upsert_all ops vs ->
        length (filter (fun v => path v = path r) (upsert_all ops vs)) = 1%nat)
  /\ (forall p e m (vs0 : list NoteVector),
        (p ∈ path <$> vs0 ->
           exists i old, vs0 !! i = Some old /\ path old = p
             /\ upsert p e m vs0 = <[i := mkNoteVector p e m]> vs0)
        /\ (p ∉ path <$> vs0 -> upsert p e m vs0 = vs0 ++ [mkNoteVector p e m])).
Proof.
  intros Hnd. pose proof (upsert_all_NoDup ops vs Hnd) as Hnd'.
  split; [done|]. split; [apply upsert_all_paths|]. split.
  - intros r Hr. by apply NoDup_fmap_count.
  - intros p e m vs0. split.
    + intros Hin. destruct (upsert_present p e m vs0 Hin) as (i & old & ? & ? & ? & _).
      by exists i, old.
    + apply upsert_absent.
Qed.

(** Pruning keeps a record exactly when its path is live. *)
Lemma prune_elem_of live (vs : list NoteVector) r :
  r ∈ (prune live vs).1 <-> r ∈ vs /\ path r ∈ live.
Proof. unfold prune. simpl. rewrite list_elem_of_filter. tauto. Qed.

Lemma length_filter_complement {A} (P : A -> Prop) `{forall x, Decision (P x)}
    (l : list A) :
  (length (filter P l) + length (filter (fun x => ~ P x) l) = length l)%nat.
Proof.
  induction l as [|x l IH]; [done|].
  rewrite !filter_cons. destruct (decide (P x)).
  - rewrite decide_False by tauto. simpl. lia.
  - rewrite decide_True by done. simpl. lia.
Qed.

(** C8.  [prune] removes exactly the records whose path is not live: a
    record is in the pruned store if and only if it was in the store with a
    live path; the kept records are the very same records (path, embedding
    and modification time) in the same order; nothing with a live path is
    dropped; and the count returned is the number of records removed. *)
Theorem prune_removes_exactly_dead_paths
    (live : gset string) (vs : list NoteVector) :
  (forall r, r ∈ (prune live vs).1 <-> r ∈ vs /\ path r ∈ live)
  /\ (prune live vs).1 `sublist_of` vs
  /\ (prune live vs).1 = filter (fun v => path v ∈ live) vs
  /\ (Forall (fun v => path v ∈ live) vs -> (prune live vs).1 = vs)
  /\ (prune live vs).2
     = Z.of_nat (length (filter (fun v => path v ∉ live) vs)).
Proof.
  split; [intros r; apply prune_elem_of|].
  split; [apply sublist_filter|]. split; [done|]. split.
  - intros Hall. unfold prune; simpl.
    induction Hall as [|v l Hv Hall IH]; [done|].
    rewrite filter_cons, decide_True by done. by f_equal.
  - unfold prune; simpl.
    pose proof (length_filter_complement (fun v => path v ∈ live) vs). lia.
Qed.

(** Three upserts, two of them on the same path, on a store of one record. *)
Lemma upsert_one_record_per_path_witness :
  NoDup (path <$> upsert_all [("a.md"%string, [num_one], num_one);
                              ("b.md"%string, [num_two], num_one);
                              ("a.md"%string, [num_half], num_two)]
                             [mkNoteVector "b.md" [] num_zero]).
Proof.
  apply (upsert_one_record_per_path
           [("a.md"%string, [num_one], num_one);
            ("b.md"%string, [num_two], num_one);
            ("a.md"%string, [num_half], num_two)]
           [mkNoteVector "b.md" [] num_zero]).
  simpl. apply NoDup_singleton.
Defined.

(* ================================================================== *)
(** * The embedding client: fallback chain *)
(* ================================================================== *)

Lemma requestUrl_sent provider prompt n :
  requestUrl provider prompt n
  = (provider (length (sent n)) prompt, mkNet (sent n ++ [prompt]) (delays n)).
Proof. reflexivity. Qed.

(** One full-text request that is answered with a status other than 200 and
    an error text that names the context length: Safe Mode is entered at
    once, whatever the attempt number. *)
Lemma attemptLoop_context_length provider sanitizedText title retries fuel attempt n r :
  provider (length (sent n)) (truncatedText sanitizedText) = Returns r ->
  status r <> 200 ->
  includes (text r) "context length" || includes (text r) "context_length" = true ->
  attemptLoop provider sanitizedText title retries (S fuel) attempt n
  = fallbackChain provider sanitizedText title r
      (mkNet (sent n ++ [truncatedText sanitizedText]) (delays n)).
Proof.
  intros Hp Hs Hc. cbn [attemptLoop]. rewrite requestUrl_sent, Hp.
  destruct (Z.eqb_spec (status r) 200) as [|_]; [done|]. cbn [negb].
  rewrite Hc, orb_true_r. cbn [negb]. by rewrite andb_false_r.
Qed.

(** Safe Mode answered by a 200 response that carries an array. *)
Lemma fallbackChain_safe_ok provider sanitizedText title r n r2 e :
  provider (length (sent n)) (safeText sanitizedText) = Returns r2 ->
  status r2 = 200 -> json r2 = JsonEmbedding e ->
  fallbackChain provider sanitizedText title r n
  = (Ok e, mkNet (sent n ++ [safeText sanitizedText]) (delays n)).
Proof.
  intros Hp Hs Hj. unfold fallbackChain. rewrite requestUrl_sent, Hp.
  unfold fallback_embedding. by rewrite Hs, Hj.
Qed.

(** C4.  When the first full-text request is answered by a context-length
    error and the Safe Mode request by a well-formed success,
    [generateEmbedding] returns the Safe Mode embedding after exactly two
    requests, the full text and then the reduced text, with no delay in
    between: no full-text retry and no Title Only request, whatever the
    title and the retry ceiling. *)
Theorem context_length_goes_straight_to_safe_mode
    (provider : Provider) (text0 : string) (title : option string)
    (retries : nat) (n : Net) (r1 r2 : Response) (e : list number) :
  provider (length (sent n)) (truncatedText (sanitizeText text0)) = Returns r1 ->
  status r1 <> 200 ->
  includes (text r1) "context length" || includes (text r1) "context_length" = true ->
  provider (S (length (sent n))) (safeText (sanitizeText text0)) = Returns r2 ->
  status r2 = 200 ->
  json r2 = JsonEmbedding e ->
  generateEmbedding_with provider retries text0 title n
  = (Ok e, mkNet (sent n ++ [truncatedText (sanitizeText text0);
                             safeText (sanitizeText text0)]) (delays n)).
Proof.
  intros Hp1 Hs1 Hc Hp2 Hs2 Hj. unfold generateEmbedding_with.
  rewrite (attemptLoop_context_length _ _ _ _ _ _ _ r1 Hp1 Hs1 Hc).
  rewrite (fallbackChain_safe_ok _ _ _ _ _ r2 e); simpl.
  - by rewrite <- app_assoc.
  - rewrite length_app. simpl. by rewrite Nat.add_1_r.
  - done.
  - done.
Qed.

(** The scenario of the specification on a short note with title "T": the
    provider answers the full text with a context-length error and the
    reduced text with an embedding. *)
Lemma context_length_goes_straight_to_safe_mode_witness :
  generateEmbedding contextLengthProvider "<p>A long note</p>" (Some "T") net0
  = (Ok [num_one; num_half], mkNet ["<p>A long note</p>"; "A long note"] []).
Proof.
  apply (context_length_goes_straight_to_safe_mode contextLengthProvider
           "<p>A long note</p>" (Some "T") 3 net0
           (mkResponse 500 "input length exceeds the context length" JsonNoEmbedding)
           (mkResponse 200 "" (JsonEmbedding [num_one; num_half]))
           [num_one; num_half]).
  - reflexivity.
  - discriminate.
  - vm_compute. reflexivity.
  - reflexivity.
  - reflexivity.
  - reflexivity.
Defined.

(** A full-text request answered with status 200 ends the call: with the
    embedding when the body carries an array, with an error otherwise. *)
Lemma attemptLoop_status_200 provider sanitizedText title retries fuel attempt n r :
  provider (length (sent n)) (truncatedText sanitizedText) = Returns r ->
  status r = 200 ->
  attemptLoop provider sanitizedText title retries (S fuel) attempt n
  = (match json r with
     | JsonEmbedding e => Ok e
     | JsonThrows => Err BodyError
     | _ => Err InvalidResponse
     end,
     mkNet (sent n ++ [truncatedText sanitizedText]) (delays n)).
Proof.
  intros Hp Hs. cbn [attemptLoop]. rewrite requestUrl_sent, Hp, Hs.
  by destruct (json r).
Qed.

(** What the chain does once Safe Mode has not produced an embedding. *)
Lemma fallbackChain_safe_failed provider sanitizedText title r n :
  fallback_embedding (provider (length (sent n)) (safeText sanitizedText)) = None ->
  fallbackChain provider sanitizedText title r n
  = match title_given title with
    | Some t =>
        (match fallback_embedding
                 (provider (S (length (sent n))) (titlePrompt t)) with
         | Some e => Ok e
         | None => Err (ApiError (status r) (text r))
         end,
         mkNet (sent n ++ [safeText sanitizedText; titlePrompt t]) (delays n))
    | None =>
        (Err (ApiError (status r) (text r)),
         mkNet (sent n ++ [safeText sanitizedText]) (delays n))
    end.
Proof.
  intros Hsafe. unfold fallbackChain. rewrite requestUrl_sent, Hsafe.
  destruct (title_given title) as [t|]; [|done].
  rewrite requestUrl_sent. cbn [sent delays].
  rewrite length_app. cbn [length]. rewrite Nat.add_1_r, <- app_assoc.
  cbn [app]. by destruct (fallback_embedding (provider (S _) _)).
Qed.

Lemma fallback_embedding_malformed r :
  status r = 200 -> (forall e, json r <> JsonEmbedding e) ->
  fallback_embedding (Returns r) = None.
Proof.
  intros Hs Hj. unfold fallback_embedding. rewrite Hs. simpl.
  destruct (json r) as [| | |e]; try done. by destruct (Hj e).
Qed.

Lemma attemptLoop_S provider sanitizedText title retries fuel attempt n :
  attemptLoop provider sanitizedText title retries (S fuel) attempt n
  = let (outcome, n) := requestUrl provider (truncatedText sanitizedText) n in
    match outcome with
    | Throws message =>
        if (attempt <? retries)%nat then
          attemptLoop provider sanitizedText title retries fuel (S attempt)
            (sleep (backoff attempt) n)
        else (Err (ConnectFailed (Z.of_nat retries + 1) message), n)
    | Returns response =>
        if negb (status response =? 200) then
          let errorText := text response in
          let isContextLength :=
            includes errorText "context length"
            || includes errorText "context_length" in
          if includes errorText "EOF" || includes errorText "connection"
             || isContextLength then
            if (attempt <? retries)%nat && negb isContextLength then
              attemptLoop provider sanitizedText title retries fuel (S attempt)
                (sleep (backoff attempt) n)
            else fallbackChain provider sanitizedText title response n
          else (Err (ApiError (status response) errorText), n)
        else
          match json response with
          | JsonThrows => (Err BodyError, n)
          | JsonNoEmbedding | JsonEmbeddingNotArray => (Err InvalidResponse, n)
          | JsonEmbedding e => (Ok e, n)
          end
    end.
Proof. reflexivity. Qed.

(** The attempts that are retried: after [k] of them the loop is at
    attempt [k], with [k] full-text requests sent and the pauses of the
    attempts 0 to [k - 1] slept through. *)
Lemma attemptLoop_retried provider sanitizedText title retries :
  forall k fuel attempt n,
    (forall i, (i < k)%nat ->
       is_retried retries (attempt + i)
         (provider (length (sent n) + i)%nat (truncatedText sanitizedText)) = true) ->
    attemptLoop provider sanitizedText title retries (k + fuel) attempt n
    = attemptLoop provider sanitizedText title retries fuel (attempt + k)
        (mkNet (sent n ++ replicate k (truncatedText sanitizedText))
               (delays n ++ (backoff <$> seq attempt k))).
Proof.
  induction k as [|k IH]; intros fuel attempt n Hall.
  - cbn. rewrite Nat.add_0_r, !app_nil_r. by destruct n.
  - cbn [Nat.add]. rewrite attemptLoop_S, requestUrl_sent. cbn zeta.
    pose proof (Hall 0%nat ltac:(lia)) as H0. rewrite !Nat.add_0_r in H0.
    assert (Hnext : attemptLoop provider sanitizedText title retries (k + fuel) (S attempt)
                      (sleep (backoff attempt)
                         (mkNet (sent n ++ [truncatedText sanitizedText]) (delays n)))
                    = attemptLoop provider sanitizedText title retries fuel (attempt + S k)
                        (mkNet (sent n ++ replicate (S k) (truncatedText sanitizedText))
                               (delays n ++ (backoff <$> seq attempt (S k))))).
    { rewrite IH.
      - cbn [sleep sent delays replicate seq fmap list_fmap].
        rewrite <- !app_assoc. cbn [app].
        by replace (S attempt + k)%nat with (attempt + S k)%nat by lia.
      - intros i Hi. cbn [sleep sent]. rewrite length_app. cbn [length].
        replace (length (sent n) + 1 + i)%nat with (length (sent n) + S i)%nat by lia.
        replace (S attempt + i)%nat with (attempt + S i)%nat by lia.
        apply Hall. lia. }
    destruct (provider (length (sent n)) (truncatedText sanitizedText))
      as [message|response]; cbn [is_retried] in H0.
    + by rewrite H0.
    + apply andb_true_iff in H0 as [H0 Hretry].
      apply andb_true_iff in H0 as [Hstatus Htransient].
      unfold isContextLength in *. by rewrite Hstatus, Htransient, Hretry.
Qed.

(** A response that starts Safe Mode hands the call over to the fallback
    chain, whatever the attempt. *)
Lemma attemptLoop_enters_safe_mode provider sanitizedText title retries fuel attempt n r :
  provider (length (sent n)) (truncatedText sanitizedText) = Returns r ->
  enters_safe_mode retries attempt r = true ->
  attemptLoop provider sanitizedText title retries (S fuel) attempt n
  = fallbackChain provider sanitizedText title r
      (mkNet (sent n ++ [truncatedText sanitizedText]) (delays n)).
Proof.
  intros Hp Hsafe. rewrite attemptLoop_S, requestUrl_sent, Hp. cbn zeta.
  unfold enters_safe_mode in Hsafe.
  apply andb_true_iff in Hsafe as [Hsafe Hlast].
  apply andb_true_iff in Hsafe as [Hstatus Htransient].
  unfold isContextLength in *. rewrite Hstatus, Htransient.
  by apply negb_true_iff in Hlast as ->.
Qed.

(** C2, as the code has it.  A 200 response is well-formed when its body
    carries an [embedding] that is an array (of any length, the empty one
    included).  Let the first [k] full-text attempts be retried, for any
    [k] up to [retries].  A 200 response to the next full-text request ends
    the call there: with the embedding when it is well-formed, and otherwise
    with an error; neither Safe Mode nor Title Only Mode is tried.  When
    that request starts Safe Mode instead (by a context-length error, or by
    a transient error on the last attempt), a 200 response to the Safe Mode
    request that is not well-formed counts as a failure of the mode: the
    chain goes on with Title Only Mode when a title was given, and ends with
    the provider error of the last full-text response otherwise.  A 200
    response to the Title Only request that is not well-formed ends the call
    with that same provider error. *)
Theorem malformed_success_response
    (provider : Provider) (text0 : string) (title : option string)
    (retries : nat) (n : Net) (k : nat) :
  (k <= retries)%nat ->
  (forall i, (i < k)%nat ->
     is_retried retries i
       (provider (length (sent n) + i)%nat (truncatedText (sanitizeText text0))) = true) ->
  (forall r,
     provider (length (sent n) + k)%nat (truncatedText (sanitizeText text0)) = Returns r ->
     status r = 200 ->
     generateEmbedding_with provider retries text0 title n
     = (match json r with
        | JsonEmbedding e => Ok e
        | JsonThrows => Err BodyError
        | _ => Err InvalidResponse
        end,
        mkNet (sent n ++ replicate (S k) (truncatedText (sanitizeText text0)))
              (delays n ++ (backoff <$> seq 0 k))))
  /\ (forall r1 r2,
        provider (length (sent n) + k)%nat (truncatedText (sanitizeText text0))
        = Returns r1 ->
        enters_safe_mode retries k r1 = true ->
        provider (length (sent n) + k + 1)%nat (safeText (sanitizeText text0))
        = Returns r2 ->
        status r2 = 200 ->
        (forall e, json r2 <> JsonEmbedding e) ->
        generateEmbedding_with provider retries text0 title n
        = match title_given title with
          | Some t =>
              (match fallback_embedding
                       (provider (length (sent n) + k + 2)%nat (titlePrompt t)) with
               | Some e => Ok e
               | None => Err (ApiError (status r1) (text r1))
               end,
               mkNet (sent n ++ replicate (S k) (truncatedText (sanitizeText text0))
                      ++ [safeText (sanitizeText text0); titlePrompt t])
                     (delays n ++ (backoff <$> seq 0 k)))
          | None =>
              (Err (ApiError (status r1) (text r1)),
               mkNet (sent n ++ replicate (S k) (truncatedText (sanitizeText text0))
                      ++ [safeText (sanitizeText text0)])
                     (delays n ++ (backoff <$> seq 0 k)))
          end)
  /\ (forall r1 t r3,
        provider (length (sent n) + k)%nat (truncatedText (sanitizeText text0))
        = Returns r1 ->
        enters_safe_mode retries k r1 = true ->
        fallback_embedding
          (provider (length (sent n) + k + 1)%nat (safeText (sanitizeText text0))) = None ->
        title_given title = Some t ->
        provider (length (sent n) + k + 2)%nat (titlePrompt t) = Returns r3 ->
        status r3 = 200 ->
        (forall e, json r3 <> JsonEmbedding e) ->
        generateEmbedding_with provider retries text0 title n
        = (Err (ApiError (status r1) (text r1)),
           mkNet (sent n ++ replicate (S k) (truncatedText (sanitizeText text0))
                  ++ [safeText (sanitizeText text0); titlePrompt t])
                 (delays n ++ (backoff <$> seq 0 k)))).
Proof.
  intros Hk Hretried.
  assert (Hloop : generateEmbedding_with provider retries text0 title n
                  = attemptLoop provider (sanitizeText text0) title retries
                      (S (retries - k)) k
                      (mkNet (sent n ++ replicate k (truncatedText (sanitizeText text0)))
                             (delays n ++ (backoff <$> seq 0 k)))).
  { unfold generateEmbedding_with.
    replace (S retries) with (k + S (retries - k))%nat by lia.
    by rewrite (attemptLoop_retried provider _ title retries k _ 0%nat n Hretried). }
  assert (Hlen : length (sent n ++ replicate k (truncatedText (sanitizeText text0)))
                 = (length (sent n) + k)%nat)
    by (by rewrite length_app, length_replicate).
  assert (Hsnoc : forall tail,
             (sent n ++ replicate k (truncatedText (sanitizeText text0)))
             ++ truncatedText (sanitizeText text0) :: tail
             = sent n ++ replicate (S k) (truncatedText (sanitizeText text0)) ++ tail).
  { intros tail. rewrite <- app_assoc. f_equal.
    change (truncatedText (sanitizeText text0) :: tail)
      with ([truncatedText (sanitizeText text0)] ++ tail).
    rewrite app_assoc. f_equal.
    change [truncatedText (sanitizeText text0)]
      with (replicate 1 (truncatedText (sanitizeText text0))).
    rewrite <- replicate_add. f_equal. lia. }
  assert (Hchain : forall r1,
             provider (length (sent n) + k)%nat (truncatedText (sanitizeText text0))
             = Returns r1 ->
             enters_safe_mode retries k r1 = true ->
             fallback_embedding
               (provider (length (sent n) + k + 1)%nat (safeText (sanitizeText text0)))
             = None ->
             generateEmbedding_with provider retries text0 title n
             = match title_given title with
               | Some t =>
                   (match fallback_embedding
                            (provider (length (sent n) + k + 2)%nat (titlePrompt t)) with
                    | Some e => Ok e
                    | None => Err (ApiError (status r1) (text r1))
                    end,
                    mkNet (sent n ++ replicate (S k) (truncatedText (sanitizeText text0))
                           ++ [safeText (sanitizeText text0); titlePrompt t])
                          (delays n ++ (backoff <$> seq 0 k)))
               | None =>
                   (Err (ApiError (status r1) (text r1)),
                    mkNet (sent n ++ replicate (S k) (truncatedText (sanitizeText text0))
                           ++ [safeText (sanitizeText text0)])
                          (delays n ++ (backoff <$> seq 0 k)))
               end).
  { intros r1 Hp1 Hsafe Hnone. rewrite Hloop.
    rewrite (attemptLoop_enters_safe_mode _ _ _ _ _ _ _ r1); cbn [sent delays];
      [|by rewrite Hlen|done].
    rewrite fallbackChain_safe_failed; cbn [sent delays];
      rewrite length_app, Hlen; cbn [length].
    - replace (S (length (sent n) + k + 1)) with (length (sent n) + k + 2)%nat by lia.
      destruct (title_given title);
        rewrite <- (app_assoc _ [truncatedText (sanitizeText text0)]); cbn [app];
        by rewrite Hsnoc.
    - exact Hnone. }
  split; [|split].
  - intros r Hp Hs. rewrite Hloop.
    rewrite (attemptLoop_status_200 _ _ _ _ _ _ _ r); cbn [sent delays].
    + by rewrite (Hsnoc []), app_nil_r.
    + by rewrite Hlen.
    + done.
  - intros r1 r2 Hp1 Hsafe Hp2 Hs2 Hj. apply Hchain; [done..|].
    rewrite Hp2. by apply fallback_embedding_malformed.
  - intros r1 t r3 Hp1 Hsafe Hnone Ht Hp3 Hs3 Hj.
    rewrite (Hchain r1 Hp1 Hsafe Hnone), Ht, Hp3.
    by rewrite (fallback_embedding_malformed r3 Hs3 Hj).
Qed.

(** The parts at work: after one retried attempt a malformed answer to
    the second full-text request is fatal; a well-formed first answer is
    returned; and after transient errors on both attempts of a call with
    one retry, a malformed Safe Mode answer hands over to Title Only
    Mode. *)
Lemma malformed_success_response_witness :
  generateEmbedding malformedRetryProvider "<b>note</b>" (Some "T") net0
  = (Err InvalidResponse, mkNet ["<b>note</b>"; "<b>note</b>"] [1000])
  /\ generateEmbedding contextLengthProvider "<b>note</b>" (Some "T")
       (mkNet ["earlier"; "requests"; "made"] [])
     = (Ok [num_one; num_half],
        mkNet ["earlier"; "requests"; "made"; "<b>note</b>"] [])
  /\ generateEmbedding_with malformedSafeAfterRetriesProvider 1 "<b>note</b>" (Some "T") net0
     = (Ok [num_two],
        mkNet ["<b>note</b>"; "<b>note</b>"; "note"; "Note title: T"] [1000]).
Proof.
  split; [|split].
  - assert (Hk : (1 <= 3)%nat) by lia.
    assert (Hr : forall i, (i < 1)%nat ->
              is_retried 3 i
                (malformedRetryProvider (length (sent net0) + i)%nat
                   (truncatedText (sanitizeText "<b>note</b>"))) = true).
    { intros [|i] Hi; [reflexivity|lia]. }
    apply (proj1 (malformed_success_response malformedRetryProvider
                    "<b>note</b>" (Some "T") 3 net0 1 Hk Hr)
             (mkResponse 200 "" JsonNoEmbedding)); reflexivity.
  - assert (Hk : (0 <= 3)%nat) by lia.
    assert (Hr : forall i, (i < 0)%nat ->
              is_retried 3 i
                (contextLengthProvider
                   (length (sent (mkNet ["earlier"; "requests"; "made"] [])) + i)%nat
                   (truncatedText (sanitizeText "<b>note</b>"))) = true).
    { intros i Hi. lia. }
    apply (proj1 (malformed_success_response contextLengthProvider
                    "<b>note</b>" (Some "T") 3
                    (mkNet ["earlier"; "requests"; "made"] []) 0 Hk Hr)
             (mkResponse 200 "" (JsonEmbedding [num_one; num_half]))); reflexivity.
  - assert (Hk : (1 <= 1)%nat) by lia.
    assert (Hr : forall i, (i < 1)%nat ->
              is_retried 1 i
                (malformedSafeAfterRetriesProvider (length (sent net0) + i)%nat
                   (truncatedText (sanitizeText "<b>note</b>"))) = true).
    { intros [|i] Hi; [reflexivity|lia]. }
    apply (proj1 (proj2 (malformed_success_response malformedSafeAfterRetriesProvider
                           "<b>note</b>" (Some "T") 1 net0 1 Hk Hr))
             (mkResponse 500 "unexpected EOF" JsonThrows)
             (mkResponse 200 "" JsonEmbeddingNotArray)); try reflexivity.
    discriminate.
Defined.

(** C2 as stated fails: after a 200 response without an embedding on the
    full-text request no Safe Mode request follows, although the provider
    would have answered it with an embedding. *)
Lemma malformed_full_text_response_ends_the_call :
  ~ (forall (provider : Provider) (text0 : string) (title : option string) (r : Response),
       provider 0%nat (truncatedText (sanitizeText text0)) = Returns r ->
       status r = 200 ->
       json r = JsonNoEmbedding ->
       exists rest,
         sent (snd (generateEmbedding provider text0 title net0))
         = truncatedText (sanitizeText text0) :: safeText (sanitizeText text0) :: rest).
Proof.
  intros H.
  destruct (H malformedFirstProvider "<b>note</b>" (Some "T")
              (mkResponse 200 "" JsonNoEmbedding)) as [rest Hrest]; try reflexivity.
  vm_compute in Hrest. discriminate.
Qed.

(* ================================================================== *)
(** * Indexing one note *)
(* ================================================================== *)

Lemma array_get_findIndex {A} (p : A -> bool) (l : list A) :
  array_get l (findIndex p l) = array_find p l.
Proof.
  unfold array_get. induction l as [|x l IH]; simpl; [done|].
  destruct (p x); [done|].
  destruct (Z.ltb_spec (findIndex p l) 0) as [Hlt|Hge].
  - simpl. by rewrite <- IH.
  - destruct (Z.ltb_spec (findIndex p l + 1) 0); [lia|].
    replace (Z.to_nat (findIndex p l + 1)) with (S (Z.to_nat (findIndex p l))) by lia.
    simpl. by rewrite <- IH.
Qed.

Lemma array_find_Some {A} (p : A -> bool) (l : list A) x :
  array_find p l = Some x -> p x = true /\ x ∈ l.
Proof.
  induction l as [|y l IH]; simpl; [done|].
  destruct (p y) eqn:Hy.
  - intros [= ->]. split; [done|left].
  - intros H. destruct (IH H). split; [done|by right].
Qed.

(** The cache hit of [indexNote]: nothing is read, requested or written. *)
Lemma indexNote_cache_hit provider file s v :
  array_find (has_path (file_path file)) (vectors s) = Some v ->
  num_strict_eq (mtime v) (file_mtime file) = true ->
  indexNote provider file s = (Ok tt, s).
Proof.
  intros Hfind Heq. unfold indexNote.
  by rewrite array_get_findIndex, Hfind, Heq.
Qed.

(** [indexNote] calls [generateEmbedding] at most once: its traffic is
    either none or that of one call. *)
Lemma indexNote_traffic provider file s :
  net (indexNote provider file s).2 = net s
  \/ exists content,
       net (indexNote provider file s).2
       = (generateEmbedding provider content (Some (file_basename file)) (net s)).2.
Proof.
  unfold indexNote. destruct (match array_get _ _ with Some _ => _ | None => _ end);
    [by left|].
  destruct (file_content file) as [content|]; [|by left].
  right. exists (preprocessContent content).
  destruct (generateEmbedding _ _ _ _) as [[e|err] n]; done.
Qed.

Lemma array_find_app_l {A} (p : A -> bool) (l1 l2 : list A) x :
  array_find p l1 = Some x -> array_find p (l1 ++ l2) = Some x.
Proof.
  induction l1 as [|y l1 IH]; simpl; [done|]. destruct (p y); auto.
Qed.

Lemma array_find_app_r {A} (p : A -> bool) (l1 l2 : list A) :
  array_find p l1 = None -> array_find p (l1 ++ l2) = array_find p l2.
Proof.
  induction l1 as [|y l1 IH]; simpl; [done|]. destruct (p y); [done|auto].
Qed.

Lemma array_find_None_findIndex {A} (p : A -> bool) (l : list A) :
  array_find p l = None <-> findIndex p l < 0.
Proof.
  induction l as [|x l IH]; simpl; [split; [lia|done]|].
  destruct (p x); [split; [done|lia]|].
  destruct (Z.ltb_spec (findIndex p l) 0) as [Hlt|Hge].
  - split; [lia|]. intros _. by apply IH.
  - split; [|lia]. intros H. apply IH in H. lia.
Qed.

Lemma array_find_insert_first {A} (p : A -> bool) (l : list A) x :
  0 <= findIndex p l -> p x = true ->
  array_find p (<[Z.to_nat (findIndex p l) := x]> l) = Some x.
Proof.
  induction l as [|y l IH]; simpl; [lia|].
  destruct (p y) eqn:Hy.
  - intros _ Hx. simpl. by rewrite Hx.
  - destruct (Z.ltb_spec (findIndex p l) 0); [lia|]. intros _ Hx.
    replace (Z.to_nat (findIndex p l + 1)) with (S (Z.to_nat (findIndex p l))) by lia.
    simpl. rewrite Hy. by apply IH.
Qed.

(** After an upsert the first record of the path is the one written. *)
Lemma array_find_upsert p e m (vs : list NoteVector) :
  array_find (has_path p) (upsert p e m vs) = Some (mkNoteVector p e m).
Proof.
  unfold upsert, storeEmbedding, array_set.
  assert (Hnew : has_path p (mkNoteVector p e m) = true) by by apply has_path_true.
  destruct (Z.leb_spec 0 (findIndex (has_path p) vs)).
  - by apply array_find_insert_first.
  - rewrite array_find_app_r by by apply array_find_None_findIndex.
    simpl. by rewrite Hnew.
Qed.

(** What [indexNote] does to the store when it does not hit the cache and
    the embedding arrives: an upsert. *)
Lemma indexNote_stores provider file s s1 :
  indexNote provider file s = (Ok tt, s1) ->
  vectors s1 = vectors s
  \/ exists e, vectors s1 = upsert (file_path file) e (file_mtime file) (vectors s).
Proof.
  unfold indexNote.
  destruct (match array_get _ _ with Some _ => _ | None => _ end);
    [intros [= <-]; by left|].
  destruct (file_content file) as [content|]; [|done].
  destruct (generateEmbedding _ _ _ _) as [[e|err] n]; [|done].
  intros [= <-]. right. by exists e.
Qed.

(** After a call that returned normally, a document whose modification
    time is a number equal to itself (any but [NaN]) has a record with that
    very modification time. *)
Lemma indexNote_ok_record provider file s s1 :
  indexNote provider file s = (Ok tt, s1) ->
  num_strict_eq (file_mtime file) (file_mtime file) = true ->
  exists v, array_find (has_path (file_path file)) (vectors s1) = Some v
            /\ num_strict_eq (mtime v) (file_mtime file) = true.
Proof.
  intros Hrun Hself. revert Hrun. unfold indexNote.
  rewrite array_get_findIndex.
  destruct (array_find (has_path (file_path file)) (vectors s)) as [v|] eqn:Hfind.
  - destruct (num_strict_eq (mtime v) (file_mtime file)) eqn:Heq.
    + intros [= <-]. eauto.
    + destruct (file_content file) as [content|]; [|done].
      destruct (generateEmbedding _ _ _ _) as [[e|err] n]; [|done].
      intros [= <-]. eexists. split; [apply array_find_upsert|done].
  - destruct (file_content file) as [content|]; [|done].
    destruct (generateEmbedding _ _ _ _) as [[e|err] n]; [|done].
    intros [= <-]. eexists. split; [apply array_find_upsert|done].
Qed.

(** C7.  Two calls of [indexNote] on a document that is not modified in
    between, the record stored for it carrying the document's modification
    time when the second call starts: the second call is a no-op, it leaves
    the store and everything else as they are and posts nothing; all the
    traffic of the two calls is that of at most one [generateEmbedding]. *)
Theorem indexNote_twice_one_embedding_request
    (provider : Provider) (file : TFile) (s s1 : Service) (r1 : Result unit)
    (v : NoteVector) :
  indexNote provider file s = (r1, s1) ->
  array_find (has_path (file_path file)) (vectors s1) = Some v ->
  num_strict_eq (mtime v) (file_mtime file) = true ->
  indexNote provider file s1 = (Ok tt, s1)
  /\ (net (indexNote provider file s1).2 = net s
      \/ exists content,
           net (indexNote provider file s1).2
           = (generateEmbedding provider content (Some (file_basename file)) (net s)).2).
Proof.
  intros Hfirst Hfind Heq.
  pose proof (indexNote_cache_hit provider file s1 v Hfind Heq) as Hsecond.
  split; [done|]. rewrite Hsecond. simpl.
  pose proof (indexNote_traffic provider file s) as Ht.
  by rewrite Hfirst in Ht.
Qed.

(** A first and a second call on the same note. *)
Lemma indexNote_twice_one_embedding_request_witness :
  indexNote constantProvider (note 0)
    (indexNote constantProvider (note 0) (newService FormatJson)).2
  = (Ok tt, (indexNote constantProvider (note 0) (newService FormatJson)).2).
Proof.
  apply (proj1 (indexNote_twice_one_embedding_request constantProvider (note 0)
                  (newService FormatJson)
                  (indexNote constantProvider (note 0) (newService FormatJson)).2
                  (Ok tt)
                  (mkNoteVector "n" [num_one; num_half] (num_of_Z 1700000000000))
                  ltac:(vm_compute; reflexivity)
                  ltac:(vm_compute; reflexivity)
                  ltac:(vm_compute; reflexivity))).
Defined.

(* ================================================================== *)
(** * Indexing the corpus: cancellation *)
(* ================================================================== *)

(** C3, the scenario of the specification run on the code: 100 documents,
    Stop pressed while the twelfth is indexed.  The loop stops at the check
    of the thirteenth document; the store holds the twelve records made so
    far and the file on disk reads back as that store.  The promise of
    [indexAll] however resolves, exactly as it does for the run that is
    never stopped: the caller is not told of the cancellation, of which the
    console line of [cancelIndexing] is the only trace. *)
Theorem cancelled_run_resolves_like_a_completed_run :
  let run := indexAll ascii_encode ascii_decode constantProvider in
  let cancelled := run stopAfterTwelve hundredNotes (newService FormatBinary) in
  let completed := run neverStop hundredNotes (newService FormatBinary) in
  path <$> vectors cancelled.2 = file_path <$> take 12 hundredNotes
  /\ length (sent (net cancelled.2)) = 12%nat
  /\ last (progress cancelled.2) = Some (13, 100)
  /\ vectors (loadVectors ascii_decode cancelled.2) = vectors cancelled.2
  /\ length (vectors completed.2) = 100%nat
  /\ cancelled.1 = Ok tt
  /\ completed.1 = Ok tt
  /\ drop 13 (console cancelled.2) = [LogCancelledByUser; LogSaved FormatBinary 12].
Proof.
  vm_compute. repeat split; reflexivity.
Qed.

(* ================================================================== *)
(** * Cosine similarity of a vector of zeros *)
(* ================================================================== *)

Lemma num_mul_zero_l x y : is_zero x = true -> zero_or_nan (num_mul x y) = true.
Proof. by destruct x, y. Qed.

Lemma num_mul_zero_r x y : is_zero y = true -> zero_or_nan (num_mul x y) = true.
Proof. by destruct x, y. Qed.

Lemma num_mul_zero_or_nan_l x y :
  zero_or_nan x = true -> zero_or_nan (num_mul x y) = true.
Proof. by destruct x, y. Qed.

Lemma num_mul_zero_or_nan_r x y :
  zero_or_nan y = true -> zero_or_nan (num_mul x y) = true.
Proof. by destruct x, y. Qed.

Lemma num_add_zero_or_nan x y :
  zero_or_nan x = true -> zero_or_nan y = true -> zero_or_nan (num_add x y) = true.
Proof. by destruct x as [[]|[]| |], y as [[]|[]| |]. Qed.

Lemma num_sqrt_zero_or_nan x :
  zero_or_nan x = true -> zero_or_nan (num_sqrt x) = true.
Proof. by destruct x. Qed.

Lemma num_div_zero_or_nan x y :
  zero_or_nan x = true -> zero_or_nan y = true -> num_div x y = S754_nan.
Proof. by destruct x, y. Qed.

(** The sums over a first argument of zeros: the dot product and the norm
    of the first argument stay a zero or [NaN]. *)
Lemma cosine_sums_zero_l a b dot na nb :
  forallb is_zero a = true ->
  zero_or_nan dot = true -> zero_or_nan na = true ->
  zero_or_nan (cosine_sums a b (dot, na, nb)).1.1 = true
  /\ zero_or_nan (cosine_sums a b (dot, na, nb)).1.2 = true.
Proof.
  revert b dot na nb. induction a as [|x a IH]; intros b dot na nb Ha Hdot Hna.
  - done.
  - simpl in Ha. apply andb_true_iff in Ha as [Hx Ha]. simpl. apply IH; [done|..].
    + apply num_add_zero_or_nan; [done|]. by apply num_mul_zero_l.
    + apply num_add_zero_or_nan; [done|]. by apply num_mul_zero_l.
Qed.

(** The same over a second argument of zeros, of any length: where it runs
    out, [b[i]] is [undefined] and the products are [NaN]. *)
Lemma cosine_sums_zero_r a b dot na nb :
  forallb is_zero b = true ->
  zero_or_nan dot = true -> zero_or_nan nb = true ->
  zero_or_nan (cosine_sums a b (dot, na, nb)).1.1 = true
  /\ zero_or_nan (cosine_sums a b (dot, na, nb)).2 = true.
Proof.
  revert b dot na nb. induction a as [|x a IH]; intros b dot na nb Hb Hdot Hnb.
  - done.
  - simpl. assert (Hy : zero_or_nan (hd num_nan b) = true).
    { destruct b as [|y b]; [done|]. simpl in Hb.
      apply andb_true_iff in Hb as [Hy _]. by destruct y. }
    apply IH.
    + destruct b as [|y b]; [done|]. simpl in Hb.
      by apply andb_true_iff in Hb as [_ Hb].
    + apply num_add_zero_or_nan; [done|]. by apply num_mul_zero_or_nan_r.
    + apply num_add_zero_or_nan; [done|]. by apply num_mul_zero_or_nan_r.
Qed.

(** C10.  When all components of one of the two vectors are zero,
    [cosineSimilarity] is [NaN], whatever the other vector holds: the
    quotient is not guarded against a zero denominator. *)
Theorem cosineSimilarity_zero_vector_is_nan (a b : list number) :
  length a = length b ->
  forallb is_zero a = true \/ forallb is_zero b = true ->
  cosineSimilarity a b = S754_nan.
Proof.
  intros _ Hzero. unfold cosineSimilarity.
  destruct (cosine_sums a b (num_zero, num_zero, num_zero)) as [[dot na] nb] eqn:Hs.
  destruct Hzero as [Ha|Hb].
  - destruct (cosine_sums_zero_l a b num_zero num_zero num_zero Ha) as [Hd Hn];
      [done..|]. rewrite Hs in Hd, Hn. simpl in Hd, Hn.
    apply num_div_zero_or_nan; [done|].
    apply num_mul_zero_or_nan_l. by apply num_sqrt_zero_or_nan.
  - destruct (cosine_sums_zero_r a b num_zero num_zero num_zero Hb) as [Hd Hn];
      [done..|]. rewrite Hs in Hd, Hn. simpl in Hd, Hn.
    apply num_div_zero_or_nan; [done|].
    apply num_mul_zero_or_nan_r. by apply num_sqrt_zero_or_nan.
Qed.

Lemma cosineSimilarity_zero_vector_is_nan_witness :
  cosineSimilarity [num_zero; S754_zero true; num_zero] [num_one; num_half; num_two]
  = S754_nan.
Proof.
  apply cosineSimilarity_zero_vector_is_nan; [reflexivity|left; reflexivity].
Defined.

(* ================================================================== *)
(** * Bytes and little-endian integers *)
(* ================================================================== *)

Lemma Z_of_byte_range b : 0 <= Z_of_byte b < 256.
Proof.
  unfold Z_of_byte. pose proof (Byte.to_N_bounded b). lia.
Qed.

Lemma Z_of_byte_of_Z z : Z_of_byte (byte_of_Z z) = z mod 256.
Proof.
  unfold Z_of_byte, byte_of_Z.
  pose proof (Z.mod_pos_bound z 256 ltac:(lia)) as Hr.
  destruct (Byte.of_N (Z.to_N (z mod 256))) as [b|] eqn:Hb.
  - apply Byte.to_of_N in Hb. simpl. rewrite Hb. lia.
  - apply Byte.of_N_None_iff in Hb. lia.
Qed.

Lemma byte_of_Z_of_byte b : byte_of_Z (Z_of_byte b) = b.
Proof.
  unfold byte_of_Z. pose proof (Z_of_byte_range b) as Hr.
  rewrite Z.mod_small by done. unfold Z_of_byte.
  by rewrite N2Z.id, Byte.of_to_N.
Qed.

Lemma length_le_bytes n z : length (le_bytes n z) = n.
Proof. revert z. induction n as [|n IH]; intros z; simpl; [done|]. by rewrite IH. Qed.

Lemma len_le_bytes n z : len (le_bytes n z) = Z.of_nat n.
Proof. unfold len. by rewrite length_le_bytes. Qed.

Lemma le_value_le_bytes n z : le_value (le_bytes n z) = z mod 256 ^ Z.of_nat n.
Proof.
  revert z. induction n as [|n IH]; intros z.
  - simpl. by rewrite Z.mod_1_r.
  - cbn [le_bytes le_value]. rewrite Z_of_byte_of_Z, IH.
    replace (Z.of_nat (S n)) with (1 + Z.of_nat n) by lia.
    rewrite Z.pow_add_r by lia. change (256 ^ 1) with 256.
    rewrite (Z.rem_mul_r z 256 (256 ^ Z.of_nat n)) by lia. lia.
Qed.

Lemma le_value_range bs : 0 <= le_value bs < 256 ^ len bs.
Proof.
  unfold len. induction bs as [|b bs IH].
  - simpl. lia.
  - cbn [le_value length]. pose proof (Z_of_byte_range b).
    replace (Z.of_nat (S (length bs))) with (1 + Z.of_nat (length bs)) by lia.
    rewrite Z.pow_add_r by lia. change (256 ^ 1) with 256. lia.
Qed.

Lemma le_bytes_le_value bs : le_bytes (length bs) (le_value bs) = bs.
Proof.
  induction bs as [|b bs IH]; [done|]. cbn [le_value length le_bytes].
  pose proof (Z_of_byte_range b). f_equal.
  - replace (Z_of_byte b + 256 * le_value bs) with (Z_of_byte b + le_value bs * 256) by lia.
    unfold byte_of_Z. rewrite Z.mod_add by lia. rewrite Z.mod_small by done.
    unfold Z_of_byte. by rewrite N2Z.id, Byte.of_to_N.
  - replace ((Z_of_byte b + 256 * le_value bs) / 256) with (le_value bs); [done|].
    apply Z.div_unique with (Z_of_byte b); lia.
Qed.

Lemma le_value_uint32 z : 0 <= z < 2 ^ 32 -> le_value (le_bytes 4 z) = z.
Proof.
  intros Hz. rewrite le_value_le_bytes. change (256 ^ Z.of_nat 4) with (2 ^ 32).
  by apply Z.mod_small.
Qed.

(* ================================================================== *)
(** * The binary64 interchange encoding is faithful *)
(* ================================================================== *)

Lemma digits2_pos_size m : digits2_pos m = Pos.size m.
Proof. induction m; simpl; congruence. Qed.

Lemma digits2_pos_bounds m :
  2 ^ (Z.pos (digits2_pos m) - 1) <= Z.pos m < 2 ^ Z.pos (digits2_pos m).
Proof.
  rewrite digits2_pos_size.
  pose proof (Pos.size_gt m) as Hgt. pose proof (Pos.size_le m) as Hle.
  split.
  - assert (H2 : 2 * 2 ^ (Z.pos (Pos.size m) - 1) = 2 ^ Z.pos (Pos.size m)).
    { rewrite <- Z.pow_succ_r by lia. f_equal. lia. }
    assert (H : Z.pos (2 ^ Pos.size m) <= Z.pos m~0) by (by apply Pos2Z.pos_le_pos).
    rewrite Pos2Z.inj_pow in H. lia.
  - assert (H : Z.pos m < Z.pos (2 ^ Pos.size m)) by (by apply Pos2Z.pos_lt_pos).
    by rewrite Pos2Z.inj_pow in H.
Qed.

(** The shape of a valid finite binary64 value: a subnormal mantissa goes
    with the least exponent, a normal one is 53 bits wide. *)
Lemma valid64_finite s m e :
  valid64 (S754_finite s m e) = true ->
  (Z.pos m < 2 ^ 52 /\ e = -1074)
  \/ (2 ^ 52 <= Z.pos m < 2 ^ 53 /\ -1074 <= e <= 971).
Proof.
  unfold valid64, valid_binary, bounded, canonical_mantissa, fexp, emin, prec64, emax64.
  intros H. apply andb_true_iff in H as [Hc He].
  apply Z.eqb_eq in Hc. apply Z.leb_le in He.
  pose proof (digits2_pos_bounds m) as [Hlo Hhi].
  set (d := Z.pos (digits2_pos m)) in *.
  assert (Hd : 0 < d) by (unfold d; lia).
  destruct (Z.lt_ge_cases (Z.pos m) (2 ^ 52)) as [Hsub|Hnorm].
  - left. split; [done|].
    assert (d <= 52).
    { destruct (Z.le_gt_cases d 52) as [|Hgt]; [done|exfalso].
      assert (2 ^ 52 <= 2 ^ (d - 1)) by (apply Z.pow_le_mono_r; lia). lia. }
    lia.
  - right.
    assert (53 <= d).
    { destruct (Z.le_gt_cases 53 d) as [|Hlt]; [done|exfalso].
      assert (2 ^ d <= 2 ^ 52) by (apply Z.pow_le_mono_r; lia). lia. }
    assert (d = 53) by lia.
    replace d with 53 in Hhi by done. lia.
Qed.

Lemma join_bits64_split (s : bool) E M :
  0 <= E < 2 ^ 11 -> 0 <= M < 2 ^ 52 ->
  let bits := join_bits 52 11 s E M in
  0 <= bits < 2 ^ 64
  /\ bits mod 2 ^ 52 = M
  /\ (bits / 2 ^ 52) mod 2 ^ 11 = E
  /\ Z.odd (bits / 2 ^ (52 + 11)) = s.
Proof.
  intros HE HM. unfold join_bits. change (52 + 11) with 63.
  change (2 ^ 63) with 9223372036854775808.
  change (2 ^ 64) with 18446744073709551616.
  change (2 ^ 52) with 4503599627370496 in *.
  change (2 ^ 11) with 2048 in *.
  destruct s; cbv zeta.
  - repeat split; try (Z.div_mod_to_equations; lia).
    replace ((9223372036854775808 + E * 4503599627370496 + M) / 9223372036854775808)
      with 1; [done|]. Z.div_mod_to_equations; lia.
  - repeat split; try (Z.div_mod_to_equations; lia).
    replace ((0 + E * 4503599627370496 + M) / 9223372036854775808)
      with 0; [done|]. Z.div_mod_to_equations; lia.
Qed.

(** Every binary64 value is read back from its eight bytes. *)
Theorem float64_bits_roundtrip x :
  valid64 x = true ->
  float_of_bits 52 11 (le_value (float64Bytes x)) = x.
Proof.
  intros Hv. unfold float64Bytes. rewrite le_value_le_bytes.
  change (256 ^ Z.of_nat 8) with (2 ^ 64).
  assert (Hgen : forall (s : bool) E M, 0 <= E < 2 ^ 11 -> 0 <= M < 2 ^ 52 ->
            float_of_bits 52 11 (join_bits 52 11 s E M mod 2 ^ 64)
            = (if E =? 0 then
                 match M with Z.pos m => S754_finite s m (-1074) | _ => S754_zero s end
               else if E =? 2 ^ 11 - 1 then
                 if M =? 0 then S754_infinity s else S754_nan
               else match M + 2 ^ 52 with
                    | Z.pos m => S754_finite s m (E + -1074 - 1)
                    | _ => S754_nan
                    end)).
  { intros s E M HE HM.
    destruct (join_bits64_split s E M HE HM) as (Hr & Hm & He & Hs).
    rewrite Z.mod_small by done. unfold float_of_bits.
    rewrite Hm, He, Hs. done. }
  destruct x as [s|s| |s m e]; cbn [bits_of_float].
  - by rewrite Hgen.
  - by rewrite Hgen.
  - by rewrite Hgen.
  - destruct (valid64_finite s m e Hv) as [[Hm He]|[Hm He]].
    + destruct (Z.ltb_spec (Z.pos m) (2 ^ 52)); [|lia].
      rewrite Hgen by lia. simpl. by rewrite He.
    + destruct (Z.ltb_spec (Z.pos m) (2 ^ 52)); [lia|].
      unfold fmt_emin. change (3 - 2 ^ (11 - 1) - (52 + 1)) with (-1074).
      rewrite Hgen by (change (2 ^ 11) with 2048; lia).
      destruct (Z.eqb_spec (e - -1074 + 1) 0); [lia|].
      destruct (Z.eqb_spec (e - -1074 + 1) (2 ^ 11 - 1));
        [change (2 ^ 11) with 2048 in *; lia|].
      replace (Z.pos m - 2 ^ 52 + 2 ^ 52) with (Z.pos m) by lia.
      f_equal. lia.
Qed.

Lemma is_float32_fround x : is_float32 x = true -> fround x = x.
Proof.
  unfold is_float32. destruct x as [a|a| |a m e], (fround _) as [b|b| |b m' e'];
    try done.
  - intros H. apply Bool.eqb_prop in H. by subst.
  - intros H. apply Bool.eqb_prop in H. by subst.
  - intros H. apply andb_true_iff in H as [H He]. apply andb_true_iff in H as [Hs Hm].
    apply Bool.eqb_prop in Hs. apply Pos.eqb_eq in Hm. apply Z.eqb_eq in He.
    by subst.
Qed.

(* ================================================================== *)
(** * Writing the binary image *)
(* ================================================================== *)

Lemma len_app {A} (l k : list A) : len (l ++ k) = len l + len k.
Proof. unfold len. rewrite length_app. lia. Qed.

Lemma len_nonneg {A} (l : list A) : 0 <= len l.
Proof. unfold len. lia. Qed.

(** Closes [Some (w ++ ... ++ replicate n _, off) = Some (w ++ ... ++
    replicate n' _, off')] when the counts and offsets agree arithmetically. *)
Ltac same_buffer :=
  f_equal; f_equal;
  [ repeat match goal with |- ?a ++ _ = ?a ++ _ => f_equal end;
    try match goal with |- replicate _ _ = replicate _ _ => f_equal; lia end
  | try lia ].

(** A write just behind what has been written so far, into a buffer whose
    rest is still zero: the bytes are appended to the written part. *)
Lemma viewWrite_append (written bs : list Byte.byte) (n : nat) :
  (length bs <= n)%nat ->
  viewWrite (written ++ replicate n Byte.x00) (len written) bs
  = Some ((written ++ bs) ++ replicate (n - length bs) Byte.x00).
Proof.
  intros Hn. unfold viewWrite, len.
  rewrite length_app, length_replicate.
  destruct (Z.leb_spec 0 (Z.of_nat (length written))); [|lia].
  destruct (Z.leb_spec (Z.of_nat (length written) + Z.of_nat (length bs))
              (Z.of_nat (length written + n))); [|lia].
  simpl. rewrite Nat2Z.id, take_app_length, drop_app_add, drop_replicate.
  by rewrite <- app_assoc.
Qed.

Lemma length_float32Bytes x : length (float32Bytes x) = 4%nat.
Proof. apply length_le_bytes. Qed.

Lemma length_float64Bytes x : length (float64Bytes x) = 8%nat.
Proof. apply length_le_bytes. Qed.

Lemma length_embeddingBytes fuel i e :
  length (embeddingBytes fuel i e) = (4 * fuel)%nat.
Proof.
  revert i. induction fuel as [|fuel IH]; intros i; cbn [embeddingBytes]; [done|].
  rewrite length_app, length_float32Bytes, IH. lia.
Qed.

Lemma len_float32Bytes x : len (float32Bytes x) = 4.
Proof. unfold len. by rewrite length_float32Bytes. Qed.

Lemma len_float64Bytes x : len (float64Bytes x) = 8.
Proof. unfold len. by rewrite length_float64Bytes. Qed.

Lemma len_embeddingBytes fuel i e :
  len (embeddingBytes fuel i e) = 4 * Z.of_nat fuel.
Proof. unfold len. rewrite length_embeddingBytes. lia. Qed.

Lemma length_recordBytes dimension v pathBytes :
  length (recordBytes dimension v pathBytes)
  = (4 + length pathBytes + 8 + 4 * Z.to_nat dimension)%nat.
Proof.
  unfold recordBytes.
  rewrite !length_app, length_le_bytes, length_float64Bytes, length_embeddingBytes.
  lia.
Qed.

Lemma writeEmbedding_append fuel i e (written : list Byte.byte) (n : nat) :
  (4 * fuel <= n)%nat ->
  writeEmbedding fuel i e (written ++ replicate n Byte.x00) (len written)
  = Some ((written ++ embeddingBytes fuel i e) ++ replicate (n - 4 * fuel) Byte.x00,
          len written + 4 * Z.of_nat fuel).
Proof.
  revert i written n. induction fuel as [|fuel IH]; intros i written n Hn.
  - simpl. rewrite app_nil_r, Nat.sub_0_r. do 2 f_equal. lia.
  - cbn [writeEmbedding embeddingBytes]. unfold setFloat32.
    fold (float32Bytes (default num_nan (array_get e i))).
    rewrite viewWrite_append by (rewrite length_float32Bytes; lia).
    cbn [mbind option_bind]. rewrite length_float32Bytes.
    replace (len written + 4)
      with (len (written ++ float32Bytes (default num_nan (array_get e i))))
      by (rewrite len_app, len_float32Bytes; lia).
    rewrite IH by lia. rewrite len_app, len_float32Bytes, <- !app_assoc.
    same_buffer.
Qed.

Lemma writeRecord_append dimension v pathBytes (written : list Byte.byte) (n : nat) :
  (length (recordBytes dimension v pathBytes) <= n)%nat ->
  writeRecord dimension v pathBytes (written ++ replicate n Byte.x00) (len written)
  = Some ((written ++ recordBytes dimension v pathBytes)
            ++ replicate (n - length (recordBytes dimension v pathBytes)) Byte.x00,
          len written + len (recordBytes dimension v pathBytes)).
Proof.
  rewrite length_recordBytes. intros Hn. unfold writeRecord, setUint32, setFloat64.
  rewrite viewWrite_append by (rewrite length_le_bytes; lia).
  cbn [mbind option_bind]. rewrite length_le_bytes.
  replace (len written + 4) with (len (written ++ le_bytes 4 (len pathBytes)))
    by (rewrite len_app, len_le_bytes; lia).
  rewrite viewWrite_append by lia. cbn [mbind option_bind].
  rewrite <- len_app.
  fold (float64Bytes (mtime v)).
  rewrite viewWrite_append by (rewrite length_float64Bytes; lia).
  cbn [mbind option_bind]. rewrite length_float64Bytes.
  replace (len ((written ++ le_bytes 4 (len pathBytes)) ++ pathBytes) + 8)
    with (len (((written ++ le_bytes 4 (len pathBytes)) ++ pathBytes)
               ++ float64Bytes (mtime v)))
    by (rewrite (len_app _ (float64Bytes _)), len_float64Bytes; lia).
  rewrite writeEmbedding_append by lia.
  unfold recordBytes.
  rewrite !len_app, len_le_bytes, len_float64Bytes, len_embeddingBytes.
  rewrite <- !app_assoc. same_buffer.
Qed.

Lemma length_recordsBytes_cons dimension v pathBytes rest :
  recordsBytes dimension ((v, pathBytes) :: rest)
  = recordBytes dimension v pathBytes ++ recordsBytes dimension rest.
Proof. reflexivity. Qed.

Lemma writeRecords_append dimension vectorData (written : list Byte.byte) (n : nat) :
  (length (recordsBytes dimension vectorData) <= n)%nat ->
  writeRecords dimension vectorData (written ++ replicate n Byte.x00) (len written)
  = Some ((written ++ recordsBytes dimension vectorData)
            ++ replicate (n - length (recordsBytes dimension vectorData)) Byte.x00,
          len written + len (recordsBytes dimension vectorData)).
Proof.
  revert written n. induction vectorData as [|[v pathBytes] rest IH]; intros written n Hn.
  - simpl. rewrite app_nil_r, Nat.sub_0_r. unfold recordsBytes, len. simpl.
    do 2 f_equal. lia.
  - rewrite length_recordsBytes_cons in *. rewrite length_app in Hn.
    cbn [writeRecords]. rewrite writeRecord_append by lia.
    cbn [mbind option_bind]. rewrite <- len_app.
    rewrite IH by lia. rewrite !len_app, length_app, <- !app_assoc.
    same_buffer.
Qed.

(** The size the first pass computes is the length of the image. *)
Lemma bufferSize_records dimension vectorData size0 :
  0 <= dimension ->
  foldl (fun size '(_, pathBytes) => size + (4 + len pathBytes + 8 + dimension * 4))
        size0 vectorData
  = size0 + len (recordsBytes dimension vectorData).
Proof.
  intros Hd. revert size0.
  induction vectorData as [|[v pathBytes] rest IH]; intros size0.
  - simpl. unfold len. simpl. lia.
  - cbn [foldl]. rewrite IH, length_recordsBytes_cons, len_app.
    unfold len at 3. rewrite length_recordBytes. unfold len. lia.
Qed.

(** The buffer [saveVectorsBinary] builds, write after write, is the image
    the format lays out; no write is out of bounds, whatever the store. *)
Theorem binaryImage_spec utf8_encode (first : NoteVector) (vs : list NoteVector) :
  binaryImage utf8_encode first vs
  = Some (imageBytes utf8_encode (len (embedding first)) vs).
Proof.
  unfold binaryImage, imageBytes.
  set (dimension := len (embedding first)).
  set (vectorData := (fun v => (v, utf8_encode (path v))) <$> vs).
  assert (Hd : 0 <= dimension) by apply len_nonneg.
  unfold bufferSize. rewrite (bufferSize_records dimension vectorData _ Hd).
  set (body := recordsBytes dimension vectorData).
  replace (Z.to_nat (4 + 4 + 4 + len body)) with (12 + length body)%nat
    by (unfold len; lia).
  unfold setUint8, setUint32.
  pose proof (viewWrite_append [] (le_bytes 1 86) (12 + length body)) as H0.
  rewrite app_nil_l in H0. change (len []) with 0 in H0.
  rewrite H0 by (simpl; lia). clear H0. cbn [mbind option_bind].
  rewrite length_le_bytes.
  pose proof (fun w k => viewWrite_append w k) as Hw.
  change 1 with (len ([] ++ le_bytes 1 86)) at 1.
  rewrite Hw by (rewrite length_le_bytes; lia). cbn [mbind option_bind].
  rewrite length_le_bytes.
  change 2 with (len (([] ++ le_bytes 1 86) ++ le_bytes 1 69)) at 1.
  rewrite Hw by (rewrite length_le_bytes; lia). cbn [mbind option_bind].
  rewrite length_le_bytes.
  change 3 with (len ((([] ++ le_bytes 1 86) ++ le_bytes 1 69) ++ le_bytes 1 67)) at 1.
  rewrite Hw by (rewrite length_le_bytes; lia). cbn [mbind option_bind].
  rewrite length_le_bytes.
  change 4 with (len (((([] ++ le_bytes 1 86) ++ le_bytes 1 69) ++ le_bytes 1 67)
                       ++ le_bytes 1 49)) at 1.
  rewrite Hw by (rewrite length_le_bytes; lia). cbn [mbind option_bind].
  rewrite length_le_bytes.
  set (w4 := (((([] ++ le_bytes 1 86) ++ le_bytes 1 69) ++ le_bytes 1 67)
                ++ le_bytes 1 49) ++ le_bytes 4 (len vs)).
  replace 8 with (len w4) at 1 by (unfold w4; rewrite len_app, len_le_bytes; done).
  rewrite Hw by (rewrite length_le_bytes; lia). cbn [mbind option_bind].
  rewrite length_le_bytes.
  replace 12 with (len (w4 ++ le_bytes 4 dimension)) at 1
    by (unfold w4; rewrite !len_app, !len_le_bytes; done).
  fold body. rewrite writeRecords_append by (fold body; lia).
  cbn [fmap option_fmap option_map fst]. fold body.
  f_equal. replace (12 + length body - 1 - 1 - 1 - 1 - 4 - 4 - length body)%nat
    with 0%nat by lia.
  simpl replicate. rewrite app_nil_r. unfold w4, magicBytes.
  by rewrite <- !app_assoc.
Qed.

(* ================================================================== *)
(** * Reading the binary image *)
(* ================================================================== *)

Lemma viewBytes_Some buffer offset n bs :
  viewBytes buffer offset n = Some bs ->
  0 <= offset /\ 0 <= n /\ offset + n <= len buffer
  /\ bs = take (Z.to_nat n) (drop (Z.to_nat offset) buffer).
Proof.
  unfold viewBytes, len.
  destruct (Z.leb_spec 0 offset); [|done].
  destruct (Z.leb_spec 0 n); [|done].
  destruct (Z.leb_spec (offset + n) (Z.of_nat (length buffer))); [|done].
  simpl. intros [= <-]. done.
Qed.

Lemma viewBytes_in_range buffer offset n :
  0 <= offset -> 0 <= n -> offset + n <= len buffer ->
  viewBytes buffer offset n = Some (take (Z.to_nat n) (drop (Z.to_nat offset) buffer)).
Proof.
  unfold viewBytes, len. intros.
  destruct (Z.leb_spec 0 offset); [|lia].
  destruct (Z.leb_spec 0 n); [|lia].
  destruct (Z.leb_spec (offset + n) (Z.of_nat (length buffer))); [|lia].
  done.
Qed.

(** Reading what lies between a prefix and a suffix. *)
Lemma viewBytes_app (pre bs post : list Byte.byte) :
  viewBytes (pre ++ bs ++ post) (len pre) (len bs) = Some bs.
Proof.
  rewrite viewBytes_in_range.
  - unfold len. rewrite !Nat2Z.id, drop_app_length, take_app_length. done.
  - apply len_nonneg.
  - apply len_nonneg.
  - rewrite !len_app. pose proof (len_nonneg post). lia.
Qed.

(** A read that succeeds on a buffer succeeds, with the same bytes, on any
    extension of the buffer. *)
Lemma viewBytes_extend buffer extra offset n bs :
  viewBytes buffer offset n = Some bs ->
  viewBytes (buffer ++ extra) offset n = Some bs.
Proof.
  intros H. apply viewBytes_Some in H as (Ho & Hn & Hr & ->).
  rewrite viewBytes_in_range by (rewrite ?len_app; pose proof (len_nonneg extra); lia).
  f_equal. unfold len in Hr.
  rewrite drop_app_le by lia. rewrite take_app_le; [done|].
  rewrite length_drop. lia.
Qed.

Lemma componentsFrom_app e1 e2 :
  componentsFrom (length e2) (len e1) (e1 ++ e2) = e2.
Proof.
  revert e1. induction e2 as [|x e2 IH]; intros e1; [done|].
  cbn [componentsFrom length]. f_equal.
  - unfold array_get, len. destruct (Z.ltb_spec (Z.of_nat (length e1)) 0); [lia|].
    rewrite Nat2Z.id. by rewrite (list_lookup_middle e1 e2 x (length e1) eq_refl).
  - replace (len e1 + 1) with (len (e1 ++ [x])) by (rewrite len_app; done).
    specialize (IH (e1 ++ [x])). by rewrite <- app_assoc in IH.
Qed.

(** With the dimension of the embedding, the writer reads the embedding. *)
Lemma componentsFrom_all e : componentsFrom (length e) 0 e = e.
Proof. apply (componentsFrom_app [] e). Qed.

(** The same with the buffer, the offset and the length given up to
    equations, as they come up in the loops. *)
Lemma viewBytes_at (buffer pre bs post : list Byte.byte) offset n :
  buffer = pre ++ bs ++ post -> offset = len pre -> n = len bs ->
  viewBytes buffer offset n = Some bs.
Proof. intros -> -> ->. apply viewBytes_app. Qed.

Ltac len_norm :=
  rewrite ?len_app, ?len_le_bytes, ?len_float32Bytes, ?len_float64Bytes,
    ?len_embeddingBytes.

Lemma readEmbedding_image fuel i e (buffer pre post : list Byte.byte) offset :
  buffer = pre ++ embeddingBytes fuel i e ++ post -> offset = len pre ->
  readEmbedding fuel buffer offset
  = Some ((fun x => fround (fround x)) <$> componentsFrom fuel i e,
          offset + 4 * Z.of_nat fuel).
Proof.
  revert i pre offset. induction fuel as [|fuel IH]; intros i pre offset Hb Ho.
  - simpl. do 2 f_equal. lia.
  - cbn [readEmbedding componentsFrom]. cbn [embeddingBytes] in Hb.
    unfold getFloat32.
    rewrite (viewBytes_at buffer pre (float32Bytes (default num_nan (array_get e i)))
               (embeddingBytes fuel (i + 1) e ++ post));
      [|by rewrite Hb, <- app_assoc|done|by len_norm].
    cbn [fmap option_fmap option_map mbind option_bind].
    rewrite (IH (i + 1) (pre ++ float32Bytes (default num_nan (array_get e i))));
      [|by rewrite Hb, <- !app_assoc|len_norm; lia].
    cbn [mbind option_bind]. rewrite fmap_cons. do 2 f_equal. lia.
Qed.

Lemma readRecords_image utf8_decode dimension vectorData acc
    (buffer pre post : list Byte.byte) offset :
  0 <= dimension ->
  Forall (fun vp => len vp.2 < 2 ^ 32) vectorData ->
  buffer = pre ++ recordsBytes dimension vectorData ++ post -> offset = len pre ->
  readRecords utf8_decode (length vectorData) dimension buffer offset acc
  = Some (acc ++ (decoded utf8_decode dimension <$> vectorData),
          offset + len (recordsBytes dimension vectorData)).
Proof.
  intros Hd Hfit. revert acc pre offset.
  induction Hfit as [|[v pathBytes] rest Hp Hfit IH]; intros acc pre offset Hb Ho.
  - simpl. rewrite app_nil_r. do 2 f_equal. unfold len; simpl; lia.
  - cbn [length readRecords]. rewrite length_recordsBytes_cons in Hb.
    unfold recordBytes in Hb. simpl in Hp.
    unfold getUint32.
    rewrite (viewBytes_at buffer pre (le_bytes 4 (len pathBytes))
               (pathBytes ++ float64Bytes (mtime v)
                ++ embeddingBytes (Z.to_nat dimension) 0 (embedding v)
                ++ recordsBytes dimension rest ++ post));
      [|by rewrite Hb, <- !app_assoc|done|by len_norm].
    cbn [fmap option_fmap option_map mbind option_bind].
    rewrite le_value_uint32 by (pose proof (len_nonneg pathBytes); lia).
    rewrite (viewBytes_at buffer (pre ++ le_bytes 4 (len pathBytes)) pathBytes
               (float64Bytes (mtime v)
                ++ embeddingBytes (Z.to_nat dimension) 0 (embedding v)
                ++ recordsBytes dimension rest ++ post));
      [|by rewrite Hb, <- !app_assoc|len_norm; lia|done].
    cbn [mbind option_bind]. unfold getFloat64.
    rewrite (viewBytes_at buffer ((pre ++ le_bytes 4 (len pathBytes)) ++ pathBytes)
               (float64Bytes (mtime v))
               (embeddingBytes (Z.to_nat dimension) 0 (embedding v)
                ++ recordsBytes dimension rest ++ post));
      [|by rewrite Hb, <- !app_assoc|len_norm; lia|by len_norm].
    cbn [fmap option_fmap option_map mbind option_bind].
    rewrite (readEmbedding_image _ 0 (embedding v) buffer
               (((pre ++ le_bytes 4 (len pathBytes)) ++ pathBytes)
                ++ float64Bytes (mtime v))
               (recordsBytes dimension rest ++ post));
      [|by rewrite Hb, <- !app_assoc|len_norm; lia].
    cbn [mbind option_bind].
    rewrite (IH _ ((((pre ++ le_bytes 4 (len pathBytes)) ++ pathBytes)
                    ++ float64Bytes (mtime v))
                   ++ embeddingBytes (Z.to_nat dimension) 0 (embedding v)));
      [|by rewrite Hb, <- !app_assoc|len_norm; lia].
    rewrite fmap_cons, <- app_assoc. cbn [app].
    f_equal. f_equal.
    rewrite length_recordsBytes_cons. unfold recordBytes. len_norm. lia.
Qed.

Lemma getUint8_at (buffer pre post : list Byte.byte) b offset :
  buffer = pre ++ b :: post -> offset = len pre ->
  getUint8 buffer offset = Some (Z_of_byte b).
Proof.
  intros Hb Ho. unfold getUint8.
  rewrite (viewBytes_at buffer pre [b] post); [|done..].
  simpl. f_equal. lia.
Qed.

Lemma getUint32_at (buffer pre post : list Byte.byte) z offset :
  buffer = pre ++ le_bytes 4 z ++ post -> offset = len pre -> 0 <= z < 2 ^ 32 ->
  getUint32 buffer offset = Some z.
Proof.
  intros Hb Ho Hz. unfold getUint32.
  rewrite (viewBytes_at buffer pre (le_bytes 4 z) post); [|done|done|by len_norm].
  cbn [fmap option_fmap option_map]. by rewrite le_value_uint32.
Qed.

Lemma len_magicBytes : len magicBytes = 4.
Proof. reflexivity. Qed.

(** The reader on an image of the format: every record comes back, behind
    the records that were in the array already. *)
Lemma parseBinary_image utf8_encode utf8_decode dimension vs acc :
  fits_uint32 utf8_encode dimension vs ->
  parseBinary utf8_decode (imageBytes utf8_encode dimension vs) acc
  = Ok (acc ++ (decoded utf8_decode dimension
                  <$> ((fun v => (v, utf8_encode (path v))) <$> vs))).
Proof.
  intros (Hn & Hd & Hp). unfold parseBinary.
  set (vectorData := (fun v => (v, utf8_encode (path v))) <$> vs).
  set (buffer := imageBytes utf8_encode dimension vs).
  set (tail := le_bytes 4 (len vs) ++ le_bytes 4 dimension
               ++ recordsBytes dimension vectorData).
  rewrite (getUint8_at buffer [] (byte_of_Z 69 :: byte_of_Z 67 :: byte_of_Z 49 :: tail)
             (byte_of_Z 86) 0); [|done..].
  rewrite (getUint8_at buffer [byte_of_Z 86] (byte_of_Z 67 :: byte_of_Z 49 :: tail)
             (byte_of_Z 69) 1); [|done..].
  rewrite (getUint8_at buffer [byte_of_Z 86; byte_of_Z 69] (byte_of_Z 49 :: tail)
             (byte_of_Z 67) 2); [|done..].
  rewrite (getUint8_at buffer [byte_of_Z 86; byte_of_Z 69; byte_of_Z 67] tail
             (byte_of_Z 49) 3); [|done..].
  rewrite !Z_of_byte_of_Z.
  change (negb (fromCharCode [86 mod 256; 69 mod 256; 67 mod 256; 49 mod 256]
                =? "VEC1")%string) with false. cbv iota.
  rewrite (getUint32_at buffer magicBytes
             (le_bytes 4 dimension ++ recordsBytes dimension vectorData) (len vs) 4);
    [|reflexivity|reflexivity|pose proof (len_nonneg vs); lia].
  cbn [mbind option_bind].
  rewrite (getUint32_at buffer (magicBytes ++ le_bytes 4 (len vs))
             (recordsBytes dimension vectorData) dimension 8);
    [|by unfold buffer, imageBytes; rewrite <- !app_assoc|by len_norm|done].
  cbn [mbind option_bind].
  replace (Z.to_nat (len vs)) with (length vectorData)
    by (unfold vectorData, len; rewrite length_fmap; lia).
  rewrite (readRecords_image utf8_decode dimension vectorData acc buffer
             ((magicBytes ++ le_bytes 4 (len vs)) ++ le_bytes 4 dimension) [] 12);
    [done|lia| |by unfold buffer, imageBytes; rewrite app_nil_r, <- !app_assoc
             |by len_norm].
  unfold vectorData. apply Forall_fmap. by eapply Forall_impl.
Qed.

(** Under the conditions of [storable] the reader returns the very
    records that were written. *)
Lemma decoded_storable utf8_encode utf8_decode dimension v :
  len (embedding v) = dimension ->
  forallb is_float32 (embedding v) = true ->
  valid64 (mtime v) = true ->
  utf8_decode (utf8_encode (path v)) = path v ->
  decoded utf8_decode dimension (v, utf8_encode (path v)) = v.
Proof.
  intros Hdim Hf Hm Hp. unfold decoded. cbn [fst snd].
  rewrite Hp, (float64_bits_roundtrip _ Hm).
  replace (Z.to_nat dimension) with (length (embedding v)) by (unfold len in Hdim; lia).
  rewrite componentsFrom_all.
  destruct v as [p e m]. simpl in *. f_equal.
  clear -Hf. induction e as [|x e IH]; [done|].
  simpl in Hf. apply andb_true_iff in Hf as [Hx He].
  rewrite fmap_cons, IH by done. by rewrite !(is_float32_fround x Hx).
Qed.

Lemma decoded_reloaded utf8_encode utf8_decode dimension v :
  len (embedding v) = dimension ->
  valid64 (mtime v) = true ->
  decoded utf8_decode dimension (v, utf8_encode (path v))
  = reloaded utf8_encode utf8_decode v.
Proof.
  intros Hdim Hm. unfold decoded, reloaded. cbn [fst snd].
  rewrite (float64_bits_roundtrip _ Hm).
  replace (Z.to_nat dimension) with (length (embedding v)) by (unfold len in Hdim; lia).
  by rewrite componentsFrom_all.
Qed.

(* ================================================================== *)
(** * Buffers the reader rejects *)
(* ================================================================== *)

Lemma ascii_of_byte_value b : ascii_of_N (Z.to_N (Z_of_byte b)) = ascii_of_byte b.
Proof. unfold Z_of_byte. by rewrite N2Z.id, Ascii.ascii_of_byte_via_N. Qed.

Lemma getUint8_None_short (buffer : list Byte.byte) offset :
  len buffer <= offset -> getUint8 buffer offset = None.
Proof.
  intros H. unfold getUint8, viewBytes.
  destruct (Z.leb_spec (offset + 1) (Z.of_nat (length buffer))); [unfold len in H; lia|].
  by rewrite andb_false_r.
Qed.

(** A buffer that does not start with "VEC1" is not parsed: the reader
    throws, either for the format or, on fewer than four bytes, for the
    range. *)
Lemma parseBinary_bad_magic utf8_decode (buffer : list Byte.byte) acc :
  take 4 buffer <> magicBytes ->
  parseBinary utf8_decode buffer acc = Err InvalidFormat
  \/ parseBinary utf8_decode buffer acc = Err RangeError.
Proof.
  intros Hmagic. unfold parseBinary.
  destruct buffer as [|b0 [|b1 [|b2 [|b3 rest]]]].
  - right. by rewrite (getUint8_None_short [] 0).
  - right. rewrite (getUint8_None_short [b0] 1) by done.
    by destruct (getUint8 [b0] 0).
  - right. rewrite (getUint8_None_short [b0; b1] 2) by done.
    by destruct (getUint8 [b0; b1] 0), (getUint8 [b0; b1] 1).
  - right. rewrite (getUint8_None_short [b0; b1; b2] 3) by done.
    by destruct (getUint8 [b0; b1; b2] 0), (getUint8 [b0; b1; b2] 1),
         (getUint8 [b0; b1; b2] 2).
  - rewrite (getUint8_at _ [] (b1 :: b2 :: b3 :: rest) b0 0) by done.
    rewrite (getUint8_at _ [b0] (b2 :: b3 :: rest) b1 1) by done.
    rewrite (getUint8_at _ [b0; b1] (b3 :: rest) b2 2) by done.
    rewrite (getUint8_at _ [b0; b1; b2] rest b3 3) by done.
    destruct (String.eqb_spec
                (fromCharCode [Z_of_byte b0; Z_of_byte b1; Z_of_byte b2; Z_of_byte b3])
                "VEC1") as [Heq|_]; [exfalso|by left].
    apply Hmagic. unfold fromCharCode in Heq. cbn [fmap list_fmap string_of_list_ascii] in Heq.
    rewrite !ascii_of_byte_value in Heq.
    injection Heq as H0 H1 H2 H3.
    apply (f_equal byte_of_ascii) in H0, H1, H2, H3.
    rewrite byte_of_ascii_of_byte in H0, H1, H2, H3. by subst.
Qed.

(** Reads that succeed on a buffer stay inside it, and succeed alike on
    every extension of the buffer. *)
Lemma view_fmap_extend {A} (f : list Byte.byte -> A) buffer extra offset n x :
  f <$> viewBytes buffer offset n = Some x ->
  offset + n <= len buffer
  /\ f <$> viewBytes (buffer ++ extra) offset n = Some x.
Proof.
  destruct (viewBytes buffer offset n) as [bs|] eqn:Hv; [|done].
  intros Hx. rewrite (viewBytes_extend _ extra _ _ _ Hv).
  apply viewBytes_Some in Hv as (_ & _ & Hr & _). done.
Qed.

Lemma readEmbedding_extend fuel buffer extra offset r offset' :
  readEmbedding fuel buffer offset = Some (r, offset') ->
  offset <= len buffer ->
  offset' <= len buffer
  /\ readEmbedding fuel (buffer ++ extra) offset = Some (r, offset').
Proof.
  revert offset r offset'. induction fuel as [|fuel IH]; intros offset r offset'.
  - simpl. intros [= <- <-]. done.
  - cbn [readEmbedding]. unfold getFloat32.
    destruct (_ <$> viewBytes buffer offset 4) as [x|] eqn:Hx; [|done].
    apply (view_fmap_extend _ _ extra) in Hx as [Hr ->].
    cbn [mbind option_bind].
    destruct (readEmbedding fuel buffer (offset + 4)) as [[xs o]|] eqn:Hrest; [|done].
    cbn [mbind option_bind]. intros [= <- <-] _.
    destruct (IH _ _ _ Hrest Hr) as [Ho ->]. done.
Qed.

Lemma readRecords_extend utf8_decode fuel dimension buffer extra offset acc r offset' :
  readRecords utf8_decode fuel dimension buffer offset acc = Some (r, offset') ->
  offset <= len buffer ->
  offset' <= len buffer
  /\ readRecords utf8_decode fuel dimension (buffer ++ extra) offset acc
     = Some (r, offset').
Proof.
  revert offset acc r offset'. induction fuel as [|fuel IH]; intros offset acc r offset'.
  - simpl. intros [= <- <-]. done.
  - cbn [readRecords]. unfold getUint32, getFloat64.
    destruct (le_value <$> viewBytes buffer offset 4) as [pathLen|] eqn:H1; [|done].
    apply (view_fmap_extend _ _ extra) in H1 as [_ ->].
    cbn [mbind option_bind].
    destruct (viewBytes buffer (offset + 4) pathLen) as [pathBytes|] eqn:H2; [|done].
    rewrite (viewBytes_extend _ extra _ _ _ H2). cbn [mbind option_bind].
    destruct (_ <$> viewBytes buffer (offset + 4 + pathLen) 8) as [m|] eqn:H3; [|done].
    apply (view_fmap_extend _ _ extra) in H3 as [Hr3 ->].
    cbn [mbind option_bind].
    destruct (readEmbedding (Z.to_nat dimension) buffer (offset + 4 + pathLen + 8))
      as [[e o]|] eqn:H4; [|done].
    destruct (readEmbedding_extend _ _ extra _ _ _ H4 Hr3) as [Ho ->].
    cbn [mbind option_bind]. intros Hrest _. by apply IH.
Qed.

(** A proper prefix of an image is not parsed: some read runs past its
    end. *)
Lemma parseBinary_truncated utf8_encode utf8_decode (buffer : list Byte.byte) acc :
  truncated_image utf8_encode buffer ->
  exists e, parseBinary utf8_decode buffer acc = Err e.
Proof.
  intros (first & rest & extra & Hextra & (Hn' & Hd' & Hp') & Himage).
  rewrite binaryImage_spec in Himage. injection Himage as Himage.
  set (dimension := len (embedding first)) in *.
  set (vs := first :: rest) in *.
  set (vectorData := (fun v => (v, utf8_encode (path v))) <$> vs).
  destruct (parseBinary utf8_decode buffer acc) as [r|e] eqn:Hparse; [exfalso|by eexists].
  revert Hparse. unfold parseBinary.
  destruct (getUint8 buffer 0) as [c0|]; [|done].
  destruct (getUint8 buffer 1) as [c1|]; [|done].
  destruct (getUint8 buffer 2) as [c2|]; [|done].
  destruct (getUint8 buffer 3) as [c3|]; [|done].
  destruct (negb _); [done|].
  destruct (getUint32 buffer 4) as [numVectors|] eqn:Hn; [|done].
  destruct (getUint32 buffer 8) as [dim|] eqn:Hd; [|done].
  cbn [mbind option_bind].
  destruct (readRecords utf8_decode (Z.to_nat numVectors) dim buffer 12 acc)
    as [[r' o]|] eqn:Hrec; [|done].
  intros _. unfold getUint32 in Hn, Hd.
  apply (view_fmap_extend _ _ extra) in Hn as [_ Hn].
  apply (view_fmap_extend _ _ extra) in Hd as [Hlen Hd].
  destruct (readRecords_extend _ _ _ _ extra _ _ _ _ Hrec ltac:(lia)) as [Ho Hext].
  fold (getUint32 (buffer ++ extra) 4) in Hn.
  fold (getUint32 (buffer ++ extra) 8) in Hd.
  assert (Himg : buffer ++ extra
                 = magicBytes ++ le_bytes 4 (len vs) ++ le_bytes 4 dimension
                   ++ recordsBytes dimension vectorData) by done.
  rewrite (getUint32_at (buffer ++ extra) magicBytes
             (le_bytes 4 dimension ++ recordsBytes dimension vectorData) (len vs) 4)
    in Hn; [|done|reflexivity|pose proof (len_nonneg vs); lia].
  injection Hn as <-.
  rewrite (getUint32_at (buffer ++ extra) (magicBytes ++ le_bytes 4 (len vs))
             (recordsBytes dimension vectorData) dimension 8)
    in Hd; [|by rewrite Himg, <- !app_assoc|by len_norm|done].
  injection Hd as <-.
  replace (Z.to_nat (len vs)) with (length vectorData) in Hext
    by (unfold vectorData, len; rewrite length_fmap; lia).
  rewrite (readRecords_image utf8_decode dimension vectorData acc (buffer ++ extra)
             ((magicBytes ++ le_bytes 4 (len vs)) ++ le_bytes 4 dimension) [] 12)
    in Hext;
    [|lia|unfold vectorData; apply Forall_fmap; by eapply Forall_impl
     |by rewrite Himg, app_nil_r, <- !app_assoc|by len_norm].
  injection Hext as _ Hoff.
  assert (Hlenimg : len (buffer ++ extra) = 12 + len (recordsBytes dimension vectorData)).
  { rewrite Himg. len_norm. rewrite len_magicBytes. lia. }
  rewrite len_app in Hlenimg.
  assert (0 < len extra) by (destruct extra; [done|unfold len; simpl; lia]).
  lia.
Qed.

(** Bytes behind the data the reader asks for change nothing. *)
Lemma parseBinary_extend utf8_decode (buffer extra : list Byte.byte) acc r :
  parseBinary utf8_decode buffer acc = Ok r ->
  parseBinary utf8_decode (buffer ++ extra) acc = Ok r.
Proof.
  unfold parseBinary.
  destruct (getUint8 buffer 0) as [c0|] eqn:H0; [|done].
  destruct (getUint8 buffer 1) as [c1|] eqn:H1; [|by destruct (getUint8 buffer 0)].
  destruct (getUint8 buffer 2) as [c2|] eqn:H2; [|done].
  destruct (getUint8 buffer 3) as [c3|] eqn:H3; [|done].
  unfold getUint8 in *.
  apply (view_fmap_extend _ _ extra) in H0 as [_ ->].
  apply (view_fmap_extend _ _ extra) in H1 as [_ ->].
  apply (view_fmap_extend _ _ extra) in H2 as [_ ->].
  apply (view_fmap_extend _ _ extra) in H3 as [_ ->].
  destruct (negb _); [done|]. unfold getUint32.
  destruct (le_value <$> viewBytes buffer 4 4) as [numVectors|] eqn:Hn; [|done].
  apply (view_fmap_extend _ _ extra) in Hn as [_ ->].
  cbn [mbind option_bind].
  destruct (le_value <$> viewBytes buffer 8 4) as [dim|] eqn:Hd; [|done].
  apply (view_fmap_extend _ _ extra) in Hd as [Hlen ->].
  cbn [mbind option_bind].
  destruct (readRecords utf8_decode (Z.to_nat numVectors) dim buffer 12 acc)
    as [[r' o]|] eqn:Hrec; [|done].
  destruct (readRecords_extend _ _ _ _ extra _ _ _ _ Hrec ltac:(lia)) as [_ ->].
  done.
Qed.

(* ================================================================== *)
(** * Saving and loading in binary format *)
(* ================================================================== *)

Lemma loadVectors_binary_present utf8_decode (s : Service) buffer :
  format s = FormatBinary -> binaryFile (disk s) = Some buffer ->
  loadVectors utf8_decode s
  = match parseBinary utf8_decode buffer [] with
    | Ok vs => log (LogLoaded FormatBinary (len vs)) (set_vectors vs (set_vectors [] s))
    | Err e => set_vectors [] (log (ErrLoadFailed FormatBinary e) (set_vectors [] s))
    end.
Proof.
  intros Hf Hb. unfold loadVectors. cbn [set_vectors format disk].
  rewrite Hf, Hb. unfold loadVectorsBinary. cbn [set_vectors disk vectors].
  by rewrite Hb.
Qed.

(** C9, as the code has it.  The reader checks the four magic bytes and
    the bounds of its reads, and nothing else.  A file in [vectors.bin]
    that does not start with the bytes "VEC1", or that is a proper prefix
    of a file written by [saveVectorsBinary], is loaded as the empty store:
    [loadVectors] returns, the store is empty, the failure is on the console
    as an error line, and nothing else has changed.  A file that starts with
    the magic bytes, a record count, a dimension and as many records as the
    count says is loaded as these records, with no error line, whatever
    follows the records and whether or not the file is one the writer could
    have written.  In every case [loadVectors] returns, with one or the
    other line on the console. *)
Theorem loadVectors_rejects_malformed_buffer
    (utf8_encode : string -> list Byte.byte) (utf8_decode : list Byte.byte -> string)
    (s : Service) (buffer : list Byte.byte) :
  format s = FormatBinary ->
  binaryFile (disk s) = Some buffer ->
  (take 4 buffer <> magicBytes \/ truncated_image utf8_encode buffer ->
   exists e,
     loadVectors utf8_decode s
     = set_vectors [] (log (ErrLoadFailed FormatBinary e) (set_vectors [] s))
     /\ vectors (loadVectors utf8_decode s) = []
     /\ console (loadVectors utf8_decode s) = console s ++ [ErrLoadFailed FormatBinary e])
  /\ (forall dimension vs extra,
        fits_uint32 utf8_encode dimension vs ->
        buffer = imageBytes utf8_encode dimension vs ++ extra ->
        vectors (loadVectors utf8_decode s)
        = decoded utf8_decode dimension <$> ((fun v => (v, utf8_encode (path v))) <$> vs)
        /\ console (loadVectors utf8_decode s)
           = console s ++ [LogLoaded FormatBinary (len vs)])
  /\ ((exists e,
         vectors (loadVectors utf8_decode s) = []
         /\ console (loadVectors utf8_decode s)
            = console s ++ [ErrLoadFailed FormatBinary e])
      \/ (exists vs,
            vectors (loadVectors utf8_decode s) = vs
            /\ console (loadVectors utf8_decode s)
               = console s ++ [LogLoaded FormatBinary (len vs)])).
Proof.
  intros Hf Hb. rewrite (loadVectors_binary_present _ _ _ Hf Hb).
  split; [|split].
  - intros Hbad.
    assert (Herr : exists e, parseBinary utf8_decode buffer [] = Err e).
    { destruct Hbad as [Hmagic|Htrunc].
      - destruct (parseBinary_bad_magic utf8_decode buffer [] Hmagic); eauto.
      - by eapply parseBinary_truncated. }
    destruct Herr as [e He]. exists e. by rewrite He.
  - intros dimension vs extra Hfit ->.
    rewrite (parseBinary_extend _ _ extra _ _
               (parseBinary_image utf8_encode utf8_decode dimension vs [] Hfit)).
    cbn [log set_vectors vectors console app]. unfold len. by rewrite !length_fmap.
  - destruct (parseBinary utf8_decode buffer []) as [vs|e]; [right|left]; eauto.
Qed.

Lemma loadVectors_rejects_malformed_buffer_witness :
  vectors (loadVectors ascii_decode foreignService) = []
  /\ console (loadVectors ascii_decode foreignService)
     = [ErrLoadFailed FormatBinary InvalidFormat].
Proof.
  assert (Hf : format foreignService = FormatBinary) by reflexivity.
  assert (Hb : binaryFile (disk foreignService) = Some foreignFile) by reflexivity.
  assert (Hm : take 4 foreignFile <> magicBytes) by (vm_compute; discriminate).
  destruct (loadVectors_rejects_malformed_buffer ascii_encode ascii_decode
              foreignService foreignFile Hf Hb) as (Hrej & _ & _).
  destruct (Hrej (or_introl Hm)) as (e & Heq & Hv & Hc).
  split; [exact Hv|]. vm_compute. reflexivity.
Defined.

Lemma length_componentsFrom fuel i e : length (componentsFrom fuel i e) = fuel.
Proof. revert i. induction fuel as [|fuel IH]; intros i; simpl; [done|]. by rewrite IH. Qed.

(** [patchedFile] is no file of the format: no list of records, of any
    dimension, has it as its image. *)
Lemma patchedFile_not_an_image dimension vs :
  fits_uint32 ascii_encode dimension vs ->
  patchedFile <> imageBytes ascii_encode dimension vs.
Proof.
  intros Hfit Himage.
  assert (Hparse : parseBinary ascii_decode patchedFile [] = Ok [noteA])
    by (vm_compute; reflexivity).
  rewrite Himage, (parseBinary_image _ _ _ _ _ Hfit) in Hparse.
  injection Hparse as Hparse. cbn [app] in Hparse.
  destruct vs as [|v [|v' vs]]; [done| |done].
  cbn in Hparse. injection Hparse as Hpath Hembedding _.
  unfold ascii_decode, ascii_encode in Hpath.
  rewrite string_of_list_byte_of_string in Hpath.
  apply (f_equal length) in Hembedding.
  rewrite length_fmap, length_componentsFrom in Hembedding. cbn in Hembedding.
  apply (f_equal length) in Himage. revert Himage.
  unfold imageBytes. cbn [fmap list_fmap]. rewrite length_recordsBytes_cons.
  rewrite !length_app, !length_le_bytes, length_recordBytes, Hembedding, Hpath.
  vm_compute. discriminate.
Qed.

(** C9 as stated fails: the file of a saved store, with its record count
    changed from 2 to 1, is not a file of the format, and yet it is loaded,
    as a store of one record and without any error line. *)
Lemma malformed_buffer_loads_without_warning :
  ~ (forall (s : Service) (buffer : list Byte.byte),
       format s = FormatBinary ->
       binaryFile (disk s) = Some buffer ->
       (forall dimension vs, fits_uint32 ascii_encode dimension vs ->
                             buffer <> imageBytes ascii_encode dimension vs) ->
       vectors (loadVectors ascii_decode s) = []
       /\ exists e, ErrLoadFailed FormatBinary e ∈ console (loadVectors ascii_decode s)).
Proof.
  intros H.
  destruct (H patchedService patchedFile eq_refl eq_refl patchedFile_not_an_image)
    as [Hempty _].
  vm_compute in Hempty. discriminate Hempty.
Qed.

(** What [saveVectors] does in binary format on a store that is not empty. *)
Lemma saveVectors_binary_nonempty utf8_encode (s : Service) first rest :
  format s = FormatBinary -> vectors s = first :: rest ->
  exists s',
    saveVectors utf8_encode s = (Ok tt, s')
    /\ format s' = FormatBinary
    /\ vectors s' = vectors s
    /\ disk s' = mkDisk (Some (imageBytes utf8_encode (len (embedding first)) (vectors s)))
                        None.
Proof.
  intros Hf Hv. unfold saveVectors, saveVectorsBinary. rewrite Hf, Hv.
  rewrite binaryImage_spec. cbn [set_disk log disk jsonFile vectors].
  destruct (jsonFile (disk s)); eexists; (split; [reflexivity|]); simpl; by rewrite ?Hv.
Qed.

(** Saving, then loading: every record comes back as [reloaded] has it. *)
Lemma save_load_reloaded utf8_encode utf8_decode (s : Service) first rest :
  format s = FormatBinary -> vectors s = first :: rest ->
  fits_uint32 utf8_encode (len (embedding first)) (vectors s) ->
  Forall (fun v => len (embedding v) = len (embedding first)
                   /\ valid64 (mtime v) = true) (vectors s) ->
  (saveVectors utf8_encode s).1 = Ok tt
  /\ vectors (loadVectors utf8_decode (saveVectors utf8_encode s).2)
     = reloaded utf8_encode utf8_decode <$> vectors s.
Proof.
  intros Hf Hv Hfit Hrec.
  destruct (saveVectors_binary_nonempty utf8_encode s first rest Hf Hv)
    as (s' & -> & Hf' & Hv' & Hd').
  split; [done|]. cbn [snd].
  rewrite (loadVectors_binary_present utf8_decode s' _ Hf'
             ltac:(by rewrite Hd')).
  rewrite (parseBinary_image _ _ _ _ _ Hfit). cbn [log set_vectors vectors app].
  rewrite <- list_fmap_compose. apply Forall_fmap_ext_1.
  eapply Forall_impl; [exact Hrec|]. intros v [Hdim Hm]. cbn [compose].
  by apply decoded_reloaded.
Qed.

Lemma reloaded_storable utf8_encode utf8_decode v :
  forallb is_float32 (embedding v) = true ->
  utf8_decode (utf8_encode (path v)) = path v ->
  reloaded utf8_encode utf8_decode v = v.
Proof.
  intros Hf Hp. unfold reloaded. rewrite Hp. destruct v as [p e m]. simpl in *.
  f_equal. clear -Hf. induction e as [|x e IH]; [done|].
  simpl in Hf. apply andb_true_iff in Hf as [Hx He].
  rewrite fmap_cons, IH by done. by rewrite !(is_float32_fround x Hx).
Qed.

(** C1, as the code has it.  In binary format, saving a store that is not
    empty and loading it again gives the same records, in the same order,
    provided the store is one the format can hold: all embeddings of the
    dimension of the first, every component a 32-bit float, every
    modification time a binary64 value, every path unchanged by the UTF-8
    codec, and the sizes within 32 bits.  Saving the empty store writes
    nothing at all: the files stay as they are. *)
Theorem binary_save_load_roundtrip
    (utf8_encode : string -> list Byte.byte) (utf8_decode : list Byte.byte -> string)
    (s : Service) :
  format s = FormatBinary ->
  (forall first rest,
     vectors s = first :: rest ->
     storable utf8_encode utf8_decode (len (embedding first)) (vectors s) ->
     (saveVectors utf8_encode s).1 = Ok tt
     /\ vectors (loadVectors utf8_decode (saveVectors utf8_encode s).2) = vectors s)
  /\ (vectors s = [] -> saveVectors utf8_encode s = (Ok tt, s)).
Proof.
  intros Hf. split.
  - intros first rest Hv (Hfit & Hrec).
    destruct (save_load_reloaded utf8_encode utf8_decode s first rest Hf Hv Hfit)
      as [Hok Hload].
    { eapply Forall_impl; [exact Hrec|]. by intros v (? & _ & ? & _). }
    split; [done|]. rewrite Hload.
    rewrite <- (list_fmap_id (vectors s)) at 2. apply Forall_fmap_ext_1.
    eapply Forall_impl; [exact Hrec|]. intros v (_ & Hfl & _ & Hp).
    by apply reloaded_storable.
  - intros Hv. unfold saveVectors, saveVectorsBinary. by rewrite Hf, Hv.
Qed.

Lemma binary_save_load_roundtrip_witness :
  vectors (loadVectors ascii_decode
             (saveVectors ascii_encode
                (set_vectors [noteA; noteB] (newService FormatBinary))).2)
  = [noteA; noteB].
Proof.
  apply (proj1 (binary_save_load_roundtrip ascii_encode ascii_decode
                  (set_vectors [noteA; noteB] (newService FormatBinary)) eq_refl)
           noteA [noteB] eq_refl).
  split; [split; [|split]|].
  - vm_compute. reflexivity.
  - vm_compute. split; [discriminate|reflexivity].
  - repeat constructor.
  - repeat constructor; vm_compute; reflexivity.
Defined.

(** C1 as stated fails on the empty store: after every record has been
    removed from the in-memory store, saving leaves the earlier file in
    place, and loading brings its records back. *)
Lemma empty_store_is_not_saved :
  ~ (forall s : Service,
       format s = FormatBinary ->
       (exists dimension,
          storable ascii_encode ascii_decode dimension (vectors s)) ->
       vectors (loadVectors ascii_decode (saveVectors ascii_encode s).2) = vectors s).
Proof.
  intros H. specialize (H emptiedService eq_refl).
  assert (Hst : exists dimension,
             storable ascii_encode ascii_decode dimension (vectors emptiedService)).
  { exists 2. split; [split; [|split]|]; [vm_compute; reflexivity|lia|constructor..]. }
  specialize (H Hst). vm_compute in H. discriminate.
Qed.

(* ================================================================== *)
(** * Sorting with a comparator *)
(* ================================================================== *)

Section Sorting.

Context {A : Type}.
Variable comparator : A -> A -> number.

Lemma sort_insert_perm x (l : list A) : sort_insert comparator x l ≡ₚ x :: l.
Proof.
  induction l as [|y l IH]; simpl; [done|].
  destruct (num_is_pos (comparator x y)); [|done].
  rewrite IH. apply Permutation_swap.
Qed.

(** [sort] reorders, it neither drops nor invents elements, whatever the
    comparator answers. *)
Lemma array_sort_perm (l : list A) : array_sort comparator l ≡ₚ l.
Proof.
  induction l as [|x l IH]; simpl; [done|].
  rewrite sort_insert_perm. by rewrite IH.
Qed.

(** The comparator is an order: it is positive on [x], [y] exactly when
    the key of [x] is below that of [y], for the elements that satisfy
    [ok]. *)
Variable key : A -> Z.
Variable ok : A -> Prop.
Hypothesis comparator_key :
  forall x y, ok x -> ok y ->
    (num_is_pos (comparator x y) = true <-> key x < key y).

Lemma sort_insert_sorted x (l : list A) :
  ok x -> Forall ok l ->
  StronglySorted (fun a b => key b <= key a) l ->
  StronglySorted (fun a b => key b <= key a) (sort_insert comparator x l).
Proof.
  intros Hx Hok Hs. induction Hs as [|y l Hs IH Hy]; simpl.
  - repeat constructor.
  - apply Forall_cons in Hok as [Hoky Hok].
    destruct (num_is_pos (comparator x y)) eqn:Hc.
    + apply comparator_key in Hc; [|done..].
      constructor; [by apply IH|].
      rewrite sort_insert_perm. constructor; [lia|done].
    + assert (key y <= key x).
      { destruct (Z.le_gt_cases (key y) (key x)) as [|Hlt]; [done|].
        apply comparator_key in Hlt; [congruence|done..]. }
      constructor; [by constructor|].
      constructor; [done|]. eapply Forall_impl; [exact Hy|]. simpl. lia.
Qed.

Lemma array_sort_ok (l : list A) : Forall ok l -> Forall ok (array_sort comparator l).
Proof. intros H. by rewrite array_sort_perm. Qed.

(** Descending by key. *)
Lemma array_sort_sorted (l : list A) :
  Forall ok l ->
  StronglySorted (fun a b => key b <= key a) (array_sort comparator l).
Proof.
  induction 1 as [|x l Hx Hok IH]; simpl; [constructor|].
  apply sort_insert_sorted; [done| |done]. by apply array_sort_ok.
Qed.

Lemma sort_insert_filter c x (l : list A) :
  ok x -> Forall ok l ->
  filter (fun a => key a = c) (sort_insert comparator x l)
  = filter (fun a => key a = c) (x :: l).
Proof.
  intros Hx Hok. induction Hok as [|y l Hy Hok IH]; simpl; [done|].
  destruct (num_is_pos (comparator x y)) eqn:Hc; [|done].
  apply comparator_key in Hc; [|done..].
  rewrite (filter_cons _ y), IH, !(filter_cons _ x), (filter_cons _ y).
  destruct (decide (key y = c)), (decide (key x = c)); try done. lia.
Qed.

(** Stable: the elements of one key keep the order they came in. *)
Lemma array_sort_stable c (l : list A) :
  Forall ok l ->
  filter (fun a => key a = c) (array_sort comparator l)
  = filter (fun a => key a = c) l.
Proof.
  induction 1 as [|x l Hx Hok IH]; simpl; [done|].
  rewrite sort_insert_filter by (done || by apply array_sort_ok).
  by rewrite !filter_cons, IH.
Qed.

End Sorting.

Lemma slice0_zero {A} (l : list A) : slice0 0 l = [].
Proof. reflexivity. Qed.

Lemma slice0_nonneg {A} k (l : list A) : 0 <= k -> slice0 k l = take (Z.to_nat k) l.
Proof. unfold slice0. intros. by destruct (Z.ltb_spec k 0); [lia|]. Qed.

Lemma StronglySorted_take {A} (R : A -> A -> Prop) n (l : list A) :
  StronglySorted R l -> StronglySorted R (take n l).
Proof.
  intros Hs. revert n. induction Hs as [|x l Hs IH Hx]; intros [|n]; simpl;
    try constructor; [done|]. apply Forall_take. done.
Qed.

(* ================================================================== *)
(** * Subtraction and the order of numbers *)
(* ================================================================== *)

(** ** Rounding never turns a positive integer into zero *)

Lemma shr_1_m mrs : 0 <= shr_m mrs -> shr_m (shr_1 mrs) = shr_m mrs / 2.
Proof.
  destruct mrs as [m r s]. simpl. intros Hm. rewrite <- Z.div2_div.
  destruct m as [|[p|p|]|p]; (done || lia).
Qed.

Lemma iter_pos_shr_1_m n mrs :
  0 <= shr_m mrs ->
  shr_m (SpecFloat.iter_pos shr_1 n mrs) = shr_m mrs / 2 ^ Z.pos n.
Proof.
  revert mrs. induction n as [n IH|n IH|]; intros mrs Hm; cbn [SpecFloat.iter_pos].
  - assert (H1 : 0 <= shr_m (shr_1 mrs)).
    { rewrite shr_1_m by done. by apply Z.div_pos. }
    assert (H2 : 0 <= shr_m (SpecFloat.iter_pos shr_1 n (shr_1 mrs))).
    { rewrite IH by done. apply Z.div_pos; lia. }
    rewrite IH, IH, shr_1_m by done.
    rewrite !Z.div_div by lia. f_equal.
    rewrite Pos2Z.inj_xI, <- !Z.pow_add_r, <- (Z.pow_1_r 2) at 1 by lia.
    rewrite <- Z.pow_add_r by lia. f_equal. lia.
  - assert (H2 : 0 <= shr_m (SpecFloat.iter_pos shr_1 n mrs)).
    { rewrite IH by done. apply Z.div_pos; lia. }
    rewrite IH, IH by done. rewrite Z.div_div by lia. f_equal.
    rewrite Pos2Z.inj_xO, <- Z.pow_add_r by lia. f_equal. lia.
  - by apply shr_1_m.
Qed.

Lemma shr_record_of_loc_m m l : shr_m (shr_record_of_loc m l) = m.
Proof. by destruct l as [|[]]. Qed.

Lemma Zdigits2_bounds m :
  0 < m -> 2 ^ (Zdigits2 m - 1) <= m /\ 0 < Zdigits2 m.
Proof.
  destruct m as [|p|p]; try done. intros _. simpl.
  pose proof (digits2_pos_bounds p). lia.
Qed.

(** One rounding shift, at an exponent that is not below the least one:
    the mantissa stays positive. *)
Lemma shr_fexp_pos m e l :
  0 < m -> -1074 <= e ->
  0 < shr_m (shr_fexp prec64 emax64 m e l).1
  /\ -1074 <= (shr_fexp prec64 emax64 m e l).2.
Proof.
  intros Hm He. unfold shr_fexp, shr, fexp, emin, prec64, emax64.
  destruct (Zdigits2_bounds m Hm) as [Hd Hd0].
  set (d := Zdigits2 m) in *.
  destruct (Z.max (d + e - 53) (3 - 1024 - 53) - e) as [|n|n] eqn:Hn; simpl.
  - by rewrite shr_record_of_loc_m.
  - rewrite iter_pos_shr_1_m by (rewrite shr_record_of_loc_m; lia).
    rewrite shr_record_of_loc_m. split; [|lia].
    apply Z.div_str_pos. split; [lia|].
    assert (Z.pos n <= d - 1) by lia.
    assert (2 ^ Z.pos n <= 2 ^ (d - 1)) by (apply Z.pow_le_mono_r; lia). lia.
  - by rewrite shr_record_of_loc_m.
Qed.

Lemma round_nearest_even_ge m l : m <= round_nearest_even m l.
Proof. unfold round_nearest_even. destruct l as [|[]]; try destruct (Z.even m); lia. Qed.

Lemma binary_round_aux_pos s m e l :
  0 < m -> -1074 <= e ->
  signed_nonzero s (binary_round_aux prec64 emax64 s m e l).
Proof.
  intros Hm He. unfold binary_round_aux.
  pose proof (shr_fexp_pos m e l Hm He) as [H1 H1e].
  destruct (shr_fexp prec64 emax64 m e l) as [mrs' e'].
  cbn [fst snd] in H1, H1e.
  pose proof (round_nearest_even_ge (shr_m mrs') (loc_of_shr_record mrs')) as Hr.
  pose proof (shr_fexp_pos (round_nearest_even (shr_m mrs') (loc_of_shr_record mrs'))
                e' loc_Exact ltac:(lia) H1e) as [H2 _].
  destruct (shr_fexp prec64 emax64 _ e' loc_Exact) as [mrs'' e''].
  cbn [fst] in H2.
  destruct (shr_m mrs'') as [|p|p]; try lia.
  by destruct (e'' <=? emax64 - prec64).
Qed.

Lemma shl_align_exponent m e e' :
  -1074 <= e -> -1074 <= e' -> -1074 <= (shl_align m e e').2.
Proof. intros. unfold shl_align. by destruct (e' - e). Qed.

Lemma binary_round_pos s m e :
  -1074 <= e -> signed_nonzero s (binary_round prec64 emax64 s m e).
Proof.
  intros He. unfold binary_round.
  pose proof (shl_align_exponent m e (fexp prec64 emax64 (Z.pos (digits2_pos m) + e)) He)
    as Ha.
  destruct (shl_align m e _) as [mz ez]. apply binary_round_aux_pos; [done|].
  apply Ha. unfold fexp, emin, prec64, emax64. lia.
Qed.

(** The sign of [binary_normalize] is the sign of the integer it rounds. *)
Lemma binary_normalize_pos m e :
  -1074 <= e ->
  num_is_pos (binary_normalize prec64 emax64 m e false) = (0 <? m).
Proof.
  intros He. destruct m as [|p|p]; simpl; [done| |].
  - pose proof (binary_round_pos false p e He) as H.
    destruct (binary_round prec64 emax64 false p e) as [| | |s' m' e']; simpl in H;
      try done; by subst.
  - pose proof (binary_round_pos true p e He) as H.
    destruct (binary_round prec64 emax64 true p e) as [| | |s' m' e']; simpl in H;
      try done; by subst.
Qed.

(** ** Alignment of mantissas *)

Lemma shl_align_value m e e' :
  e' <= e -> Z.pos (shl_align m e e').1 = Z.pos m * 2 ^ (e - e').
Proof.
  intros Hle. unfold shl_align.
  destruct (e' - e) as [|d|d] eqn:Hd; simpl.
  - replace (e - e') with 0 by lia. lia.
  - lia.
  - change (Pos.iter xO m d) with (shift_pos d m).
    rewrite shift_pos_correct, Z.pow_pos_fold.
    replace (e - e') with (Z.pos d) by lia. lia.
Qed.

(** ** The key orders as the comparator does *)

Lemma float_key_finite s m e :
  valid64 (S754_finite s m e) = true ->
  -1074 <= e
  /\ 0 < Z.pos m * 2 ^ (e + 1074) < key_infinity.
Proof.
  intros Hv. apply valid64_finite in Hv. unfold key_infinity.
  assert (He : -1074 <= e <= 971) by (destruct Hv as [[_ ?]|[_ ?]]; lia).
  assert (Hm : Z.pos m < 2 ^ 53).
  { destruct Hv as [[? _]|[? _]]; [|lia].
    assert (2 ^ 52 < 2 ^ 53) by (by apply Z.pow_lt_mono_r). lia. }
  split; [lia|].
  assert (Hp : 0 < 2 ^ (e + 1074)) by (apply Z.pow_pos_nonneg; lia).
  assert (Hp' : 2 ^ (e + 1074) < 2 ^ 2046) by (apply Z.pow_lt_mono_r; lia).
  split; [lia|].
  assert (H : Z.pos m * 2 ^ (e + 1074) < 2 ^ 53 * 2 ^ 2046).
  { apply Z.mul_lt_mono_nonneg; lia. }
  rewrite <- Z.pow_add_r in H by lia.
  assert (2 ^ (53 + 2046) < 2 ^ 2100) by (by apply Z.pow_lt_mono_r). lia.
Qed.

Lemma cond_Zopp_mul s a b : cond_Zopp s a * b = cond_Zopp s (a * b).
Proof. destruct s; simpl; lia. Qed.

(** The comparator [b - a] is positive exactly when [a] is below [b]. *)
Theorem num_sub_pos_key x y :
  is_number x = true -> is_number y = true ->
  num_is_pos (num_sub y x) = true <-> float_key x < float_key y.
Proof.
  unfold is_number. intros Hx Hy.
  apply andb_true_iff in Hx as [Hvx Hnx]. apply andb_true_iff in Hy as [Hvy Hny].
  destruct x as [sx|sx| |sx mx ex], y as [sy|sy| |sy my ey]; try done.
  - (* zero, zero *) by destruct sx, sy.
  - (* x zero, y infinite *) by destruct sy.
  - (* x zero, y finite *)
    destruct (float_key_finite sy my ey Hvy) as [_ Hk].
    destruct sy; simpl; split; (done || lia).
  - (* x infinite, y zero *) by destruct sx.
  - (* infinite, infinite *) by destruct sx, sy.
  - (* x infinite, y finite *)
    destruct (float_key_finite sy my ey Hvy) as [_ Hk].
    destruct sx, sy; simpl; split; (done || lia).
  - (* x finite, y zero *)
    destruct (float_key_finite sx mx ex Hvx) as [_ Hk].
    destruct sx, sy; simpl; split; (done || lia).
  - (* x finite, y infinite *)
    destruct (float_key_finite sx mx ex Hvx) as [_ Hk].
    destruct sx, sy; simpl; split; (done || lia).
  - (* finite, finite *)
    destruct (float_key_finite sx mx ex Hvx) as [Hex _].
    destruct (float_key_finite sy my ey Hvy) as [Hey _].
    unfold num_sub, SFsub. cbv zeta.
    set (ez := Z.min ey ex).
    rewrite binary_normalize_pos by lia.
    pose proof (shl_align_value my ey ez ltac:(lia)) as Hy'.
    pose proof (shl_align_value mx ex ez ltac:(lia)) as Hx'.
    rewrite Hy', Hx'. unfold float_key.
    assert (Hp : 0 < 2 ^ (ez + 1074)) by (apply Z.pow_pos_nonneg; lia).
    assert (Hsx : cond_Zopp sx (Z.pos mx * 2 ^ (ex + 1074))
                  = cond_Zopp sx (Z.pos mx * 2 ^ (ex - ez)) * 2 ^ (ez + 1074)).
    { rewrite cond_Zopp_mul, <- Z.mul_assoc, <- Z.pow_add_r by lia.
      do 3 f_equal. lia. }
    assert (Hsy : cond_Zopp sy (Z.pos my * 2 ^ (ey + 1074))
                  = cond_Zopp sy (Z.pos my * 2 ^ (ey - ez)) * 2 ^ (ez + 1074)).
    { rewrite cond_Zopp_mul, <- Z.mul_assoc, <- Z.pow_add_r by lia.
      do 3 f_equal. lia. }
    rewrite Hsx, Hsy. rewrite Z.ltb_lt. nia.
Qed.

(* ================================================================== *)
(** * The key and the comparisons of numbers *)
(* ================================================================== *)

Lemma key_lt_by_exponent m1 e1 m2 e2 s1 s2 :
  valid64 (S754_finite s1 m1 e1) = true ->
  valid64 (S754_finite s2 m2 e2) = true ->
  e1 < e2 ->
  Z.pos m1 * 2 ^ (e1 + 1074) < Z.pos m2 * 2 ^ (e2 + 1074).
Proof.
  intros H1 H2 He. apply valid64_finite in H1, H2.
  assert (Hm1 : Z.pos m1 < 2 ^ 53).
  { assert (2 ^ 52 < 2 ^ 53) by (by apply Z.pow_lt_mono_r). lia. }
  assert (He1 : -1074 <= e1) by (destruct H1 as [[? ?]|[? ?]]; lia).
  assert (Hm2 : 2 ^ 52 <= Z.pos m2) by (destruct H2 as [[? ?]|[? ?]]; lia).
  replace (e2 + 1074) with ((e2 - e1) + (e1 + 1074)) by lia.
  rewrite (Z.pow_add_r 2 (e2 - e1) (e1 + 1074)) by lia.
  assert (Hp : 0 < 2 ^ (e1 + 1074)) by (apply Z.pow_pos_nonneg; lia).
  assert (H2p : 2 ^ 1 <= 2 ^ (e2 - e1)) by (apply Z.pow_le_mono_r; lia).
  change (2 ^ 1) with 2 in H2p. change (2 ^ 53) with (2 * 2 ^ 52) in Hm1.
  assert (Z.pos m1 < Z.pos m2 * 2 ^ (e2 - e1)) by nia.
  nia.
Qed.

Ltac key_compare :=
  unfold SFcompare, float_key, cond_Zopp; f_equal; symmetry;
  first [ apply Z.compare_lt_iff; lia
        | apply Z.compare_gt_iff; lia
        | apply Z.compare_eq_iff; lia ].

(** The comparison of two numbers is the comparison of their keys. *)
Theorem SFcompare_key x y :
  is_number x = true -> is_number y = true ->
  SFcompare x y = Some (float_key x ?= float_key y).
Proof.
  unfold is_number. intros Hx Hy.
  apply andb_true_iff in Hx as [Hvx Hnx]. apply andb_true_iff in Hy as [Hvy Hny].
  destruct x as [sx|sx| |sx mx ex], y as [sy|sy| |sy my ey]; try done.
  - by destruct sy.
  - destruct (float_key_finite sy my ey Hvy) as [_ Hk]. destruct sy; key_compare.
  - by destruct sx.
  - by destruct sx, sy.
  - destruct (float_key_finite sy my ey Hvy) as [_ Hk]. destruct sx, sy; key_compare.
  - destruct (float_key_finite sx mx ex Hvx) as [_ Hk]. destruct sx; key_compare.
  - destruct (float_key_finite sx mx ex Hvx) as [_ Hk]. destruct sx, sy; key_compare.
  - destruct (float_key_finite sx mx ex Hvx) as [_ Hkx].
    destruct (float_key_finite sy my ey Hvy) as [_ Hky].
    destruct sx, sy; [| key_compare | key_compare |].
    + (* both negative *)
      unfold SFcompare, float_key, cond_Zopp. f_equal.
      destruct (Z.compare_spec ex ey) as [->|Hlt|Hgt]; symmetry.
      * rewrite Pos.compare_cont_spec. cbn [Pos.switch_Eq].
        assert (Hp : 0 < 2 ^ (ey + 1074)) by lia.
        destruct (Pos.compare_spec mx my) as [->|H|H]; cbn [CompOpp].
        -- apply Z.compare_eq_iff. done.
        -- apply Z.compare_gt_iff. nia.
        -- apply Z.compare_lt_iff. nia.
      * apply Z.compare_gt_iff.
        pose proof (key_lt_by_exponent mx ex my ey _ _ Hvx Hvy Hlt). lia.
      * apply Z.compare_lt_iff.
        pose proof (key_lt_by_exponent my ey mx ex _ _ Hvy Hvx ltac:(lia)). lia.
    + unfold SFcompare, float_key, cond_Zopp. f_equal.
      destruct (Z.compare_spec ex ey) as [->|Hlt|Hgt]; symmetry.
      * rewrite Pos.compare_cont_spec. cbn [Pos.switch_Eq].
        assert (Hp : 0 < 2 ^ (ey + 1074)) by lia.
        destruct (Pos.compare_spec mx my) as [->|H|H].
        -- apply Z.compare_eq_iff. done.
        -- apply Z.compare_lt_iff. nia.
        -- apply Z.compare_gt_iff. nia.
      * apply Z.compare_lt_iff.
        by apply (key_lt_by_exponent mx ex my ey false false).
      * apply Z.compare_gt_iff.
        pose proof (key_lt_by_exponent my ey mx ex false false Hvy Hvx ltac:(lia)). lia.
Qed.

Lemma SFleb_key x y :
  is_number x = true -> is_number y = true ->
  (SFleb x y = true <-> float_key x <= float_key y).
Proof.
  intros Hx Hy. unfold SFleb. rewrite (SFcompare_key x y Hx Hy).
  destruct (Z.compare_spec (float_key x) (float_key y)); split; (done || lia).
Qed.

Lemma SFltb_key x y :
  is_number x = true -> is_number y = true ->
  (SFltb x y = true <-> float_key x < float_key y).
Proof.
  intros Hx Hy. unfold SFltb. rewrite (SFcompare_key x y Hx Hy).
  destruct (Z.compare_spec (float_key x) (float_key y)); split; (done || lia).
Qed.

Lemma num_strict_eq_key x y :
  is_number x = true -> is_number y = true ->
  (num_strict_eq x y = true <-> float_key x = float_key y).
Proof.
  intros Hx Hy. unfold num_strict_eq, SFeqb. rewrite (SFcompare_key x y Hx Hy).
  destruct (Z.compare_spec (float_key x) (float_key y)); split; (done || lia).
Qed.

(* ================================================================== *)
(** * Ranking *)
(* ================================================================== *)

Lemma by_score_desc_key (a b : Scored) :
  is_number (score a) = true -> is_number (score b) = true ->
  (num_is_pos (by_score_desc a b) = true <-> float_key (score a) < float_key (score b)).
Proof. intros Ha Hb. unfold by_score_desc. by apply num_sub_pos_key. Qed.

Lemma filter_take_prefix {A} (P : A -> Prop) `{forall x, Decision (P x)} n (l : list A) :
  filter P (take n l) `prefix_of` filter P l.
Proof.
  exists (filter P (drop n l)). by rewrite <- filter_app, take_drop.
Qed.

Lemma StronglySorted_lookup {A} (R : A -> A -> Prop) (l : list A) i j a b :
  StronglySorted R l -> (i < j)%nat -> l !! i = Some a -> l !! j = Some b -> R a b.
Proof.
  intros Hs. revert i j. induction Hs as [|x l Hs IH Hx]; intros i j Hij Hi Hj; [done|].
  destruct j as [|j]; [lia|]. simpl in Hj. destruct i as [|i].
  - simpl in Hi. injection Hi as ->.
    rewrite Forall_forall in Hx. apply Hx. by eapply list_elem_of_lookup_2.
  - simpl in Hi. apply (IH i j); [lia|done..].
Qed.

(** C5, as the code has it.  For [k >= 0] and every candidate set the
    ranking is the first [k] elements of a rearrangement of the pairs (path,
    score); for [k = 0] it is empty; and it depends on the query, the
    candidates and [k] alone.  When no score is [NaN], the rearrangement is
    the stable sort by the comparator [b.score - a.score]: the ranking is
    descending by score, and scores that are equal come in the order of the
    candidates.  (With a [NaN] score the comparator is not consistent and
    nothing more is claimed.) *)
Theorem topK_ranking (query : list number) (candidates : list NoteVector) (k : Z) :
  0 <= k ->
  (exists sorted,
     sorted ≡ₚ scoreAll query candidates
     /\ topK query candidates k = take (Z.to_nat k) sorted)
  /\ (k = 0 -> topK query candidates k = [])
  /\ (forall query' candidates' k',
        query' = query -> candidates' = candidates -> k' = k ->
        topK query' candidates' k' = topK query candidates k)
  /\ (Forall (fun s => is_number (score s) = true) (scoreAll query candidates) ->
      topK query candidates k
      = take (Z.to_nat k) (array_sort by_score_desc (scoreAll query candidates))
      /\ array_sort by_score_desc (scoreAll query candidates) ≡ₚ scoreAll query candidates
      /\ (forall i j a b,
            (i < j)%nat ->
            topK query candidates k !! i = Some a ->
            topK query candidates k !! j = Some b ->
            SFleb (score b) (score a) = true)
      /\ (forall c,
            is_number c = true ->
            filter (fun a => num_strict_eq (score a) c = true) (topK query candidates k)
            `prefix_of`
            filter (fun a => num_strict_eq (score a) c = true) (scoreAll query candidates))).
Proof.
  intros Hk.
  set (scored := scoreAll query candidates) in *.
  set (sorted := array_sort by_score_desc scored).
  assert (Htop : topK query candidates k = take (Z.to_nat k) sorted).
  { unfold topK. by rewrite slice0_nonneg. }
  assert (Hperm : sorted ≡ₚ scored) by apply array_sort_perm.
  split; [by exists sorted|].
  split; [intros ->; apply slice0_zero|].
  split; [by intros ? ? ? -> -> ->|].
  intros Hnum.
  assert (Hsnum : Forall (fun s => is_number (score s) = true) sorted)
    by (by rewrite Hperm).
  assert (Hsorted : StronglySorted
                      (fun a b => float_key (score b) <= float_key (score a)) sorted).
  { apply (array_sort_sorted by_score_desc (fun a => float_key (score a))
             (fun s => is_number (score s) = true)); [|done].
    intros x y Hx Hy. by apply by_score_desc_key. }
  split; [done|]. split; [done|]. split.
  - intros i j a b Hij Hi Hj. rewrite Htop in Hi, Hj.
    pose proof (StronglySorted_lookup _ _ i j a b
                  (StronglySorted_take _ (Z.to_nat k) _ Hsorted) Hij Hi Hj) as Hle.
    simpl in Hle.
    assert (Ha : is_number (score a) = true).
    { rewrite Forall_forall in Hsnum. apply Hsnum.
      eapply list_elem_of_lookup_2, lookup_take_Some, Hi. }
    assert (Hb : is_number (score b) = true).
    { rewrite Forall_forall in Hsnum. apply Hsnum.
      eapply list_elem_of_lookup_2, lookup_take_Some, Hj. }
    by apply SFleb_key.
  - intros c Hc. rewrite Htop.
    assert (Hext : forall l : list Scored,
               Forall (fun s => is_number (score s) = true) l ->
               filter (fun a => num_strict_eq (score a) c = true) l
               = filter (fun a => float_key (score a) = float_key c) l).
    { intros l Hl. induction Hl as [|x l Hx Hl IH]; [done|].
      rewrite !filter_cons, IH.
      pose proof (num_strict_eq_key (score x) c Hx Hc).
      destruct (decide (num_strict_eq (score x) c = true)),
               (decide (float_key (score x) = float_key c)); tauto. }
    rewrite (Hext scored Hnum).
    rewrite <- (array_sort_stable by_score_desc (fun a => float_key (score a))
                  (fun s => is_number (score s) = true)
                  ltac:(intros x y Hx Hy; by apply by_score_desc_key)
                  (float_key c) scored Hnum).
    fold sorted. rewrite <- (Hext sorted Hsnum).
    apply filter_take_prefix.
Qed.

Lemma topK_ranking_witness :
  scored_path <$> topK [num_one; num_zero] [noteB; noteA; exactNote] 2
  = ["exact.md"; "a.md"]%string.
Proof.
  assert (H0 : 0 <= 2) by lia.
  assert (Hn : Forall (fun s => is_number (score s) = true)
                 (scoreAll [num_one; num_zero] [noteB; noteA; exactNote])).
  { repeat (constructor; [vm_compute; reflexivity|]). constructor. }
  destruct (topK_ranking [num_one; num_zero] [noteB; noteA; exactNote] 2 H0)
    as (_ & _ & _ & Hguarded).
  destruct (Hguarded Hn) as (Htop & _).
  rewrite Htop. vm_compute. reflexivity.
Defined.

(** C5 as stated fails when a score is [NaN]: with a zero vector among the
    candidates, a candidate of score 1 is ranked behind one of a smaller
    score. *)
Lemma nan_score_breaks_the_order :
  ~ (forall (query : list number) (candidates : list NoteVector) (k : Z) i j a b,
       0 <= k -> (i < j)%nat ->
       topK query candidates k !! i = Some a ->
       topK query candidates k !! j = Some b ->
       SFltb (score a) (score b) = false).
Proof.
  intros H.
  specialize (H [num_one; num_zero] [noteA; zeroNote; exactNote] 3 0%nat 2%nat
                (mkScored "a.md" (cosineSimilarity [num_one; num_zero] (embedding noteA)))
                (mkScored "exact.md" (cosineSimilarity [num_one; num_zero] (embedding exactNote)))
                ltac:(lia) ltac:(lia)).
  assert (H1 : topK [num_one; num_zero] [noteA; zeroNote; exactNote] 3 !! 0%nat
               = Some (mkScored "a.md"
                         (cosineSimilarity [num_one; num_zero] (embedding noteA))))
    by (vm_compute; reflexivity).
  assert (H2 : topK [num_one; num_zero] [noteA; zeroNote; exactNote] 3 !! 2%nat
               = Some (mkScored "exact.md"
                         (cosineSimilarity [num_one; num_zero] (embedding exactNote))))
    by (vm_compute; reflexivity).
  specialize (H H1 H2). clear H1 H2. vm_compute in H. discriminate H.
Qed.

Lemma SFleb_nan_l (x : number) : SFleb S754_nan x = false.
Proof. reflexivity. Qed.

Lemma SFleb_nan_r (x : number) : SFleb x S754_nan = false.
Proof. by destruct x as [[]|[]| |[]]. Qed.

(** This does not depend on what the sort does with a comparator that is
    not consistent: with the zero vector among these candidates, no
    rearrangement of the pairs at all has every score at least as high as
    the scores behind it. *)
Lemma nan_score_has_no_descending_order (sorted : list Scored) :
  sorted ≡ₚ scoreAll [num_one; num_zero] [noteA; zeroNote; exactNote] ->
  ~ (forall i j a b,
       (i < j)%nat -> sorted !! i = Some a -> sorted !! j = Some b ->
       SFleb (score b) (score a) = true).
Proof.
  intros Hperm Hdesc.
  assert (Hlen : length sorted = 3%nat) by (by rewrite Hperm).
  assert (Hnan : mkScored "empty.md" S754_nan ∈ sorted).
  { rewrite Hperm. apply elem_of_cons. right. apply elem_of_cons. left.
    vm_compute. reflexivity. }
  destruct sorted as [|x [|y [|z [|]]]]; try discriminate Hlen.
  apply elem_of_cons in Hnan as [<-|Hnan].
  { pose proof (Hdesc 0%nat 1%nat _ _ ltac:(lia) eq_refl eq_refl) as H.
    cbn [score] in H. by rewrite SFleb_nan_r in H. }
  apply elem_of_cons in Hnan as [<-|Hnan].
  { pose proof (Hdesc 0%nat 1%nat _ _ ltac:(lia) eq_refl eq_refl) as H.
    cbn [score] in H. by rewrite SFleb_nan_l in H. }
  apply elem_of_cons in Hnan as [<-|Hnan]; [|by apply elem_of_nil in Hnan].
  pose proof (Hdesc 0%nat 2%nat _ _ ltac:(lia) eq_refl eq_refl) as H.
  cbn [score] in H. by rewrite SFleb_nan_l in H.
Qed.

(* ================================================================== *)
(** * More on the binary file *)
(* ================================================================== *)

Lemma take_magic (tail : list Byte.byte) : take 4 (magicBytes ++ tail) = magicBytes.
Proof. reflexivity. Qed.

(** X1.  [saveVectors] in binary format, on any store with at least one record:
    it returns normally (no write is out of bounds, even when the
    embeddings are of different lengths); [vectors.bin] then holds exactly
    the layout "VEC1", record count, dimension of the first record, records;
    its length is the size computed by the first pass; the legacy file is
    gone; the store itself is untouched. *)
Theorem saveVectors_binary_writes_the_layout
    (utf8_encode : string -> list Byte.byte) (s : Service)
    (first : NoteVector) (rest : list NoteVector) :
  format s = FormatBinary ->
  vectors s = first :: rest ->
  exists s',
    saveVectors utf8_encode s = (Ok tt, s')
    /\ vectors s' = vectors s
    /\ binaryFile (disk s')
       = Some (imageBytes utf8_encode (len (embedding first)) (vectors s))
    /\ jsonFile (disk s') = None
    /\ take 4 (imageBytes utf8_encode (len (embedding first)) (vectors s)) = magicBytes
    /\ len (imageBytes utf8_encode (len (embedding first)) (vectors s))
       = bufferSize (len (embedding first))
           ((fun v => (v, utf8_encode (path v))) <$> vectors s).
Proof.
  intros Hf Hv.
  destruct (saveVectors_binary_nonempty utf8_encode s first rest Hf Hv)
    as (s' & Hs & _ & Hv' & Hd).
  exists s'. rewrite Hd. repeat split; try done.
  unfold bufferSize. rewrite bufferSize_records by apply len_nonneg.
  unfold imageBytes. len_norm. rewrite len_magicBytes. lia.
Qed.

Lemma saveVectors_binary_writes_the_layout_witness :
  exists s',
    saveVectors ascii_encode
      (set_vectors [noteA; mkNoteVector "short.md" [num_one] num_one]
         (newService FormatBinary)) = (Ok tt, s')
    /\ option_map length (binaryFile (disk s')) = Some 64%nat.
Proof.
  destruct (saveVectors_binary_writes_the_layout ascii_encode
              (set_vectors [noteA; mkNoteVector "short.md" [num_one] num_one]
                 (newService FormatBinary))
              noteA [mkNoteVector "short.md" [num_one] num_one] eq_refl eq_refl)
    as (s' & Hs & _ & Hb & _).
  exists s'. split; [exact Hs|]. rewrite Hb. vm_compute. reflexivity.
Defined.

(** X2.  Saving and loading in binary format without the assumption that the
    components are 32-bit floats: every component comes back rounded to a
    32-bit float, every path as the UTF-8 codec returns it, and the
    modification times unchanged. *)
Theorem binary_save_load_rounds_components
    (utf8_encode : string -> list Byte.byte) (utf8_decode : list Byte.byte -> string)
    (s : Service) (first : NoteVector) (rest : list NoteVector) :
  format s = FormatBinary ->
  vectors s = first :: rest ->
  fits_uint32 utf8_encode (len (embedding first)) (vectors s) ->
  Forall (fun v => len (embedding v) = len (embedding first)
                   /\ valid64 (mtime v) = true) (vectors s) ->
  vectors (loadVectors utf8_decode (saveVectors utf8_encode s).2)
  = (fun v => mkNoteVector (utf8_decode (utf8_encode (path v)))
                           ((fun x => fround (fround x)) <$> embedding v)
                           (mtime v)) <$> vectors s.
Proof.
  intros Hf Hv Hfit Hrec.
  by destruct (save_load_reloaded utf8_encode utf8_decode s first rest Hf Hv Hfit Hrec)
    as [_ ->].
Qed.

(** One tenth does not survive: what is loaded differs from what was
    saved. *)
Lemma binary_save_load_rounds_components_witness :
  vectors (loadVectors ascii_decode
             (saveVectors ascii_encode
                (set_vectors [noteC] (newService FormatBinary))).2)
  = [mkNoteVector "c.md" [fround num_tenth; num_two] (num_of_Z 1700000000004)]
  /\ is_float32 num_tenth = false.
Proof.
  split; [|vm_compute; reflexivity].
  rewrite (binary_save_load_rounds_components ascii_encode ascii_decode
             (set_vectors [noteC] (newService FormatBinary)) noteC [] eq_refl eq_refl).
  - vm_compute. reflexivity.
  - split; [vm_compute; reflexivity|split; [vm_compute; split; [discriminate|reflexivity]|]].
    repeat constructor.
  - repeat constructor.
Defined.

(** X3.  The reader does not look behind the last record: whatever follows
    the records in [vectors.bin] is ignored, and the file loads as the file
    without it does. *)
Theorem loadVectors_ignores_trailing_bytes
    (utf8_decode : list Byte.byte -> string) (s : Service)
    (buffer extra : list Byte.byte) (r : list NoteVector) :
  format s = FormatBinary ->
  binaryFile (disk s) = Some (buffer ++ extra) ->
  parseBinary utf8_decode buffer [] = Ok r ->
  vectors (loadVectors utf8_decode s) = r
  /\ console (loadVectors utf8_decode s) = console s ++ [LogLoaded FormatBinary (len r)].
Proof.
  intros Hf Hb Hp.
  rewrite (loadVectors_binary_present _ _ _ Hf Hb).
  by rewrite (parseBinary_extend _ _ extra _ _ Hp).
Qed.

Lemma loadVectors_ignores_trailing_bytes_witness :
  vectors (loadVectors ascii_decode paddedService) = [noteA; noteB].
Proof.
  assert (Hf : format paddedService = FormatBinary) by reflexivity.
  assert (Hb : binaryFile (disk paddedService)
               = Some (imageBytes ascii_encode 2 [noteA; noteB]
                       ++ [Byte.x01; Byte.x02; Byte.x03]))
    by (vm_compute; reflexivity).
  assert (Hp : parseBinary ascii_decode (imageBytes ascii_encode 2 [noteA; noteB]) []
               = Ok [noteA; noteB]) by (vm_compute; reflexivity).
  exact (proj1 (loadVectors_ignores_trailing_bytes ascii_decode paddedService _ _ _
                  Hf Hb Hp)).
Defined.

(** X4.  [loadVectorsBinary] by itself pushes onto the array as it is: only
    [loadVectors] empties the array first.  Called on a store that is not
    empty, with a well-formed file, it leaves the old records in front of
    the records of the file. *)
Theorem loadVectorsBinary_appends
    (utf8_encode : string -> list Byte.byte) (utf8_decode : list Byte.byte -> string)
    (s : Service) (dimension : Z) (vs : list NoteVector) :
  format s = FormatBinary ->
  binaryFile (disk s) = Some (imageBytes utf8_encode dimension vs) ->
  storable utf8_encode utf8_decode dimension vs ->
  vectors (loadVectorsBinary utf8_decode s) = vectors s ++ vs
  /\ vectors (loadVectors utf8_decode s) = vs.
Proof.
  intros Hf Hb (Hfit & Hrec).
  assert (Hdec : decoded utf8_decode dimension
                   <$> ((fun v => (v, utf8_encode (path v))) <$> vs) = vs).
  { rewrite <- list_fmap_compose. rewrite <- (list_fmap_id vs) at 2.
    apply Forall_fmap_ext_1. eapply Forall_impl; [exact Hrec|].
    intros v (? & ? & ? & ?). cbn [compose]. by apply decoded_storable. }
  split.
  - unfold loadVectorsBinary. rewrite Hb, (parseBinary_image _ _ _ _ _ Hfit), Hdec.
    done.
  - rewrite (loadVectors_binary_present utf8_decode _ _ Hf Hb).
    rewrite (parseBinary_image _ _ _ _ _ Hfit), Hdec. done.
Qed.

Lemma loadVectorsBinary_appends_witness :
  vectors (loadVectorsBinary ascii_decode savedService)
  = [noteA; noteB; noteA; noteB].
Proof.
  assert (Hb : binaryFile (disk savedService)
               = Some (imageBytes ascii_encode 2 [noteA; noteB]))
    by (vm_compute; reflexivity).
  assert (Hs : storable ascii_encode ascii_decode 2 [noteA; noteB]).
  { split; [split; [vm_compute; reflexivity|split; [lia|repeat constructor]]|].
    repeat constructor; vm_compute; reflexivity. }
  exact (proj1 (loadVectorsBinary_appends ascii_encode ascii_decode savedService 2
                  [noteA; noteB] eq_refl Hb Hs)).
Defined.

(** X5.  Migration.  With the binary format configured and only the legacy
    file present, [loadVectors] reads the legacy file; the next
    [saveVectors] writes [vectors.bin] and removes [vectors.json], unless
    the store is empty: then nothing is written and the legacy file
    stays. *)
Theorem legacy_file_is_migrated_on_save
    (utf8_encode : string -> list Byte.byte) (utf8_decode : list Byte.byte -> string)
    (s : Service) (vs : list NoteVector) :
  format s = FormatBinary ->
  binaryFile (disk s) = None ->
  jsonFile (disk s) = Some (JsonVectors vs) ->
  vectors (loadVectors utf8_decode s) = vs
  /\ (saveVectors utf8_encode (loadVectors utf8_decode s)).1 = Ok tt
  /\ disk (saveVectors utf8_encode (loadVectors utf8_decode s)).2
     = match vs with
       | [] => disk s
       | first :: _ =>
           mkDisk (Some (imageBytes utf8_encode (len (embedding first)) vs)) None
       end.
Proof.
  intros Hf Hb Hj.
  assert (Hload : loadVectors utf8_decode s
                  = log (LogLoaded FormatJson (len vs)) (set_vectors vs (set_vectors [] s))).
  { unfold loadVectors. cbn [set_vectors format disk]. rewrite Hf, Hb, Hj.
    unfold loadVectorsJson. cbn [set_vectors disk]. by rewrite Hj. }
  rewrite Hload. split; [done|].
  destruct vs as [|first rest].
  - unfold saveVectors, saveVectorsBinary. cbn [log set_vectors format vectors].
    by rewrite Hf.
  - destruct (saveVectors_binary_nonempty utf8_encode
                (log (LogLoaded FormatJson (len (first :: rest)))
                   (set_vectors (first :: rest) (set_vectors [] s))) first rest Hf eq_refl)
      as (s' & -> & _ & _ & Hd).
    done.
Qed.

Lemma legacy_file_is_migrated_on_save_witness :
  disk (saveVectors ascii_encode (loadVectors ascii_decode legacyService)).2
  = mkDisk (Some (imageBytes ascii_encode 2 [noteA; noteB])) None.
Proof.
  exact (proj2 (proj2 (legacy_file_is_migrated_on_save ascii_encode ascii_decode
                         legacyService [noteA; noteB] eq_refl eq_refl eq_refl))).
Defined.

(* ================================================================== *)
(** * More on indexing *)
(* ================================================================== *)

(** ** What the steps of a run leave alone *)

Lemma saveVectors_frame utf8_encode (s : Service) :
  (saveVectors utf8_encode s).1 = Ok tt
  /\ vectors (saveVectors utf8_encode s).2 = vectors s
  /\ signalAborted (saveVectors utf8_encode s).2 = signalAborted s
  /\ debugMode (saveVectors utf8_encode s).2 = debugMode s
  /\ progress (saveVectors utf8_encode s).2 = progress s
  /\ console s `prefix_of` console (saveVectors utf8_encode s).2.
Proof.
  unfold saveVectors. destruct (format s).
  - simpl. repeat split; try done. by apply prefix_app_r.
  - unfold saveVectorsBinary. destruct (vectors s) as [|first rest] eqn:Hv.
    + simpl. repeat split; done.
    + rewrite binaryImage_spec. cbn [set_disk log disk jsonFile vectors].
      destruct (jsonFile (disk s)); simpl; rewrite ?Hv; repeat split; try done.
      * rewrite <- app_assoc. by apply prefix_app_r.
      * by apply prefix_app_r.
Qed.

Lemma cancelIndexing_frame (s : Service) :
  vectors (cancelIndexing s) = vectors s
  /\ debugMode (cancelIndexing s) = debugMode s
  /\ progress (cancelIndexing s) = progress s
  /\ console s `prefix_of` console (cancelIndexing s).
Proof.
  unfold cancelIndexing. destruct (abortController s); simpl; repeat split; try done.
  by apply prefix_app_r.
Qed.

Lemma debug_frame e (s : Service) :
  vectors (debug e s) = vectors s
  /\ signalAborted (debug e s) = signalAborted s
  /\ debugMode (debug e s) = debugMode s
  /\ progress (debug e s) = progress s
  /\ console s `prefix_of` console (debug e s).
Proof.
  unfold debug. destruct (debugMode s) eqn:Hd; simpl; repeat split; try done.
  by apply prefix_app_r.
Qed.

Lemma indexNote_frame provider file (s : Service) :
  signalAborted (indexNote provider file s).2 = signalAborted s
  /\ debugMode (indexNote provider file s).2 = debugMode s
  /\ progress (indexNote provider file s).2 = progress s
  /\ console (indexNote provider file s).2 = console s
  /\ disk (indexNote provider file s).2 = disk s.
Proof.
  unfold indexNote.
  destruct (match array_get _ _ with Some _ => _ | None => _ end); [done|].
  destruct (file_content file) as [content|]; [|done].
  destruct (generateEmbedding _ _ _ _) as [[e|err] n]; done.
Qed.

(** What [indexNote] does to the array, whatever it returns. *)
Lemma indexNote_vectors provider file (s : Service) :
  vectors (indexNote provider file s).2 = vectors s
  \/ exists e, (indexNote provider file s).1 = Ok tt
       /\ vectors (indexNote provider file s).2
          = upsert (file_path file) e (file_mtime file) (vectors s).
Proof.
  unfold indexNote.
  destruct (match array_get _ _ with Some _ => _ | None => _ end); [by left|].
  destruct (file_content file) as [content|]; [|by left].
  destruct (generateEmbedding _ _ _ _) as [[e|err] n]; [|by left].
  right. by exists e.
Qed.

(** ** Invariants of the array through a run *)

Section Invariant.

Variable utf8_encode : string -> list Byte.byte.
Variable P : list NoteVector -> Prop.
Hypothesis P_upsert : forall p e m vs, P vs -> P (upsert p e m vs).

Lemma indexNote_invariant provider file (s : Service) :
  P (vectors s) -> P (vectors (indexNote provider file s).2).
Proof.
  intros HP. destruct (indexNote_vectors provider file s) as [->|(e & _ & ->)];
    [done|by apply P_upsert].
Qed.

Lemma indexAll_iteration_invariant provider pressStop total file (s : Service) l :
  P (vectors s) ->
  P (vectors (indexAll_iteration utf8_encode provider pressStop total file (s, l)).2.1).
Proof.
  intros HP. unfold indexAll_iteration.
  set (l1 := mkLocals _ _ _ _ _).
  set (s1 := if pressStop _ then _ else _).
  assert (H1 : P (vectors s1)).
  { subst s1. destruct (pressStop _); [|done].
    by destruct (cancelIndexing_frame (report_progress (processedCount l1) total s))
      as [-> _]. }
  clearbody s1 l1. destruct (signalAborted s1); [done|].
  destruct (match array_find _ _ with Some _ => _ | None => _ end).
  - pose proof (indexNote_invariant provider file
                  (log (LogIndexing (file_path file)) s1) H1) as H2.
    destruct (indexNote provider file _) as [[[]|e] s2]; cbn [snd] in H2.
    + destruct (_ mod 10 =? 0).
      * destruct (saveVectors_frame utf8_encode s2) as (Hr & Hv & _).
        destruct (saveVectors utf8_encode s2) as [r s3]. cbn [fst snd] in Hr, Hv.
        subst r. cbn. by rewrite Hv.
      * done.
    + destruct (file_content file); done.
  - cbn [fst snd]. by destruct (debug_frame (LogSkipping (file_path file)) s1) as [-> _].
Qed.

Lemma indexAll_loop_invariant provider pressStop total files (s : Service) l :
  P (vectors s) ->
  P (vectors (indexAll_loop utf8_encode provider pressStop total files (s, l)).2.1).
Proof.
  revert s l. induction files as [|file rest IH]; intros s l HP; [done|].
  cbn [indexAll_loop].
  pose proof (indexAll_iteration_invariant provider pressStop total file s l HP) as H1.
  destruct (indexAll_iteration _ _ _ _ _ _) as [[[]|e] [s1 l1]]; [|done].
  by apply IH.
Qed.

End Invariant.

Lemma indexNote_ok_path provider file (s : Service) :
  (indexNote provider file s).1 = Ok tt ->
  file_path file ∈ path <$> vectors (indexNote provider file s).2.
Proof.
  unfold indexNote. rewrite array_get_findIndex.
  destruct (array_find _ _) as [v|] eqn:Hfind.
  - apply array_find_Some in Hfind as [Hp Hin]. apply has_path_true in Hp.
    assert (Hhere : file_path file ∈ path <$> vectors s).
    { rewrite <- Hp. by apply list_elem_of_fmap_2. }
    destruct (num_strict_eq _ _); [done|].
    destruct (file_content file) as [content|]; [|done].
    destruct (generateEmbedding _ _ _ _) as [[e|err] n]; [|done].
    intros _. cbn. apply upsert_elem_of_paths. by right.
  - destruct (file_content file) as [content|]; [|done].
    destruct (generateEmbedding _ _ _ _) as [[e|err] n]; [|done].
    intros _. cbn. apply upsert_elem_of_paths. by right.
Qed.

Lemma indexNote_paths_mono provider file (s : Service) q :
  q ∈ path <$> vectors s -> q ∈ path <$> vectors (indexNote provider file s).2.
Proof.
  apply (indexNote_invariant (fun vs => q ∈ path <$> vs)).
  intros p e m vs H. apply upsert_elem_of_paths. by left.
Qed.

(** ** A run nobody stops, over files that can be read *)

Section Unstopped.

Variable utf8_encode : string -> list Byte.byte.
Variable provider : Provider.
Variable pressStop : Z -> bool.
Variable total : Z.
Hypothesis never : forall k, pressStop k = false.

Lemma indexAll_iteration_unstopped file (s : Service) l :
  file_content file <> None -> signalAborted s = false ->
  exists s' l',
    indexAll_iteration utf8_encode provider pressStop total file (s, l)
    = (Ok tt, (s', l'))
    /\ signalAborted s' = false
    /\ progress s' = progress s ++ [(processedCount l + 1, total)]
    /\ processedCount l' = processedCount l + 1
    /\ console s `prefix_of` console s'
    /\ (forall q, q ∈ path <$> vectors s -> q ∈ path <$> vectors s')
    /\ (file_path file ∈ path <$> vectors s'
        \/ exists e, ErrIndexNoteFailed (file_path file) e ∈ console s').
Proof.
  intros Hread Hgo. unfold indexAll_iteration. rewrite never.
  cbn [report_progress signalAborted processedCount successCount errorCount
       failedFiles changed]. rewrite Hgo.
  set (s0 := report_progress (processedCount l + 1) total s).
  assert (Hv0 : vectors s0 = vectors s) by reflexivity.
  assert (Hp0 : progress s0 = progress s ++ [(processedCount l + 1, total)])
    by reflexivity.
  assert (Hc0 : console s0 = console s) by reflexivity.
  assert (Ha0 : signalAborted s0 = false) by exact Hgo.
  rewrite <- Hv0, <- Hp0, <- Hc0. clearbody s0.
  destruct (array_find (has_path (file_path file)) (vectors s0)) as [v|] eqn:Hfind.
  2: change (match None with Some v => negb (num_strict_eq (mtime v) (file_mtime file))
                           | None => true end) with true.
  1: destruct (negb (num_strict_eq (mtime v) (file_mtime file))) eqn:Hstale.
  2: { pose proof (debug_frame (LogSkipping (file_path file)) s0)
         as (Hv & Ha & _ & Hp & Hc).
       eexists _, _. split; [reflexivity|]. rewrite Ha, Hp, Hv.
       repeat split; try done. left.
       apply array_find_Some in Hfind as [Hq Hin]. apply has_path_true in Hq.
       rewrite <- Hq. by apply list_elem_of_fmap_2. }
  all: pose proof (indexNote_frame provider file (log (LogIndexing (file_path file)) s0))
         as (Ha & _ & Hp & Hc & _);
       pose proof (indexNote_ok_path provider file (log (LogIndexing (file_path file)) s0))
         as Hin;
       pose proof (fun q => indexNote_paths_mono provider file
                              (log (LogIndexing (file_path file)) s0) q) as Hmono;
       destruct (indexNote provider file (log (LogIndexing (file_path file)) s0))
         as [[[]|err] s1]; cbn [fst snd] in *;
       [ destruct ((successCount l + 1) mod 10 =? 0);
         [ pose proof (saveVectors_frame utf8_encode s1) as (Hr & Hv' & Ha' & _ & Hp' & Hc');
           destruct (saveVectors utf8_encode s1) as [r s2]; cbn [fst snd] in *; subst r;
           eexists _, _; (split; [reflexivity|]);
           rewrite Ha', Hp', Hv', Ha, Hp; repeat split; try done;
           [ etrans; [|exact Hc']; rewrite Hc; by apply prefix_app_r
           | left; by apply Hin ]
         | eexists _, _; (split; [reflexivity|]);
           rewrite Ha, Hp, Hc; repeat split; try done;
           [ by apply prefix_app_r | left; by apply Hin ] ]
       | destruct (file_content file) as [content|]; [|done];
         eexists _, _; (split; [reflexivity|]); cbn [log signalAborted progress console vectors
                                                      processedCount];
         rewrite Ha, Hp, Hc; repeat split; try done;
         [ cbn; rewrite <- !app_assoc; by apply prefix_app_r
         | right; exists err; cbn; rewrite !elem_of_app, !list_elem_of_singleton; tauto ] ].
Qed.

Lemma indexAll_loop_unstopped files (s : Service) l :
  Forall (fun f => file_content f <> None) files -> signalAborted s = false ->
  exists s' l',
    indexAll_loop utf8_encode provider pressStop total files (s, l) = (Ok tt, (s', l'))
    /\ signalAborted s' = false
    /\ progress s'
       = progress s ++ ((fun i => (i, total)) <$> seqZ (processedCount l + 1) (len files))
    /\ console s `prefix_of` console s'
    /\ (forall q, q ∈ path <$> vectors s -> q ∈ path <$> vectors s')
    /\ (forall f, f ∈ files ->
          file_path f ∈ path <$> vectors s'
          \/ exists e, ErrIndexNoteFailed (file_path f) e ∈ console s').
Proof.
  revert s l. induction files as [|file rest IH]; intros s l Hread Hgo.
  - exists s, l. rewrite seqZ_nil by done. rewrite app_nil_r.
    repeat split; try done. intros f Hf. by apply elem_of_nil in Hf.
  - apply Forall_cons in Hread as [Hfile Hrest].
    destruct (indexAll_iteration_unstopped file s l Hfile Hgo)
      as (s1 & l1 & Hit & Hgo1 & Hp1 & Hl1 & Hc1 & Hm1 & Hcov1).
    destruct (IH s1 l1 Hrest Hgo1) as (s2 & l2 & Hloop & Hgo2 & Hp2 & Hc2 & Hm2 & Hcov2).
    exists s2, l2. cbn [indexAll_loop]. rewrite Hit, Hloop.
    repeat split; try done.
    + rewrite Hp2, Hp1, Hl1, <- app_assoc. f_equal.
      rewrite (seqZ_cons (processedCount l + 1)) by (unfold len; simpl; lia).
      rewrite fmap_cons. cbn [app].
      replace (Z.succ (processedCount l + 1)) with (processedCount l + 1 + 1) by lia.
      replace (Z.pred (len (file :: rest))) with (len rest)
        by (unfold len; simpl; lia).
      done.
    + by etrans.
    + auto.
    + intros f Hf. apply elem_of_cons in Hf as [->|Hf]; [|by apply Hcov2].
      destruct Hcov1 as [Hin|(e & He)]; [left; by apply Hm2|].
      right. exists e. destruct Hc2 as [k ->]. apply elem_of_app. by left.
Qed.

End Unstopped.

(** ** The run as a whole *)

Lemma loadVectors_frame utf8_decode (s : Service) :
  signalAborted (loadVectors utf8_decode s) = signalAborted s
  /\ progress (loadVectors utf8_decode s) = progress s
  /\ disk (loadVectors utf8_decode s) = disk s
  /\ net (loadVectors utf8_decode s) = net s
  /\ console s `prefix_of` console (loadVectors utf8_decode s).
Proof.
  unfold loadVectors, loadVectorsBinary, loadVectorsJson.
  cbn [set_vectors format disk vectors].
  destruct (format s), (binaryFile (disk s)) as [buffer|], (jsonFile (disk s)) as [[vs|]|];
    try destruct (parseBinary utf8_decode buffer []);
    simpl; repeat split; try done; by apply prefix_app_r.
Qed.

Lemma loadVectors_session utf8_decode running controller aborted (s : Service) :
  vectors (loadVectors utf8_decode (set_session running controller aborted s))
  = vectors (loadVectors utf8_decode s)
  /\ console (loadVectors utf8_decode (set_session running controller aborted s))
     = console (loadVectors utf8_decode s).
Proof.
  unfold loadVectors, loadVectorsBinary, loadVectorsJson.
  cbn [set_vectors set_session format disk vectors].
  destruct (format s), (binaryFile (disk s)) as [buffer|], (jsonFile (disk s)) as [[vs|]|];
    try destruct (parseBinary utf8_decode buffer []); done.
Qed.

Lemma indexAll_finish_spec utf8_encode files (s : Service) l :
  exists s',
    indexAll_finish utf8_encode files (s, l) = (Ok tt, (s', l))
    /\ vectors s'
       = filter (fun v => path v ∈ (list_to_set (file_path <$> files) : gset string))
           (vectors s)
    /\ signalAborted s' = signalAborted s
    /\ progress s' = progress s
    /\ console s `prefix_of` console s'.
Proof.
  unfold indexAll_finish.
  assert (exists s1, (if 0 <? successCount l then saveVectors utf8_encode s else (Ok tt, s))
                     = (Ok tt, s1)
                     /\ vectors s1 = vectors s /\ signalAborted s1 = signalAborted s
                     /\ progress s1 = progress s /\ console s `prefix_of` console s1)
    as (s1 & -> & Hv1 & Ha1 & Hp1 & Hc1).
  { destruct (0 <? successCount l); [|by exists s].
    pose proof (saveVectors_frame utf8_encode s) as (Hr & Hv & Ha & _ & Hp & Hc).
    destruct (saveVectors utf8_encode s) as [r s1]. cbn [fst snd] in *. subst r.
    by exists s1. }
  unfold prune. cbn zeta. rewrite Hv1.
  set (kept := filter _ (vectors s)).
  set (prunedCount := Z.of_nat (length (vectors s)) - Z.of_nat (length kept)).
  assert (exists s2, (if 0 <? prunedCount
                      then saveVectors utf8_encode (log (LogPruned prunedCount)
                                                      (set_vectors kept s1))
                      else (Ok tt, set_vectors kept s1))
                     = (Ok tt, s2)
                     /\ vectors s2 = kept /\ signalAborted s2 = signalAborted s
                     /\ progress s2 = progress s /\ console s `prefix_of` console s2)
    as (s2 & -> & Hv2 & Ha2 & Hp2 & Hc2).
  { destruct (0 <? prunedCount); [|by exists (set_vectors kept s1)].
    pose proof (saveVectors_frame utf8_encode (log (LogPruned prunedCount)
                                                 (set_vectors kept s1)))
      as (Hr & Hv & Ha & _ & Hp & Hc).
    destruct (saveVectors utf8_encode _) as [r s2]. cbn [fst snd] in *. subst r.
    exists s2. rewrite Hv, Ha, Hp. cbn [log set_vectors vectors signalAborted progress].
    repeat split; try done.
    etrans; [exact Hc1|]. etrans; [|exact Hc]. by apply prefix_app_r. }
  pose proof (debug_frame (LogComplete (successCount l) (errorCount l) prunedCount) s2)
    as (Hv3 & Ha3 & Hd3 & Hp3 & Hc3).
  set (s3 := debug _ s2) in *. clearbody s3.
  destruct (_ && _); eexists; (split; [reflexivity|]); simpl;
    rewrite ?Hv3, ?Ha3, ?Hp3; repeat split; try done.
  - etrans; [exact Hc2|]. etrans; [exact Hc3|]. by apply prefix_app_r.
  - by etrans.
Qed.

(** X6.  [indexAll] never rejects (the files of the index being writable):
    whatever the provider answers, whether or not a file can be read and
    whether or not the run is cancelled, the promise resolves, and
    afterwards [isIndexing] is false and the abort controller is
    released. *)
Theorem indexAll_always_resolves
    (utf8_encode : string -> list Byte.byte) (utf8_decode : list Byte.byte -> string)
    (provider : Provider) (pressStop : Z -> bool) (files : list TFile) (s : Service) :
  isIndexing s = false ->
  (indexAll utf8_encode utf8_decode provider pressStop files s).1 = Ok tt
  /\ isIndexing (indexAll utf8_encode utf8_decode provider pressStop files s).2 = false
  /\ abortController (indexAll utf8_encode utf8_decode provider pressStop files s).2
     = false.
Proof.
  intros Hidle. unfold indexAll. rewrite Hidle.
  destruct (indexAll_loop _ _ _ _ _ _) as [[[]|e] [s1 l1]].
  - destruct (indexAll_finish_spec utf8_encode files s1 l1) as (s2 & -> & _). done.
  - destruct e; try done. destruct (0 <? successCount l1); [|done].
    pose proof (saveVectors_frame utf8_encode (debug LogSavingPartial (debug LogCancelled s1)))
      as (Hr & _).
    destruct (saveVectors utf8_encode _) as [r s2]. cbn [fst] in Hr. by subst r.
Qed.

Lemma indexAll_always_resolves_witness :
  (indexAll ascii_encode ascii_decode contextLengthProvider stopAfterTwelve
     hundredNotes (newService FormatBinary)).1 = Ok tt.
Proof.
  exact (proj1 (indexAll_always_resolves ascii_encode ascii_decode contextLengthProvider
                  stopAfterTwelve hundredNotes (newService FormatBinary) eq_refl)).
Defined.

(** X7.  One record per path is an invariant of [indexAll]: when the store as
    loaded from the files has no two records of the same path, neither has
    the store the run leaves behind, however the run ends. *)
Theorem indexAll_keeps_one_record_per_path
    (utf8_encode : string -> list Byte.byte) (utf8_decode : list Byte.byte -> string)
    (provider : Provider) (pressStop : Z -> bool) (files : list TFile) (s : Service) :
  isIndexing s = false ->
  NoDup (path <$> vectors (loadVectors utf8_decode s)) ->
  NoDup (path <$> vectors (indexAll utf8_encode utf8_decode provider pressStop files s).2).
Proof.
  intros Hidle Hnd. unfold indexAll. rewrite Hidle.
  set (s0 := set_totalFiles _ _).
  assert (H0 : NoDup (path <$> vectors s0)).
  { subst s0. cbn [set_totalFiles vectors].
    destruct (pressStop 0).
    - destruct (cancelIndexing_frame (loadVectors utf8_decode (set_session true true false s)))
        as [-> _]. by destruct (loadVectors_session utf8_decode true true false s) as [-> _].
    - by destruct (loadVectors_session utf8_decode true true false s) as [-> _]. }
  clearbody s0.
  pose proof (indexAll_loop_invariant utf8_encode (fun vs => NoDup (path <$> vs))
                (fun p e m vs => upsert_NoDup p e m vs)
                provider pressStop (len files) files s0
                (mkLocals false 0 0 [] 0) H0) as H1.
  destruct (indexAll_loop _ _ _ _ _ _) as [[[]|e] [s1 l1]]; cbn [fst snd] in H1.
  - destruct (indexAll_finish_spec utf8_encode files s1 l1) as (s2 & -> & Hv2 & _).
    cbn. rewrite Hv2. eapply sublist_NoDup; [exact H1|].
    apply fmap_sublist, sublist_filter.
  - destruct e; try done.
    destruct (debug_frame LogCancelled s1) as (Hv & _).
    destruct (0 <? successCount l1).
    + destruct (debug_frame LogSavingPartial (debug LogCancelled s1)) as (Hv' & _).
      pose proof (saveVectors_frame utf8_encode (debug LogSavingPartial (debug LogCancelled s1)))
        as (_ & Hv'' & _).
      destruct (saveVectors utf8_encode _) as [r s2]. cbn [snd] in Hv''. cbn.
      by rewrite Hv'', Hv', Hv.
    + cbn. by rewrite Hv.
Qed.

Lemma indexAll_keeps_one_record_per_path_witness :
  NoDup (path <$> vectors (indexAll ascii_encode ascii_decode constantProvider neverStop
                             [note 0; note 1; note 0] (newService FormatBinary)).2).
Proof.
  apply (indexAll_keeps_one_record_per_path ascii_encode ascii_decode constantProvider
           neverStop [note 0; note 1; note 0] (newService FormatBinary) eq_refl).
  vm_compute. constructor.
Defined.

Lemma indexAll_unstopped utf8_encode utf8_decode provider pressStop files (s : Service) :
  isIndexing s = false ->
  (forall k, pressStop k = false) ->
  Forall (fun f => file_content f <> None) files ->
  exists s1 s2,
    indexAll utf8_encode utf8_decode provider pressStop files s
    = (Ok tt, set_session false false false s2)
    /\ vectors s2
       = filter (fun v => path v ∈ (list_to_set (file_path <$> files) : gset string))
           (vectors s1)
    /\ progress s2
       = progress s ++ ((fun i => (i, len files)) <$> seqZ 1 (len files))
    /\ console s1 `prefix_of` console s2
    /\ (forall f, f ∈ files ->
          file_path f ∈ path <$> vectors s1
          \/ exists e, ErrIndexNoteFailed (file_path f) e ∈ console s1).
Proof.
  intros Hidle Hnever Hread. unfold indexAll. rewrite Hidle, Hnever.
  destruct (loadVectors_frame utf8_decode (set_session true true false s))
    as (Ha & Hp & _).
  destruct (indexAll_loop_unstopped utf8_encode provider pressStop (len files) Hnever
              files (set_totalFiles (len files)
                       (loadVectors utf8_decode (set_session true true false s)))
              (mkLocals false 0 0 [] 0) Hread Ha)
    as (s1 & l1 & -> & Ha1 & Hp1 & Hc1 & Hm1 & Hcov1).
  destruct (indexAll_finish_spec utf8_encode files s1 l1)
    as (s2 & -> & Hv2 & Ha2 & Hp2 & Hc2).
  exists s1, s2. rewrite Ha2, Ha1. split; [done|].
  rewrite Hp2, Hp1. cbn [set_totalFiles progress processedCount]. rewrite Hp.
  repeat split; done.
Qed.

(** X8.  A run that nobody stops, over files that can all be read, leaves
    records of the given files only, and accounts for every file: either
    the store holds a record of its path, or the failure to index it was
    written to the console. *)
Theorem indexAll_covers_the_given_files
    (utf8_encode : string -> list Byte.byte) (utf8_decode : list Byte.byte -> string)
    (provider : Provider) (pressStop : Z -> bool) (files : list TFile) (s : Service) :
  isIndexing s = false ->
  (forall k, pressStop k = false) ->
  Forall (fun f => file_content f <> None) files ->
  (forall v, v ∈ vectors (indexAll utf8_encode utf8_decode provider pressStop files s).2 ->
     path v ∈ file_path <$> files)
  /\ (forall f, f ∈ files ->
        file_path f
          ∈ path <$> vectors (indexAll utf8_encode utf8_decode provider pressStop files s).2
        \/ exists e,
             ErrIndexNoteFailed (file_path f) e
               ∈ console (indexAll utf8_encode utf8_decode provider pressStop files s).2).
Proof.
  intros Hidle Hnever Hread.
  destruct (indexAll_unstopped utf8_encode utf8_decode provider pressStop files s
              Hidle Hnever Hread)
    as (s1 & s2 & -> & Hv2 & _ & Hc2 & Hcov).
  cbn [snd set_session vectors console]. rewrite Hv2. split.
  - intros v Hv. apply list_elem_of_filter in Hv as [Hv _].
    by apply elem_of_list_to_set in Hv.
  - intros f Hf. destruct (Hcov f Hf) as [Hin|(e & He)].
    + left. apply list_elem_of_fmap in Hin as (v & Hp & Hv).
      apply list_elem_of_fmap. exists v. split; [done|].
      apply list_elem_of_filter. split; [|done].
      apply elem_of_list_to_set. rewrite <- Hp. by apply list_elem_of_fmap_2.
    + right. exists e. destruct Hc2 as [k ->]. apply elem_of_app. by left.
Qed.

Lemma indexAll_covers_the_given_files_witness :
  Forall (fun v => path v ∈ file_path <$> [note 0; note 1])
    (vectors (indexAll ascii_encode ascii_decode constantProvider neverStop
                [note 0; note 1] savedService).2).
Proof.
  apply Forall_forall.
  apply (indexAll_covers_the_given_files ascii_encode ascii_decode constantProvider
           neverStop [note 0; note 1] savedService eq_refl (fun _ => eq_refl)).
  repeat constructor; discriminate.
Defined.

(** X9.  In such a run the progress callback is called once per file, with
    the counts 1, 2, ..., n in this order, each time with the total n. *)
Theorem indexAll_reports_every_file
    (utf8_encode : string -> list Byte.byte) (utf8_decode : list Byte.byte -> string)
    (provider : Provider) (pressStop : Z -> bool) (files : list TFile) (s : Service) :
  isIndexing s = false ->
  (forall k, pressStop k = false) ->
  Forall (fun f => file_content f <> None) files ->
  progress (indexAll utf8_encode utf8_decode provider pressStop files s).2
  = progress s ++ ((fun i => (i, len files)) <$> seqZ 1 (len files)).
Proof.
  intros Hidle Hnever Hread.
  destruct (indexAll_unstopped utf8_encode utf8_decode provider pressStop files s
              Hidle Hnever Hread)
    as (s1 & s2 & -> & _ & Hp & _).
  exact Hp.
Qed.

Lemma indexAll_reports_every_file_witness :
  progress (indexAll ascii_encode ascii_decode constantProvider neverStop
              [note 0; note 1; note 2] (newService FormatBinary)).2
  = [(1, 3); (2, 3); (3, 3)].
Proof.
  rewrite (indexAll_reports_every_file ascii_encode ascii_decode constantProvider
             neverStop [note 0; note 1; note 2] (newService FormatBinary) eq_refl
             (fun _ => eq_refl)).
  - reflexivity.
  - repeat constructor; discriminate.
Defined.

Lemma indexNote_unreadable provider file (s : Service) :
  file_content file = None ->
  (forall v, array_find (has_path (file_path file)) (vectors s) = Some v ->
             num_strict_eq (mtime v) (file_mtime file) = false) ->
  indexNote provider file s = (Err ReadError, s).
Proof.
  intros Hread Hstale. unfold indexNote. rewrite array_get_findIndex, Hread.
  destruct (array_find _ _) as [v|]; [|done]. by rewrite (Hstale v eq_refl).
Qed.

(** X10.  A file that cannot be read and has no up-to-date record ends the
    whole run: [indexNote] fails on reading it, the handler of the failure
    reads it again, and this second failure leaves the loop.  The files
    behind it are not visited; nothing is requested, stored, pruned or
    saved; the promise still resolves, with "Indexing failed" on the
    console. *)
Theorem unreadable_file_ends_the_run
    (utf8_encode : string -> list Byte.byte) (utf8_decode : list Byte.byte -> string)
    (provider : Provider) (pressStop : Z -> bool)
    (file : TFile) (rest : list TFile) (s : Service) :
  isIndexing s = false ->
  pressStop 0 = false -> pressStop 1 = false ->
  file_content file = None ->
  (forall v, array_find (has_path (file_path file)) (vectors (loadVectors utf8_decode s))
             = Some v ->
             num_strict_eq (mtime v) (file_mtime file) = false) ->
  (indexAll utf8_encode utf8_decode provider pressStop (file :: rest) s).1 = Ok tt
  /\ vectors (indexAll utf8_encode utf8_decode provider pressStop (file :: rest) s).2
     = vectors (loadVectors utf8_decode s)
  /\ disk (indexAll utf8_encode utf8_decode provider pressStop (file :: rest) s).2
     = disk s
  /\ net (indexAll utf8_encode utf8_decode provider pressStop (file :: rest) s).2
     = net s
  /\ progress (indexAll utf8_encode utf8_decode provider pressStop (file :: rest) s).2
     = progress s ++ [(1, len (file :: rest))]
  /\ console (indexAll utf8_encode utf8_decode provider pressStop (file :: rest) s).2
     = console (loadVectors utf8_decode s)
       ++ [LogIndexing (file_path file);
           ErrIndexNoteFailed (file_path file) ReadError;
           ErrIndexingFailed ReadError].
Proof.
  intros Hidle Hstop0 Hstop1 Hread Hstale. unfold indexAll. rewrite Hidle, Hstop0.
  destruct (loadVectors_frame utf8_decode (set_session true true false s))
    as (Ha & Hp & Hd & Hn & _).
  destruct (loadVectors_session utf8_decode true true false s) as (Hv & Hc).
  set (s0 := loadVectors utf8_decode (set_session true true false s)) in *.
  cbn [set_session signalAborted progress disk net] in Ha, Hp, Hd, Hn.
  rewrite <- Hv in Hstale. rewrite <- Hv, <- Hc, <- Hd, <- Hn, <- Hp. clearbody s0.
  cbn [indexAll_loop]. unfold indexAll_iteration.
  cbn [processedCount successCount errorCount failedFiles changed].
  change (0 + 1) with 1. rewrite Hstop1.
  cbn [report_progress set_totalFiles signalAborted vectors]. rewrite Ha.
  rewrite indexNote_unreadable; [|exact Hread|exact Hstale].
  rewrite Hread.
  destruct (array_find _ _) as [v|] eqn:Hfind.
  - rewrite (Hstale v eq_refl). cbn. rewrite <- !app_assoc. done.
  - cbn. rewrite <- !app_assoc. done.
Qed.

Lemma unreadable_file_ends_the_run_witness :
  vectors (indexAll ascii_encode ascii_decode constantProvider neverStop
             [mkTFile "locked.md" "locked" num_one None; note 0]
             (newService FormatBinary)).2 = []
  /\ net (indexAll ascii_encode ascii_decode constantProvider neverStop
            [mkTFile "locked.md" "locked" num_one None; note 0]
            (newService FormatBinary)).2 = net0.
Proof.
  destruct (unreadable_file_ends_the_run ascii_encode ascii_decode constantProvider
              neverStop (mkTFile "locked.md" "locked" num_one None) [note 0]
              (newService FormatBinary) eq_refl eq_refl eq_refl eq_refl)
    as (_ & Hv & _ & Hn & _).
  - intros v Hfind. vm_compute in Hfind. discriminate Hfind.
  - split; [exact Hv|exact Hn].
Defined.

(** X11.  The second lookup of [indexNote] at work.  Two calls for the same
    path that both found no record when they started (their first lookup
    gave -1) and store one after the other leave one record for the path,
    the one written last, behind the records that were there. *)
Theorem storeEmbedding_overlapping_calls
    (p : string) (e1 e2 : list number) (m1 m2 : number) (vs : list NoteVector) :
  p ∉ path <$> vs ->
  storeEmbedding (-1) p e2 m2 (storeEmbedding (-1) p e1 m1 vs)
  = vs ++ [mkNoteVector p e2 m2].
Proof.
  intros Hnew. rewrite !storeEmbedding_double_check, (upsert_absent _ _ _ _ Hnew).
  destruct (upsert_present p e2 m2 (vs ++ [mkNoteVector p e1 m1])) as (i & old & Hi & Hold & -> & _).
  { rewrite fmap_app. apply elem_of_app. right. by apply list_elem_of_singleton. }
  assert (i = length vs) as ->.
  { destruct (decide (i < length vs)%nat) as [Hlt|Hge].
    - rewrite lookup_app_l in Hi by done. exfalso. apply Hnew.
      rewrite <- Hold. apply list_elem_of_fmap_2. by eapply list_elem_of_lookup_2.
    - apply lookup_lt_Some in Hi. rewrite length_app in Hi. simpl in Hi. lia. }
  by rewrite insert_app_r_alt, Nat.sub_diag by done.
Qed.

Lemma storeEmbedding_overlapping_calls_witness :
  storeEmbedding (-1) "c.md" [num_two] num_two
    (storeEmbedding (-1) "c.md" [num_one] num_one [noteA; noteB])
  = [noteA; noteB; mkNoteVector "c.md" [num_two] num_two].
Proof.
  apply (storeEmbedding_overlapping_calls "c.md" [num_one] [num_two] num_one num_two
           [noteA; noteB]).
  vm_compute. intros H. repeat (apply elem_of_cons in H as [H|H]; [discriminate H|]).
  by apply elem_of_nil in H.
Defined.

(** X12.  [clearIndex] empties the store and removes both files, whatever is
    there; a [loadVectors] after it finds nothing.  A [saveVectors] after it
    writes nothing in binary format, and an empty [vectors.json] in JSON
    format. *)
Theorem clearIndex_wipes_store_and_files
    (utf8_encode : string -> list Byte.byte) (utf8_decode : list Byte.byte -> string)
    (s : Service) :
  vectors (clearIndex s) = []
  /\ disk (clearIndex s) = mkDisk None None
  /\ loadVectors utf8_decode (clearIndex s) = clearIndex s
  /\ (saveVectors utf8_encode (clearIndex s)).1 = Ok tt
  /\ disk (saveVectors utf8_encode (clearIndex s)).2
     = match format s with
       | FormatBinary => mkDisk None None
       | FormatJson => mkDisk None (Some (JsonVectors []))
       end.
Proof.
  unfold clearIndex, loadVectors, saveVectors, saveVectorsBinary, saveVectorsJson.
  cbn [log set_disk set_vectors vectors disk format binaryFile jsonFile].
  destruct (format s); done.
Qed.

(* ================================================================== *)
(** * More on the embedding client *)
(* ================================================================== *)

Lemma attemptLoop_all_throw provider sanitizedText title retries (msg : nat -> string) :
  forall fuel attempt n,
    (attempt + S fuel = S retries)%nat ->
    (forall i, (i <= fuel)%nat ->
       provider (length (sent n) + i)%nat (truncatedText sanitizedText)
       = Throws (msg (attempt + i)%nat)) ->
    attemptLoop provider sanitizedText title retries (S fuel) attempt n
    = (Err (ConnectFailed (Z.of_nat retries + 1) (msg retries)),
       mkNet (sent n ++ replicate (S fuel) (truncatedText sanitizedText))
             (delays n ++ (backoff <$> seq attempt fuel))).
Proof.
  induction fuel as [|fuel IH]; intros attempt n Hsum Hall.
  - cbn [attemptLoop]. rewrite requestUrl_sent.
    rewrite <- (Nat.add_0_r (length (sent n))), (Hall 0%nat) by lia.
    rewrite Nat.add_0_r. replace attempt with retries by lia.
    rewrite Nat.ltb_irrefl. cbn. by rewrite app_nil_r.
  - rewrite attemptLoop_S, requestUrl_sent. cbn zeta.
    rewrite <- (Nat.add_0_r (length (sent n))) at 1. rewrite (Hall 0%nat) by lia.
    destruct (Nat.ltb_spec attempt retries) as [_|]; [|lia].
    rewrite (IH (S attempt)).
    + cbn [sleep sent delays]. f_equal. f_equal.
      * by rewrite <- app_assoc.
      * rewrite <- app_assoc. done.
    + lia.
    + intros i Hi. cbn [sleep sent]. rewrite length_app. cbn [length].
      replace (length (sent n) + 1 + i)%nat with (length (sent n) + S i)%nat by lia.
      rewrite (Hall (S i)) by lia.
      by replace (attempt + S i)%nat with (S attempt + i)%nat by lia.
Qed.

(** X13.  The service cannot be reached at all: every request throws.  The
    call makes [retries + 1] requests, all with the full text, sleeps 1000,
    2000, 4000, ... milliseconds between them, and fails with "Failed to
    connect" and the message of the last failure.  Neither Safe Mode nor
    Title Only Mode is tried. *)
Theorem unreachable_service_is_retried_then_fails
    (provider : Provider) (retries : nat) (text0 : string) (title : option string)
    (n : Net) (msg : nat -> string) :
  (forall i, (i <= retries)%nat ->
     provider (length (sent n) + i)%nat (truncatedText (sanitizeText text0))
     = Throws (msg i)) ->
  generateEmbedding_with provider retries text0 title n
  = (Err (ConnectFailed (Z.of_nat retries + 1) (msg retries)),
     mkNet (sent n ++ replicate (S retries) (truncatedText (sanitizeText text0)))
           (delays n ++ (backoff <$> seq 0 retries))).
Proof.
  intros Hall. unfold generateEmbedding_with.
  apply (attemptLoop_all_throw provider _ title retries msg retries 0%nat n); [lia|].
  exact Hall.
Qed.

Lemma unreachable_service_is_retried_then_fails_witness :
  generateEmbedding unreachableProvider "Some text" (Some "title") net0
  = (Err (ConnectFailed 4 "ECONNREFUSED"),
     mkNet ["Some text"; "Some text"; "Some text"; "Some text"] [1000; 2000; 4000]).
Proof.
  exact (unreachable_service_is_retried_then_fails unreachableProvider 3 "Some text"
           (Some "title") net0 (fun _ => "ECONNREFUSED"%string) (fun _ _ => eq_refl)).
Defined.

Lemma attemptLoop_all_transient provider sanitizedText title retries (r : nat -> Response) :
  forall fuel attempt n,
    (attempt + S fuel = S retries)%nat ->
    (forall i, (i <= fuel)%nat ->
       provider (length (sent n) + i)%nat (truncatedText sanitizedText)
       = Returns (r (attempt + i)%nat)) ->
    (forall i, (i <= retries)%nat ->
       status (r i) <> 200
       /\ includes (text (r i)) "EOF" || includes (text (r i)) "connection" = true
       /\ includes (text (r i)) "context length"
          || includes (text (r i)) "context_length" = false) ->
    attemptLoop provider sanitizedText title retries (S fuel) attempt n
    = fallbackChain provider sanitizedText title (r retries)
        (mkNet (sent n ++ replicate (S fuel) (truncatedText sanitizedText))
               (delays n ++ (backoff <$> seq attempt fuel))).
Proof.
  induction fuel as [|fuel IH]; intros attempt n Hsum Hall Hr.
  - cbn [attemptLoop]. rewrite requestUrl_sent.
    rewrite <- (Nat.add_0_r (length (sent n))), (Hall 0%nat) by lia.
    rewrite Nat.add_0_r. replace attempt with retries by lia.
    destruct (Hr retries) as (Hs & Ht & Hc); [lia|].
    destruct (Z.eqb_spec (status (r retries)) 200) as [|_]; [done|]. cbn [negb].
    rewrite Hc, Ht, Nat.ltb_irrefl. cbn. by rewrite app_nil_r.
  - rewrite attemptLoop_S, requestUrl_sent. cbn zeta.
    rewrite <- (Nat.add_0_r (length (sent n))) at 1. rewrite (Hall 0%nat) by lia.
    rewrite Nat.add_0_r.
    destruct (Hr attempt) as (Hs & Ht & Hc); [lia|].
    destruct (Z.eqb_spec (status (r attempt)) 200) as [|_]; [done|]. cbn [negb].
    rewrite Hc, Ht.
    destruct (Nat.ltb_spec attempt retries) as [_|]; [|lia].
    cbn [orb andb negb].
    rewrite (IH (S attempt)).
    + cbn [sleep sent delays]. f_equal. f_equal.
      * by rewrite <- app_assoc.
      * rewrite <- app_assoc. done.
    + lia.
    + intros i Hi. cbn [sleep sent]. rewrite length_app. cbn [length].
      replace (length (sent n) + 1 + i)%nat with (length (sent n) + S i)%nat by lia.
      rewrite (Hall (S i)) by lia.
      by replace (attempt + S i)%nat with (S attempt + i)%nat by lia.
    + exact Hr.
Qed.

(** X14.  Transient errors all the way: every full-text request is answered
    with a status other than 200 and a text that mentions "EOF" or
    "connection" (and no context length).  The call makes [retries + 1]
    full-text requests with the same pauses, and then goes on as the
    fallback chain does, Safe Mode first, with the last response as the
    error to report. *)
Theorem transient_errors_are_retried_then_fall_back
    (provider : Provider) (retries : nat) (text0 : string) (title : option string)
    (n : Net) (r : nat -> Response) :
  (forall i, (i <= retries)%nat ->
     provider (length (sent n) + i)%nat (truncatedText (sanitizeText text0))
     = Returns (r i)) ->
  (forall i, (i <= retries)%nat ->
     status (r i) <> 200
     /\ includes (text (r i)) "EOF" || includes (text (r i)) "connection" = true
     /\ includes (text (r i)) "context length"
        || includes (text (r i)) "context_length" = false) ->
  generateEmbedding_with provider retries text0 title n
  = fallbackChain provider (sanitizeText text0) title (r retries)
      (mkNet (sent n ++ replicate (S retries) (truncatedText (sanitizeText text0)))
             (delays n ++ (backoff <$> seq 0 retries))).
Proof.
  intros Hall Hr. unfold generateEmbedding_with.
  by apply (attemptLoop_all_transient provider _ title retries r retries 0%nat n);
    [lia| |].
Qed.

Lemma transient_errors_are_retried_then_fall_back_witness :
  generateEmbedding droppingProvider "Some text" (Some "title") net0
  = (Err (ApiError 500 "unexpected EOF"),
     mkNet ["Some text"; "Some text"; "Some text"; "Some text"; "Some text";
            "Note title: title"]
           [1000; 2000; 4000]).
Proof.
  unfold generateEmbedding.
  rewrite (transient_errors_are_retried_then_fall_back droppingProvider 3 "Some text"
             (Some "title") net0
             (fun _ => mkResponse 500 "unexpected EOF" JsonThrows)).
  - reflexivity.
  - intros i _. reflexivity.
  - intros i _. split; [discriminate|]. split; reflexivity.
Defined.

Lemma fallbackChain_trace provider sanitizedText title response n :
  exists fb,
    sent (fallbackChain provider sanitizedText title response n).2 = sent n ++ fb
    /\ delays (fallbackChain provider sanitizedText title response n).2 = delays n
    /\ (fb = [safeText sanitizedText]
        \/ exists t, title_given title = Some t
                     /\ fb = [safeText sanitizedText; titlePrompt t]).
Proof.
  unfold fallbackChain. rewrite requestUrl_sent.
  destruct (fallback_embedding _) as [e|].
  - exists [safeText sanitizedText]. repeat split; [by left].
  - destruct (title_given title) as [t|] eqn:Ht.
    + rewrite requestUrl_sent. cbn [sent].
      exists [safeText sanitizedText; titlePrompt t].
      destruct (fallback_embedding _); cbn [snd sent delays]; rewrite <- app_assoc;
        (repeat split; [right; by exists t]).
    + exists [safeText sanitizedText]. repeat split; [by left].
Qed.

Lemma attemptLoop_trace provider sanitizedText title retries :
  forall fuel attempt n,
    (attempt + S fuel = S retries)%nat ->
    exists k fb,
      (1 <= k <= S fuel)%nat
      /\ sent (attemptLoop provider sanitizedText title retries (S fuel) attempt n).2
         = sent n ++ replicate k (truncatedText sanitizedText) ++ fb
      /\ delays (attemptLoop provider sanitizedText title retries (S fuel) attempt n).2
         = delays n ++ (backoff <$> seq attempt (k - 1))
      /\ (fb = [] \/ fb = [safeText sanitizedText]
          \/ exists t, title_given title = Some t
                       /\ fb = [safeText sanitizedText; titlePrompt t]).
Proof.
  assert (Hstop : forall fuel attempt n (r : Result (list number) * Net),
    r.2 = mkNet (sent n ++ [truncatedText sanitizedText]) (delays n) ->
    exists k fb,
      (1 <= k <= S fuel)%nat
      /\ sent r.2 = sent n ++ replicate k (truncatedText sanitizedText) ++ fb
      /\ delays r.2 = delays n ++ (backoff <$> seq attempt (k - 1))
      /\ (fb = [] \/ fb = [safeText sanitizedText]
          \/ exists t, title_given title = Some t
                       /\ fb = [safeText sanitizedText; titlePrompt t])).
  { intros fuel attempt n [res n'] Hn. cbn [snd] in *. subst n'.
    exists 1%nat, []. cbn. rewrite app_nil_r. repeat split; [lia|lia|by left]. }
  assert (Hfall : forall fuel attempt n response,
    exists k fb,
      (1 <= k <= S fuel)%nat
      /\ sent (fallbackChain provider sanitizedText title response
                 (mkNet (sent n ++ [truncatedText sanitizedText]) (delays n))).2
         = sent n ++ replicate k (truncatedText sanitizedText) ++ fb
      /\ delays (fallbackChain provider sanitizedText title response
                   (mkNet (sent n ++ [truncatedText sanitizedText]) (delays n))).2
         = delays n ++ (backoff <$> seq attempt (k - 1))
      /\ (fb = [] \/ fb = [safeText sanitizedText]
          \/ exists t, title_given title = Some t
                       /\ fb = [safeText sanitizedText; titlePrompt t])).
  { intros fuel attempt n response.
    destruct (fallbackChain_trace provider sanitizedText title response
                (mkNet (sent n ++ [truncatedText sanitizedText]) (delays n)))
      as (fb & -> & -> & Hfb).
    exists 1%nat, fb. cbn. rewrite <- app_assoc, app_nil_r.
    repeat split; [lia|lia|by right]. }
  assert (Hnext : forall fuel attempt n,
    (exists k fb,
      (1 <= k <= S fuel)%nat
      /\ sent (attemptLoop provider sanitizedText title retries (S fuel) (S attempt)
                 (sleep (backoff attempt)
                    (mkNet (sent n ++ [truncatedText sanitizedText]) (delays n)))).2
         = (sent n ++ [truncatedText sanitizedText])
           ++ replicate k (truncatedText sanitizedText) ++ fb
      /\ delays (attemptLoop provider sanitizedText title retries (S fuel) (S attempt)
                   (sleep (backoff attempt)
                      (mkNet (sent n ++ [truncatedText sanitizedText]) (delays n)))).2
         = (delays n ++ [backoff attempt]) ++ (backoff <$> seq (S attempt) (k - 1))
      /\ (fb = [] \/ fb = [safeText sanitizedText]
          \/ exists t, title_given title = Some t
                       /\ fb = [safeText sanitizedText; titlePrompt t])) ->
    exists k fb,
      (1 <= k <= S (S fuel))%nat
      /\ sent (attemptLoop provider sanitizedText title retries (S fuel) (S attempt)
                 (sleep (backoff attempt)
                    (mkNet (sent n ++ [truncatedText sanitizedText]) (delays n)))).2
         = sent n ++ replicate k (truncatedText sanitizedText) ++ fb
      /\ delays (attemptLoop provider sanitizedText title retries (S fuel) (S attempt)
                   (sleep (backoff attempt)
                      (mkNet (sent n ++ [truncatedText sanitizedText]) (delays n)))).2
         = delays n ++ (backoff <$> seq attempt (k - 1))
      /\ (fb = [] \/ fb = [safeText sanitizedText]
          \/ exists t, title_given title = Some t
                       /\ fb = [safeText sanitizedText; titlePrompt t])).
  { intros fuel attempt n (k & fb & Hk & Hs & Hd & Hfb).
    exists (S k), fb. rewrite Hs, Hd, <- !app_assoc.
    replace (S k - 1)%nat with (S (k - 1)) by lia.
    repeat split; [lia|lia|done]. }
  induction fuel as [|fuel IH]; intros attempt n Hsum.
  - cbn [attemptLoop]. rewrite requestUrl_sent.
    destruct (Nat.ltb_spec attempt retries) as [|_]; [lia|]. cbn [andb].
    destruct (provider _ _) as [message|response]; [by apply Hstop|].
    destruct (negb _); [|destruct (json response); by apply Hstop].
    destruct (_ || _ || _); [|by apply Hstop].
    by apply Hfall.
  - rewrite attemptLoop_S, requestUrl_sent. cbn zeta.
    destruct (provider _ _) as [message|response].
    + destruct (attempt <? retries)%nat; [|by apply Hstop].
      apply Hnext, IH. lia.
    + destruct (negb _); [|destruct (json response); by apply Hstop].
      destruct (_ || _ || _); [|by apply Hstop].
      destruct (_ && _); [|by apply Hfall].
      apply Hnext, IH. lia.
Qed.

(** X15.  What a call can put on the wire, whatever the service answers: between
    one and [retries + 1] requests with the full text, with the pauses
    1000, 2000, 4000, ... between them, followed by nothing, by the Safe
    Mode request, or by the Safe Mode and the Title Only request, the latter
    only when a title was given.  So never more than [retries + 3] requests,
    and no other prompt than these three. *)
Theorem generateEmbedding_traffic
    (provider : Provider) (retries : nat) (text0 : string) (title : option string)
    (n : Net) :
  exists k fb,
    (1 <= k <= S retries)%nat
    /\ sent (generateEmbedding_with provider retries text0 title n).2
       = sent n ++ replicate k (truncatedText (sanitizeText text0)) ++ fb
    /\ delays (generateEmbedding_with provider retries text0 title n).2
       = delays n ++ (backoff <$> seq 0 (k - 1))
    /\ (fb = [] \/ fb = [safeText (sanitizeText text0)]
        \/ exists t, title_given title = Some t
                     /\ fb = [safeText (sanitizeText text0); titlePrompt t])
    /\ (length (sent (generateEmbedding_with provider retries text0 title n).2)
        <= length (sent n) + retries + 3)%nat.
Proof.
  unfold generateEmbedding_with.
  destruct (attemptLoop_trace provider (sanitizeText text0) title retries retries 0%nat n)
    as (k & fb & Hk & Hs & Hd & Hfb); [lia|].
  exists k, fb. repeat split; try done; try lia.
  rewrite Hs, !length_app, length_replicate.
  destruct Hfb as [->|[->|(t & _ & ->)]]; simpl; lia.
Qed.

Lemma length_substring0 (k : nat) (s : string) :
  (String.length (String.substring 0 k s) <= k)%nat.
Proof.
  revert s. induction k as [|k IH]; intros [|c s]; simpl; try lia.
  specialize (IH s). lia.
Qed.

Lemma substring0_all (k : nat) (s : string) :
  (String.length s <= k)%nat -> String.substring 0 k s = s.
Proof.
  revert s. induction k as [|k IH]; intros [|c s]; simpl; try done; try lia.
  intros H. f_equal. apply IH. lia.
Qed.

(** X16.  The two prompts made from the text are bounded: the full-text prompt
    has at most 32000 characters and is the sanitized text itself when that
    is not longer; the Safe Mode prompt has at most 2000 characters. *)
Theorem text_prompts_are_bounded (sanitizedText : string) :
  str_length (truncatedText sanitizedText) <= maxLength
  /\ str_length (safeText sanitizedText) <= safeLength
  /\ truncatedText sanitizedText
     = String.substring 0 (Z.to_nat maxLength) sanitizedText.
Proof.
  unfold truncatedText, safeText, substring0, str_length.
  pose proof (length_substring0 (Z.to_nat maxLength) sanitizedText).
  pose proof (length_substring0 (Z.to_nat safeLength)
                (trim (collapseSpaces (stripTags sanitizedText)))).
  assert (0 <= maxLength /\ 0 <= safeLength) as [? ?]
    by (unfold maxLength, safeLength; lia).
  destruct (Z.ltb_spec maxLength (Z.of_nat (String.length sanitizedText))) as [Hlt|Hge].
  - repeat split; try lia; done.
  - rewrite (substring0_all (Z.to_nat maxLength) sanitizedText) by lia.
    repeat split; try lia; done.
Qed.

Lemma sanitizeText_chars (s : string) (c : ascii) :
  c ∈ list_ascii_of_string (sanitizeText s)
  <-> c ∈ list_ascii_of_string s /\ is_control c = false.
Proof.
  induction s as [|d s IH]; simpl.
  - split; [intros H|intros [H _]]; by apply elem_of_nil in H.
  - destruct (is_control d) eqn:Hd; simpl; rewrite ?elem_of_cons, IH.
    + split; [tauto|]. intros [[->|?] ?]; [congruence|tauto].
    + split; [intros [->|?]; tauto|tauto].
Qed.

(** X17.  [sanitizeText] removes the control characters and nothing else: a
    character is in the result exactly when it is in the text and is no
    control character (tab, line feed and carriage return are none); text
    without control characters is returned as it is, so that sanitizing
    twice is sanitizing once. *)
Theorem sanitizeText_removes_control_characters (s : string) :
  (forall c, c ∈ list_ascii_of_string (sanitizeText s)
             <-> c ∈ list_ascii_of_string s /\ is_control c = false)
  /\ (Forall (fun c => is_control c = false) (list_ascii_of_string s) ->
      sanitizeText s = s)
  /\ sanitizeText (sanitizeText s) = sanitizeText s
  /\ (String.length (sanitizeText s) <= String.length s)%nat
  /\ is_control "009" = false /\ is_control "010" = false /\ is_control "013" = false.
Proof.
  assert (Hclean : forall t, Forall (fun c => is_control c = false) (list_ascii_of_string t) ->
                             sanitizeText t = t).
  { induction t as [|d t IH]; simpl; [done|]. intros H.
    apply Forall_cons in H as [-> H]. f_equal. by apply IH. }
  split; [apply sanitizeText_chars|]. split; [apply Hclean|]. split.
  - apply Hclean, Forall_forall. intros c Hc. by apply sanitizeText_chars in Hc as [_ ?].
  - split; [|done]. induction s as [|d s IH]; simpl; [done|].
    destruct (is_control d); simpl; lia.
Qed.

(* ================================================================== *)
(** * The text sent to the embedding service *)
(* ================================================================== *)

Lemma single_spaced_weaken b (s : string) :
  single_spaced b s = true -> single_spaced false s = true.
Proof.
  destruct s as [|c s]; simpl; [done|]. destruct (is_space c); [|done].
  destruct b; [|done]. by rewrite andb_false_r.
Qed.

Lemma collapseSpaces_from_single_spaced b (s : string) :
  single_spaced b (collapseSpaces_from b s) = true.
Proof.
  revert b. induction s as [|c s IH]; intros b; simpl; [done|].
  destruct (is_space c) eqn:Hc.
  - destruct b; [apply IH|]. simpl. apply IH.
  - simpl. rewrite Hc. apply IH.
Qed.

Lemma trimStart_single_spaced (s : string) :
  single_spaced false s = true -> single_spaced true (trimStart s) = true.
Proof.
  induction s as [|c s IH]; simpl; [done|].
  destruct (is_space c) eqn:Hc.
  - intros H. apply andb_true_iff in H as [_ H]. by eapply IH, single_spaced_weaken.
  - intros H. simpl. by rewrite Hc.
Qed.

Lemma words_from_cons b c (s : string) :
  words_from b (String c s)
  = if is_space c then Ascii.eqb c " " && negb b && words_from true s
    else words_from false s.
Proof. reflexivity. Qed.

Lemma trimEnd_words b (s : string) :
  single_spaced b s = true ->
  trimEnd s = EmptyString \/ words_from b (trimEnd s) = true.
Proof.
  revert b. induction s as [|c s IH]; intros b; simpl; [by left|].
  destruct (is_space c) eqn:Hc.
  - intros H. apply andb_true_iff in H as [H1 H2].
    destruct (IH true H2) as [->|Hw]; [by left|].
    right. destruct (trimEnd s) as [|d t] eqn:Ht; [done|].
    by rewrite (words_from_cons b c), Hc, H1, Hw.
  - intros H. right. destruct (IH false H) as [->|Hw].
    + simpl. by rewrite Hc.
    + destruct (trimEnd s) as [|d t] eqn:Ht; [simpl; by rewrite Hc|].
      by rewrite (words_from_cons b c), Hc.
Qed.

Lemma trim_collapseSpaces_normalized (s : string) :
  normalized (trim (collapseSpaces s)) = true.
Proof.
  unfold trim, collapseSpaces.
  pose proof (trimStart_single_spaced _ (collapseSpaces_from_single_spaced false s)) as H.
  destruct (trimEnd_words true _ H) as [->|Hw]; [done|].
  unfold normalized. by destruct (trimEnd _).
Qed.

(** X18.  What [preprocessContent] returns is, whatever the note holds, a
    sequence of words separated by single spaces: it has no white-space
    character other than the plain space (no line break, tab or
    non-breaking space), no two spaces in a row, and no space at its start
    or end.  The Safe Mode prompt is the first 2000 characters of such a
    text. *)
Theorem preprocessContent_is_normalized (content sanitizedText : string) :
  normalized (preprocessContent content) = true
  /\ (exists cleaned, normalized cleaned = true
                      /\ safeText sanitizedText = substring0 safeLength cleaned).
Proof.
  split; [apply trim_collapseSpaces_normalized|].
  eexists. split; [apply trim_collapseSpaces_normalized|reflexivity].
Qed.

(* ================================================================== *)
(** * More on similarity and the queries *)
(* ================================================================== *)

Lemma num_mul_comm (x y : number) : num_mul x y = num_mul y x.
Proof.
  unfold num_mul, SFmul.
  destruct x as [sx|sx| |sx mx ex], y as [sy|sy| |sy my ey];
    try reflexivity; try (by rewrite xorb_comm).
  by rewrite xorb_comm, Pos.mul_comm, Z.add_comm.
Qed.

Lemma cosine_sums_swap (a b : list number) dot na nb :
  length a = length b ->
  cosine_sums a b (dot, na, nb)
  = (fun r => (r.1.1, r.2, r.1.2)) (cosine_sums b a (dot, nb, na)).
Proof.
  revert b dot na nb. induction a as [|x a IH]; intros [|y b] dot na nb Hlen;
    try done.
  cbn [cosine_sums hd tl]. rewrite (num_mul_comm y x). apply IH.
  by injection Hlen.
Qed.

(** X19.  [cosineSimilarity] is symmetric on embeddings of the same length, and
    exactly so: the two calls return the same floating-point number (or both
    [NaN]). *)
Theorem cosineSimilarity_symmetric (a b : list number) :
  length a = length b ->
  cosineSimilarity a b = cosineSimilarity b a.
Proof.
  intros Hlen. unfold cosineSimilarity. rewrite (cosine_sums_swap a b) by done.
  destruct (cosine_sums b a _) as [[dot nb] na]. cbn [fst snd].
  by rewrite num_mul_comm.
Qed.

Lemma cosineSimilarity_symmetric_witness :
  cosineSimilarity [num_one; num_tenth] [num_half; num_two]
  = cosineSimilarity [num_half; num_two] [num_one; num_tenth].
Proof.
  exact (cosineSimilarity_symmetric [num_one; num_tenth] [num_half; num_two] eq_refl).
Defined.

Lemma length_topK (query : list number) (candidates : list NoteVector) (k : Z) :
  len (topK query candidates k)
  = if k <? 0 then Z.max 0 (len candidates + k) else Z.min k (len candidates).
Proof.
  unfold topK, slice0, len.
  destruct (Z.ltb_spec k 0);
    rewrite length_take, (Permutation_length (array_sort_perm _ _)), length_fmap; lia.
Qed.

(** X20.  How many results the ranking gives: for a limit [k] that is not
    negative the first [k] of the candidates, or all of them when there are
    fewer; for a negative [k], [slice(0, k)] counts from the end, and all
    but the last [-k] are returned. *)
Theorem topK_length (query : list number) (candidates : list NoteVector) (k : Z) :
  len (topK query candidates k)
  = if k <? 0 then Z.max 0 (len candidates + k) else Z.min k (len candidates).
Proof. apply length_topK. Qed.

Lemma topK_paths (query : list number) (candidates : list NoteVector) (k : Z) :
  exists l,
    l ≡ₚ path <$> candidates
    /\ scored_path <$> topK query candidates k `sublist_of` l.
Proof.
  unfold topK.
  set (scored := (fun v => mkScored (path v) (cosineSimilarity query (embedding v)))
                   <$> candidates).
  exists (scored_path <$> array_sort by_score_desc scored). split.
  - rewrite (array_sort_perm by_score_desc scored). subst scored.
    by rewrite <- list_fmap_compose.
  - apply fmap_sublist. unfold slice0. destruct (k <? 0); apply sublist_take.
Qed.

Lemma resolve_files_paths vault (scores : list Scored) :
  (forall p f, vault p = Some f -> file_path f = p) ->
  (fun r : TFile * number => file_path r.1) <$> resolve_files vault scores
  `sublist_of` scored_path <$> scores.
Proof.
  intros Hvault. unfold resolve_files.
  induction scores as [|s scores IH]; [done|]. cbn [omap list_omap fmap list_fmap].
  destruct (vault (scored_path s)) as [f|] eqn:Hf; cbn.
  - rewrite (Hvault _ _ Hf). by apply sublist_skip.
  - by apply sublist_cons.
Qed.

Lemma resolve_files_elem_of vault (scores : list Scored) f sc :
  (f, sc) ∈ resolve_files vault scores ->
  exists s, s ∈ scores /\ vault (scored_path s) = Some f.
Proof.
  unfold resolve_files. intros H. apply list_elem_of_omap in H as (s & Hs & Hv).
  exists s. split; [done|]. destruct (vault (scored_path s)) as [g|]; [|done].
  cbn in Hv. by injection Hv as -> _.
Qed.

Lemma vault_of_path (files : list TFile) p f :
  vault_of files p = Some f -> file_path f = p.
Proof.
  unfold vault_of. intros H. apply array_find_Some in H as [H _].
  by apply String.eqb_eq in H.
Qed.

Lemma findRelated_spec
    (vault : string -> option TFile) (file : TFile) (k : Z) (vs : list NoteVector) :
  (forall p f, vault p = Some f -> file_path f = p) ->
  (array_find (has_path (file_path file)) vs = None -> findRelated vault file k vs = [])
  /\ (0 <= k -> len (findRelated vault file k vs) <= k)
  /\ (forall f sc, (f, sc) ∈ findRelated vault file k vs ->
        file_path f <> file_path file
        /\ file_path f ∈ path <$> vs
        /\ vault (file_path f) = Some f)
  /\ (NoDup (path <$> vs) ->
      NoDup ((fun r : TFile * number => file_path r.1) <$> findRelated vault file k vs)).
Proof.
  intros Hvault. unfold findRelated.
  destruct (array_find (has_path (file_path file)) vs) as [target|]; cycle 1.
  { split; [done|]. split; [intros ?; unfold len; simpl; lia|]. split.
    - intros f sc H. by apply elem_of_nil in H.
    - intros _. constructor. }
  set (others := filter (fun v => negb (has_path (file_path file) v)) vs).
  destruct (topK_paths (embedding target) others k) as (l & Hperm & Hsub).
  pose proof (resolve_files_paths vault (topK (embedding target) others k) Hvault) as Hres.
  split; [done|]. split; [|split].
  - intros Hk. apply sublist_length in Hres. rewrite !length_fmap in Hres.
    pose proof (length_topK (embedding target) others k) as Hlen.
    destruct (Z.ltb_spec k 0); [lia|]. unfold len in *. lia.
  - intros f sc Hin. apply resolve_files_elem_of in Hin as (s & Hs & Hf).
    pose proof (Hvault _ _ Hf) as Hp.
    assert (Hl : scored_path s ∈ path <$> others).
    { rewrite <- Hperm. eapply elem_of_sublist; [|exact Hsub].
      by apply list_elem_of_fmap_2. }
    apply list_elem_of_fmap in Hl as (v & Hv & Hin).
    apply list_elem_of_filter in Hin as [Hne Hin].
    rewrite Hp. split; [|split].
    + rewrite Hv. apply has_path_false. by destruct (has_path _ v).
    + rewrite Hv. by apply list_elem_of_fmap_2.
    + exact Hf.
  - intros Hnd. eapply sublist_NoDup; [|exact Hres].
    eapply sublist_NoDup; [|exact Hsub]. rewrite Hperm.
    eapply sublist_NoDup; [exact Hnd|]. apply fmap_sublist, sublist_filter.
Qed.

(** X21.  What [findRelated] returns, for a vault that resolves a path to the
    file of that path: nothing when the note has no record; at most [k]
    results; never the note itself; only files that have a record in the
    store; and no file twice when the store has one record per path. *)
Theorem findRelated_results
    (vault : string -> option TFile) (file : TFile) (k : Z) (vs : list NoteVector) :
  (forall p f, vault p = Some f -> file_path f = p) ->
  (array_find (has_path (file_path file)) vs = None -> findRelated vault file k vs = [])
  /\ (0 <= k -> len (findRelated vault file k vs) <= k)
  /\ (forall f sc, (f, sc) ∈ findRelated vault file k vs ->
        file_path f <> file_path file
        /\ file_path f ∈ path <$> vs
        /\ vault (file_path f) = Some f)
  /\ (NoDup (path <$> vs) ->
      NoDup ((fun r : TFile * number => file_path r.1) <$> findRelated vault file k vs)).
Proof. apply findRelated_spec. Qed.

Lemma findRelated_results_witness :
  Forall (fun r : TFile * number => file_path r.1 <> file_path (note 0))
    (findRelated (vault_of [note 0; note 1; note 2]) (note 0) 5
       [mkNoteVector (file_path (note 0)) [num_one; num_half] num_one;
        mkNoteVector (file_path (note 1)) [num_half; num_one] num_one;
        mkNoteVector "gone.md" [num_one; num_one] num_one]).
Proof.
  apply Forall_forall. intros [f sc] H.
  destruct (findRelated_results (vault_of [note 0; note 1; note 2]) (note 0) 5
              [mkNoteVector (file_path (note 0)) [num_one; num_half] num_one;
               mkNoteVector (file_path (note 1)) [num_half; num_one] num_one;
               mkNoteVector "gone.md" [num_one; num_one] num_one]
              (vault_of_path _)) as (_ & _ & Hself & _).
  exact (proj1 (Hself f sc H)).
Defined.

(* ------------------------------------------------------------------ *)
(** ** The side panel *)

Lemma renderedItems_spec (seenPaths : gset string) (related : list (TFile * number)) :
  renderedItems seenPaths related `sublist_of` related
  /\ NoDup ((fun r : TFile * number => file_path r.1) <$> renderedItems seenPaths related)
  /\ (forall p, p ∈ (fun r : TFile * number => file_path r.1)
                      <$> renderedItems seenPaths related
                <-> p ∈ (fun r : TFile * number => file_path r.1) <$> related
                    /\ p ∉ seenPaths)
  /\ (NoDup ((fun r : TFile * number => file_path r.1) <$> related) ->
      (forall p, p ∈ (fun r : TFile * number => file_path r.1) <$> related ->
                 p ∉ seenPaths) ->
      renderedItems seenPaths related = related).
Proof.
  revert seenPaths. induction related as [|item rest IH]; intros seenPaths.
  - cbn. split; [done|]. split; [constructor|]. split; [|done].
    intros p. split; [intros H|intros [H _]]; by apply elem_of_nil in H.
  - cbn [renderedItems]. destruct (decide _) as [Hseen|Hnew].
    + destruct (IH seenPaths) as (Hsub & Hnd & Hiff & Hid).
      split; [by apply sublist_cons|]. split; [done|]. split.
      * intros p. rewrite Hiff, fmap_cons, elem_of_cons.
        split; [tauto|]. intros [[->|?] ?]; [done|tauto].
      * intros _ Hfresh. exfalso. apply (Hfresh (file_path item.1)); [left|done].
    + destruct (IH ({[ file_path item.1 ]} ∪ seenPaths)) as (Hsub & Hnd & Hiff & Hid).
      split; [by apply sublist_skip|]. split; [|split].
      * rewrite fmap_cons. apply NoDup_cons. split; [|done].
        rewrite Hiff. intros [_ Hnot]. apply Hnot.
        by apply elem_of_union_l, elem_of_singleton_2.
      * intros p. rewrite !fmap_cons, !elem_of_cons, Hiff.
        split.
        -- intros [->|[? Hnot]]; [tauto|]. split; [tauto|].
           intros Hs. apply Hnot. by apply elem_of_union_r.
        -- intros [[->|Hin] Hnot]; [by left|].
           destruct (decide (p = file_path item.1)) as [->|Hne]; [by left|].
           right. split; [done|]. apply not_elem_of_union. split; [|done].
           by apply not_elem_of_singleton.
      * intros Hndr Hfresh. rewrite fmap_cons in Hndr.
        apply NoDup_cons in Hndr as [Hhead Hndr]. f_equal. apply Hid; [done|].
        intros p Hp. apply not_elem_of_union. split.
        -- apply not_elem_of_singleton. intros ->. done.
        -- apply Hfresh. rewrite fmap_cons. by right.
Qed.

Lemma renderedItems_snoc (seenPaths : gset string) (related : list (TFile * number))
    (item : TFile * number) :
  renderedItems seenPaths (related ++ [item])
  = renderedItems seenPaths related
    ++ (if decide (file_path item.1 ∈ seenPaths
                   \/ file_path item.1
                        ∈ (fun r : TFile * number => file_path r.1) <$> related)
        then [] else [item]).
Proof.
  revert seenPaths. induction related as [|first rest IH]; intros seenPaths.
  - cbn [app renderedItems fmap list_fmap].
    destruct (decide (file_path item.1 ∈ seenPaths)) as [Hseen|Hnew].
    + by rewrite decide_True by by left.
    + rewrite decide_False; [done|]. intros [?|Hin]; [done|].
      by apply elem_of_nil in Hin.
  - cbn [app renderedItems]. rewrite fmap_cons.
    destruct (decide (file_path first.1 ∈ seenPaths)) as [Hseen|Hnew].
    + rewrite IH. f_equal.
      destruct (decide (file_path item.1 ∈ seenPaths
                        \/ file_path item.1
                             ∈ (fun r : TFile * number => file_path r.1) <$> rest))
        as [Hyes|Hno].
      * rewrite decide_True; [done|]. destruct Hyes; [by left|right; by right].
      * rewrite decide_False; [done|]. intros [?|Hin]; [tauto|].
        apply elem_of_cons in Hin as [Heq|?]; [|tauto].
        apply Hno. left. by rewrite Heq.
    + cbn [app]. rewrite IH. f_equal. f_equal.
      destruct (decide (file_path item.1 ∈ {[file_path first.1]} ∪ seenPaths
                        \/ file_path item.1
                             ∈ (fun r : TFile * number => file_path r.1) <$> rest))
        as [Hyes|Hno].
      * rewrite decide_True; [done|]. destruct Hyes as [Hin|?]; [|right; by right].
        apply elem_of_union in Hin as [Hin|?]; [|by left].
        apply elem_of_singleton in Hin. right. rewrite Hin. by left.
      * rewrite decide_False; [done|]. intros [?|Hin].
        -- apply Hno. left. by apply elem_of_union_r.
        -- apply elem_of_cons in Hin as [Heq|?]; [|tauto].
           apply Hno. left. apply elem_of_union_l. by apply elem_of_singleton.
Qed.

(** X22.  The side panel shows no note twice: of the results it is given it
    renders, in their order, the first one of every path, and skips the
    others; results of different paths are all rendered.  Result by result:
    a result is rendered, behind what is rendered of the results before it,
    exactly when none of the results before it has its path. *)
Theorem renderedItems_distinct (related : list (TFile * number)) :
  renderedItems ∅ related `sublist_of` related
  /\ NoDup ((fun r : TFile * number => file_path r.1) <$> renderedItems ∅ related)
  /\ (forall p, p ∈ (fun r : TFile * number => file_path r.1) <$> renderedItems ∅ related
                <-> p ∈ (fun r : TFile * number => file_path r.1) <$> related)
  /\ (NoDup ((fun r : TFile * number => file_path r.1) <$> related) ->
      renderedItems ∅ related = related)
  /\ renderedItems ∅ [] = []
  /\ (forall before item,
        renderedItems ∅ (before ++ [item])
        = renderedItems ∅ before
          ++ (if decide (file_path item.1
                           ∈ (fun r : TFile * number => file_path r.1) <$> before)
              then [] else [item]))
  /\ (forall before item after,
        related = before ++ item :: after ->
        file_path item.1 ∉ (fun r : TFile * number => file_path r.1) <$> before ->
        array_find (fun r : TFile * number => String.eqb (file_path r.1) (file_path item.1))
          (renderedItems ∅ related)
        = Some item).
Proof.
  destruct (renderedItems_spec ∅ related) as (Hsub & Hnd & Hiff & Hid).
  assert (Hsnoc : forall before item,
             renderedItems ∅ (before ++ [item])
             = renderedItems ∅ before
               ++ (if decide (file_path item.1
                                ∈ (fun r : TFile * number => file_path r.1) <$> before)
                   then [] else [item])).
  { intros before item. rewrite renderedItems_snoc. f_equal.
    destruct (decide (file_path item.1
                        ∈ (fun r : TFile * number => file_path r.1) <$> before))
      as [Hin|Hnin].
    - by rewrite decide_True by by right.
    - rewrite decide_False; [done|]. intros [Hempty|?]; [|done].
      by apply not_elem_of_empty in Hempty. }
  split; [done|]. split; [done|]. split; [|split; [|split; [done|split; [done|]]]].
  - intros p. rewrite Hiff. split; [tauto|]. intros ?. split; [done|].
    apply not_elem_of_empty.
  - intros Hndr. apply Hid; [done|]. intros p _. apply not_elem_of_empty.
  - intros before item after -> Hfirst.
    assert (Hfront : forall (front rest : list (TFile * number)) seenPaths,
               exists seenPaths',
                 renderedItems seenPaths (front ++ rest)
                 = renderedItems seenPaths front ++ renderedItems seenPaths' rest).
    { clear. intros front rest.
      induction front as [|x front IH]; intros seenPaths; [by exists seenPaths|].
      cbn [app renderedItems]. destruct (decide _) as [Hseen|Hnew].
      - apply IH.
      - destruct (IH ({[file_path x.1]} ∪ seenPaths)) as [seenPaths' ->].
        by exists seenPaths'. }
    replace (before ++ item :: after) with ((before ++ [item]) ++ after)
      by (by rewrite <- app_assoc).
    destruct (Hfront (before ++ [item]) after ∅) as [seenPaths' ->].
    rewrite Hsnoc, decide_False by done.
    rewrite <- app_assoc.
    assert (Hskip : array_find
                      (fun r : TFile * number =>
                         String.eqb (file_path r.1) (file_path item.1))
                      (renderedItems ∅ before) = None).
    { destruct (array_find _ (renderedItems ∅ before)) as [r|] eqn:Hfind; [|done].
      apply array_find_Some in Hfind as [Heq Hin]. apply String.eqb_eq in Heq.
      exfalso. apply Hfirst. rewrite <- Heq.
      destruct (renderedItems_spec ∅ before) as (Hsubb & _).
      apply (list_elem_of_fmap_2 (fun r : TFile * number => file_path r.1)).
      by eapply elem_of_sublist. }
    rewrite array_find_app_r by done. cbn [app array_find].
    by rewrite String.eqb_refl.
Qed.

(** X23.  The panel as a whole, over a store with one record per path and a
    vault that resolves a path to the file of that path: when indexing the
    active note fails, its error is what the panel shows; otherwise the
    active note has a record, and the panel renders exactly the results of
    [findRelated], none of them dropped by the deduplication. *)
Theorem view_update_shows_findRelated
    (provider : Provider) (vault : string -> option TFile) (activeFile : TFile)
    (maxRelatedNotes : Z) (s : Service) :
  (forall p f, vault p = Some f -> file_path f = p) ->
  NoDup (path <$> vectors s) ->
  match (view_update provider vault activeFile maxRelatedNotes s).1 with
  | Err e => (indexNote provider activeFile s).1 = Err e
  | Ok items =>
      file_path activeFile
        ∈ path <$> vectors (view_update provider vault activeFile maxRelatedNotes s).2
      /\ items
         = findRelated vault activeFile maxRelatedNotes
             (vectors (view_update provider vault activeFile maxRelatedNotes s).2)
  end.
Proof.
  intros Hvault Hnd. unfold view_update.
  pose proof (indexNote_ok_path provider activeFile s) as Hin.
  pose proof (indexNote_invariant (fun vs => NoDup (path <$> vs))
                (fun p e m vs => upsert_NoDup p e m vs) provider activeFile s Hnd) as Hnd'.
  destruct (indexNote provider activeFile s) as [[[]|e] s1]; cbn [fst snd] in *; [|done].
  split; [by apply Hin|].
  destruct (renderedItems_spec ∅ (findRelated vault activeFile maxRelatedNotes (vectors s1)))
    as (_ & _ & _ & Hid).
  apply Hid; [|intros p _; apply not_elem_of_empty].
  by apply (findRelated_spec vault activeFile maxRelatedNotes (vectors s1) Hvault).
Qed.

Lemma view_update_shows_findRelated_witness :
  match (view_update constantProvider (vault_of [note 0; note 1]) (note 0) 5
           (set_vectors [mkNoteVector (file_path (note 1)) [num_half; num_one] num_one]
              (newService FormatBinary))).1 with
  | Err e =>
      (indexNote constantProvider (note 0)
         (set_vectors [mkNoteVector (file_path (note 1)) [num_half; num_one] num_one]
            (newService FormatBinary))).1 = Err e
  | Ok items =>
      file_path (note 0)
        ∈ path <$> vectors
            (view_update constantProvider (vault_of [note 0; note 1]) (note 0) 5
               (set_vectors [mkNoteVector (file_path (note 1)) [num_half; num_one] num_one]
                  (newService FormatBinary))).2
      /\ items
         = findRelated (vault_of [note 0; note 1]) (note 0) 5
             (vectors
                (view_update constantProvider (vault_of [note 0; note 1]) (note 0) 5
                   (set_vectors
                      [mkNoteVector (file_path (note 1)) [num_half; num_one] num_one]
                      (newService FormatBinary))).2)
  end.
Proof.
  apply (view_update_shows_findRelated constantProvider (vault_of [note 0; note 1])
           (note 0) 5
           (set_vectors [mkNoteVector (file_path (note 1)) [num_half; num_one] num_one]
              (newService FormatBinary))
           (vault_of_path _)).
  cbn. apply NoDup_singleton.
Defined.

(** X24.  [searchByText] reads the store and never writes it: the store
    and the files are as before, and the traffic is that of one call of
    [generateEmbedding] for the query.  When that call fails, its error is
    the result; otherwise there are at most [k] results, every one a file
    that has a record in the store. *)
Theorem searchByText_results
    (provider : Provider) (vault : string -> option TFile) (query : string) (k : Z)
    (s : Service) :
  (forall p f, vault p = Some f -> file_path f = p) ->
  vectors (searchByText provider vault query k s).2 = vectors s
  /\ disk (searchByText provider vault query k s).2 = disk s
  /\ net (searchByText provider vault query k s).2
     = (generateEmbedding provider query None (net s)).2
  /\ match (searchByText provider vault query k s).1 with
     | Err e => (generateEmbedding provider query None (net s)).1 = Err e
     | Ok results =>
         (0 <= k -> len results <= k)
         /\ (forall f sc, (f, sc) ∈ results ->
               file_path f ∈ path <$> vectors s /\ vault (file_path f) = Some f)
     end.
Proof.
  intros Hvault. unfold searchByText.
  destruct (generateEmbedding provider query None (net s)) as [[e|err] n];
    cbn [fst snd set_net vectors disk net]; repeat split; try done.
  - intros Hk.
    pose proof (resolve_files_paths vault (topK e (vectors s) k) Hvault) as Hres.
    apply sublist_length in Hres. rewrite !length_fmap in Hres.
    pose proof (length_topK e (vectors s) k) as Hlen.
    destruct (Z.ltb_spec k 0); [lia|]. unfold len in *. lia.
  - apply resolve_files_elem_of in H as (sc' & Hs & Hf).
    rewrite (Hvault _ _ Hf).
    destruct (topK_paths e (vectors s) k) as (l & Hperm & Hsub).
    rewrite <- Hperm. eapply elem_of_sublist; [|exact Hsub].
    by apply list_elem_of_fmap_2.
  - apply resolve_files_elem_of in H as (sc' & Hs & Hf).
    by rewrite (Hvault _ _ Hf).
Qed.

Lemma searchByText_results_witness :
  vectors (searchByText constantProvider (vault_of [note 0; note 1]) "query" 10
             savedService).2
  = vectors savedService.
Proof.
  exact (proj1 (searchByText_results constantProvider (vault_of [note 0; note 1])
                  "query" 10 savedService (vault_of_path _))).
Defined.

(* ------------------------------------------------------------------ *)
(** ** The settings tab *)

(** X25.  "Missing from Index" is the number of vault files without a record,
    and so between 0 and the number of files, when no two files share a
    path and the store has one record per path.  (Records of files that are
    gone are not counted as indexed.) *)
Theorem indexStats_missing_count (markdownFiles : list TFile) (vectors : list NoteVector) :
  NoDup (file_path <$> markdownFiles) ->
  NoDup (path <$> vectors) ->
  (indexStats markdownFiles vectors).2
  = len (filter (fun f => file_path f ∉ path <$> vectors) markdownFiles)
  /\ 0 <= (indexStats markdownFiles vectors).2 <= len markdownFiles
  /\ (indexStats markdownFiles vectors).1.2
     = len (filter (fun f => file_path f ∈ path <$> vectors) markdownFiles).
Proof.
  intros Hfiles Hstore. unfold indexStats. cbn [fst snd].
  set (live := list_to_set (file_path <$> markdownFiles) : gset string).
  assert (Hsame : length (filter (fun v => path v ∈ live) vectors)
                  = length (filter (fun f => file_path f ∈ path <$> vectors) markdownFiles)).
  { rewrite <- (length_fmap path), <- (length_fmap file_path).
    apply Permutation_length, NoDup_Permutation.
    - eapply sublist_NoDup; [exact Hstore|]. apply fmap_sublist, sublist_filter.
    - eapply sublist_NoDup; [exact Hfiles|]. apply fmap_sublist, sublist_filter.
    - intros p. rewrite !list_elem_of_fmap. split.
      + intros (v & -> & Hv). apply list_elem_of_filter in Hv as [Hlive Hv].
        apply elem_of_list_to_set, list_elem_of_fmap in Hlive as (f & Hp & Hf).
        exists f. split; [done|]. apply list_elem_of_filter. split; [|done].
        rewrite <- Hp. by apply list_elem_of_fmap_2.
      + intros (f & -> & Hf). apply list_elem_of_filter in Hf as [Hin Hf].
        apply list_elem_of_fmap in Hin as (v & Hp & Hv).
        exists v. split; [done|]. apply list_elem_of_filter. split; [|done].
        rewrite <- Hp. apply elem_of_list_to_set. by apply list_elem_of_fmap_2. }
  assert (Hsplit : (length (filter (fun f => file_path f ∈ path <$> vectors) markdownFiles)
                    + length (filter (fun f => file_path f ∉ path <$> vectors) markdownFiles)
                    = length markdownFiles)%nat)
    by apply (length_filter_complement (fun f => file_path f ∈ path <$> vectors)).
  unfold len. rewrite Hsame. repeat split; lia.
Qed.

Lemma indexStats_missing_count_witness :
  0 <= (indexStats [note 0; note 1; note 2]
          [mkNoteVector (file_path (note 1)) [num_one] num_one;
           mkNoteVector "gone.md" [num_one] num_one]).2 <= 3.
Proof.
  assert (Hfiles : NoDup (file_path <$> [note 0; note 1; note 2])).
  { vm_compute. repeat (apply NoDup_cons; split;
      [intros H; repeat (apply elem_of_cons in H as [H|H]; [discriminate H|]);
       by apply elem_of_nil in H|]). apply NoDup_nil. done. }
  assert (Hstore : NoDup (path <$> [mkNoteVector (file_path (note 1)) [num_one] num_one;
                                    mkNoteVector "gone.md" [num_one] num_one])).
  { vm_compute. repeat (apply NoDup_cons; split;
      [intros H; repeat (apply elem_of_cons in H as [H|H]; [discriminate H|]);
       by apply elem_of_nil in H|]). apply NoDup_nil. done. }
  exact (proj1 (proj2 (indexStats_missing_count _ _ Hfiles Hstore))).
Defined.
